(** * Hardware-accelerated multi-precision arithmetic (ESP32-S2 RSA peripheral)

    A shallow embedding of the bignum driver: operand marshalling,
    Montgomery parameter derivation, the peripheral access protocol and the
    three exposed operations (modular multiply, modular exponentiation,
    plain multiply with decomposition), followed by the properties proved
    about them.

    The driver is modelled as it is written.  What it stands on and is
    not among its sources - the peripheral, the lock, the allocator and
    the integer container of mbedTLS - is modelled from the documentation
    of the driver; those definitions say so. *)

From Stdlib Require Import ZArith List Lia Bool.
Import ListNotations.
Local Open Scope Z_scope.

(* ================================================================== *)
(** * Machine integers *)
(* ================================================================== *)

Module Word.

(** [biL]: bits in a limb ([ciL << 3] with 4-byte limbs). *)
Definition biL : Z := 32.

(** The limb base [2^32]. *)
Definition wB : Z := 2 ^ 32.

(** Wrap-around of [uint32_t], [mbedtls_mpi_uint] and [size_t]
    (the target is a 32-bit core). *)
Definition u32 (x : Z) : Z := x mod 2 ^ 32.

(** Wrap-around of [uint64_t]. *)
Definition u64 (x : Z) : Z := x mod 2 ^ 64.

Definition UINT32_MAX : Z := 2 ^ 32 - 1.

(** A value that fits a limb. *)
Definition is_word (w : Z) : Prop := 0 <= w < wB.

(** Modelled from the spec: the [MAX] macro of [sys/param.h]. *)
Definition MAX (a b : Z) : Z := if a >? b then a else b.

End Word.
Import Word.

(* ================================================================== *)
(** * The multi-precision integer container *)
(* ================================================================== *)

Module Mpi.

(** Modelled from the spec: the integer container [mbedtls_mpi] of
    [mbedtls/bignum.h], "sign, limb array, allocated length": sign [s]
    (1 or -1) and the limb array [p], least significant limb first.  The
    allocated length [n] is the length of [p]; a [NULL] array is the empty
    list. *)
Record mbedtls_mpi : Type := mk_mpi { s : Z; p : list Z }.

Definition n (X : mbedtls_mpi) : Z := Z.of_nat (length (p X)).

(** Modelled from the spec: the limb ceiling and the error codes of
    [mbedtls/bignum.h], with the values mbedTLS gives them.  The driver
    tests the codes against 0 only. *)
Definition MBEDTLS_MPI_MAX_LIMBS : Z := 10000.

Definition MBEDTLS_ERR_MPI_BAD_INPUT_DATA : Z := -4.     (* -0x0004 *)
Definition MBEDTLS_ERR_MPI_NEGATIVE_VALUE : Z := -10.    (* -0x000A *)
Definition MBEDTLS_ERR_MPI_DIVISION_BY_ZERO : Z := -12.  (* -0x000C *)
Definition MBEDTLS_ERR_MPI_NOT_ACCEPTABLE : Z := -14.    (* -0x000E *)
Definition MBEDTLS_ERR_MPI_ALLOC_FAILED : Z := -16.      (* -0x0010 *)

(** Magnitude of a limb array. *)
Fixpoint limbs_val (l : list Z) : Z :=
  match l with
  | [] => 0
  | w :: t => w + wB * limbs_val t
  end.

(** The [k] low limbs of a non-negative magnitude. *)
Fixpoint to_limbs (k : nat) (v : Z) : list Z :=
  match k with
  | O => []
  | S k' => v mod wB :: to_limbs k' (v / wB)
  end.

(** The magnitude and the signed value an [mbedtls_mpi] denotes. *)
Definition mpi_mag (X : mbedtls_mpi) : Z := limbs_val (p X).
Definition mpi_val (X : mbedtls_mpi) : Z := s X * mpi_mag X.

(** Well-formed containers: a sign of plus or minus one, limbs in range,
    and no more limbs than the container ever allocates. *)
Definition mpi_wf (X : mbedtls_mpi) : Prop :=
  (s X = 1 \/ s X = -1) /\ Forall is_word (p X) /\ n X <= MBEDTLS_MPI_MAX_LIMBS.

(** Modelled from the spec: [mbedtls_mpi_init], a plus sign and no
    limbs. *)
Definition mbedtls_mpi_init : mbedtls_mpi := mk_mpi 1 [].

(** The container that holds the integer [v] in [k] limbs. *)
Definition mpi_of_Z (k : nat) (v : Z) : mbedtls_mpi :=
  mk_mpi (if v <? 0 then -1 else 1) (to_limbs k (Z.abs v)).

(** Bit length of a magnitude: 0 for zero, else the index of the top set
    bit plus one. *)
Definition bitlen_mag (v : Z) : Z := if v =? 0 then 0 else Z.log2 v + 1.

(** Modelled from the spec: [mbedtls_mpi_bitlen] of the external integer
    container, the bit length of the magnitude. *)
Definition mbedtls_mpi_bitlen (X : mbedtls_mpi) : Z := bitlen_mag (mpi_mag X).

(** Modelled from the spec: [mbedtls_mpi_cmp_int] of the external integer
    container, the sign of [X - z] as -1, 0 or 1. *)
Definition mbedtls_mpi_cmp_int (X : mbedtls_mpi) (z : Z) : Z :=
  match mpi_val X ?= z with
  | Lt => -1
  | Eq => 0
  | Gt => 1
  end.

End Mpi.
Import Mpi.

(* ================================================================== *)
(** * The accelerator peripheral and its environment *)
(* ================================================================== *)

Module Hw.

(** The five operand blocks; an address inside a block is the block base
    plus a word offset ([base + i * 4]). *)
Inductive block : Type :=
| RSA_MEM_M_BLOCK | RSA_MEM_X_BLOCK | RSA_MEM_Y_BLOCK
| RSA_MEM_RB_BLOCK | RSA_MEM_Z_BLOCK.

Definition mem_addr : Type := (block * nat)%type.

Definition RSA_MEM_M_BLOCK_BASE : mem_addr := (RSA_MEM_M_BLOCK, O).
Definition RSA_MEM_X_BLOCK_BASE : mem_addr := (RSA_MEM_X_BLOCK, O).
Definition RSA_MEM_Y_BLOCK_BASE : mem_addr := (RSA_MEM_Y_BLOCK, O).
Definition RSA_MEM_RB_BLOCK_BASE : mem_addr := (RSA_MEM_RB_BLOCK, O).
Definition RSA_MEM_Z_BLOCK_BASE : mem_addr := (RSA_MEM_Z_BLOCK, O).

(** [base + words * 4] *)
Definition addr_plus (a : mem_addr) (words : nat) : mem_addr :=
  (fst a, (snd a + words)%nat).

Definition block_eqb (a b : block) : bool :=
  match a, b with
  | RSA_MEM_M_BLOCK, RSA_MEM_M_BLOCK
  | RSA_MEM_X_BLOCK, RSA_MEM_X_BLOCK
  | RSA_MEM_Y_BLOCK, RSA_MEM_Y_BLOCK
  | RSA_MEM_RB_BLOCK, RSA_MEM_RB_BLOCK
  | RSA_MEM_Z_BLOCK, RSA_MEM_Z_BLOCK => true
  | _, _ => false
  end.

(** The writable scalar registers. *)
Inductive reg : Type :=
| RSA_LENGTH_REG | RSA_M_DASH_REG | RSA_CONSTANT_TIME_REG
| RSA_SEARCH_OPEN_REG | RSA_SEARCH_POS_REG
| RSA_CLEAR_INTERRUPT_REG | RSA_INTERRUPT_REG
| RSA_MULT_START_REG | RSA_MOD_MULT_START_REG | RSA_MODEXP_START_REG.

Definition reg_eqb (a b : reg) : bool :=
  match a, b with
  | RSA_LENGTH_REG, RSA_LENGTH_REG
  | RSA_M_DASH_REG, RSA_M_DASH_REG
  | RSA_CONSTANT_TIME_REG, RSA_CONSTANT_TIME_REG
  | RSA_SEARCH_OPEN_REG, RSA_SEARCH_OPEN_REG
  | RSA_SEARCH_POS_REG, RSA_SEARCH_POS_REG
  | RSA_CLEAR_INTERRUPT_REG, RSA_CLEAR_INTERRUPT_REG
  | RSA_INTERRUPT_REG, RSA_INTERRUPT_REG
  | RSA_MULT_START_REG, RSA_MULT_START_REG
  | RSA_MOD_MULT_START_REG, RSA_MOD_MULT_START_REG
  | RSA_MODEXP_START_REG, RSA_MODEXP_START_REG => true
  | _, _ => false
  end.

(** What the peripheral was asked to do, as it saw its operands when the
    start trigger arrived. *)
Inductive op_mode : Type := OpMult | OpModMult | OpModExp.

Record op_record : Type := mk_op {
  op_kind : op_mode;
  op_words : nat;      (* operand width in words *)
  op_M : Z;            (* modulus block *)
  op_Mprime : Z;       (* RSA_M_DASH_REG *)
  op_Rinv : Z;         (* r-bar block *)
  op_X : Z;
  op_Y : Z
}.

Inductive event : Type :=
| EvAcquire
| EvRelease
| EvOp (r : op_record).

(** Peripheral, lock, allocator and the history of peripheral use
    (newest event first). *)
Record world : Type := mk_world {
  rsa_mem : block -> nat -> Z;
  rsa_reg : reg -> Z;
  rsa_irq : bool;        (* RSA_QUERY_INTERRUPT_REG reads 1 *)
  rsa_clean : bool;      (* RSA_QUERY_CLEAN_REG reads 1 *)
  rsa_clk_en : bool;     (* DPORT_CRYPTO_RSA_CLK_EN *)
  rsa_rst : bool;        (* DPORT_CRYPTO_RSA_RST *)
  rsa_pd : bool;         (* DPORT_RSA_PD *)
  mpi_lock : bool;       (* the process-wide lock is held *)
  trace : list event;
  calloc_ok : Z -> bool  (* does an allocation of that many limbs succeed *)
}.

Definition set_mem (f : block -> nat -> Z) (w : world) : world :=
  mk_world f (rsa_reg w) (rsa_irq w) (rsa_clean w) (rsa_clk_en w)
           (rsa_rst w) (rsa_pd w) (mpi_lock w) (trace w) (calloc_ok w).
Definition set_reg (f : reg -> Z) (w : world) : world :=
  mk_world (rsa_mem w) f (rsa_irq w) (rsa_clean w) (rsa_clk_en w)
           (rsa_rst w) (rsa_pd w) (mpi_lock w) (trace w) (calloc_ok w).
Definition set_irq (b : bool) (w : world) : world :=
  mk_world (rsa_mem w) (rsa_reg w) b (rsa_clean w) (rsa_clk_en w)
           (rsa_rst w) (rsa_pd w) (mpi_lock w) (trace w) (calloc_ok w).
Definition set_clean (b : bool) (w : world) : world :=
  mk_world (rsa_mem w) (rsa_reg w) (rsa_irq w) b (rsa_clk_en w)
           (rsa_rst w) (rsa_pd w) (mpi_lock w) (trace w) (calloc_ok w).
Definition set_clk_en (b : bool) (w : world) : world :=
  mk_world (rsa_mem w) (rsa_reg w) (rsa_irq w) (rsa_clean w) b
           (rsa_rst w) (rsa_pd w) (mpi_lock w) (trace w) (calloc_ok w).
Definition set_rst (b : bool) (w : world) : world :=
  mk_world (rsa_mem w) (rsa_reg w) (rsa_irq w) (rsa_clean w) (rsa_clk_en w)
           b (rsa_pd w) (mpi_lock w) (trace w) (calloc_ok w).
Definition set_pd (b : bool) (w : world) : world :=
  mk_world (rsa_mem w) (rsa_reg w) (rsa_irq w) (rsa_clean w) (rsa_clk_en w)
           (rsa_rst w) b (mpi_lock w) (trace w) (calloc_ok w).
Definition set_lock (b : bool) (w : world) : world :=
  mk_world (rsa_mem w) (rsa_reg w) (rsa_irq w) (rsa_clean w) (rsa_clk_en w)
           (rsa_rst w) (rsa_pd w) b (trace w) (calloc_ok w).
Definition log_event (e : event) (w : world) : world :=
  mk_world (rsa_mem w) (rsa_reg w) (rsa_irq w) (rsa_clean w) (rsa_clk_en w)
           (rsa_rst w) (rsa_pd w) (mpi_lock w) (e :: trace w) (calloc_ok w).

(** A powered-down, idle peripheral with a given allocator. *)
Definition idle_world (alloc : Z -> bool) : world :=
  mk_world (fun _ _ => 0) (fun _ => 0) false false false true true false [] alloc.

(** ** Operand blocks as numbers *)

Definition block_words (m : block -> nat -> Z) (b : block) (off k : nat) : list Z :=
  map (fun i => m b (off + i)%nat) (seq 0 k).

Definition block_val (m : block -> nat -> Z) (b : block) (off k : nat) : Z :=
  limbs_val (block_words m b off k).

Definition store_word (m : block -> nat -> Z) (a : mem_addr) (v : Z)
  : block -> nat -> Z :=
  fun b i => if block_eqb (fst a) b && Nat.eqb (snd a) i then v else m b i.

Definition store_block (m : block -> nat -> Z) (b : block) (l : list Z)
  : block -> nat -> Z :=
  fun b' i => if block_eqb b b' && Nat.ltb i (length l) then nth i l 0 else m b' i.

(** ** The arithmetic the peripheral performs *)

(** Modelled from the spec: the Montgomery engine of the accelerator,
    which is hardware and has no source in this repository.  One limb of
    Montgomery reduction with the modulus-prime constant [M']: add the
    multiple of [M] that clears the low limb, then shift a limb out. *)
Definition mont_step (M M' T : Z) : Z :=
  (T + ((T mod wB) * M' mod wB) * M) / wB.

(** Modelled from the spec: Montgomery reduction over [k] limbs,
    "replacing division by the modulus with cheaper shifts". *)
Fixpoint mont_redc (k : nat) (M M' T : Z) : Z :=
  match k with
  | O => T
  | S k' => mont_redc k' M M' (mont_step M M' T)
  end.

(** Modelled from the spec: a Montgomery multiplication, [a * b / R]
    as a residue of [M], where [R = 2^(32 k)]. *)
Definition mont_mul (k : nat) (M M' a b : Z) : Z :=
  mont_redc k M M' (a * b) mod M.

(** Modelled from the spec: the "search" option.  With the option open
    the peripheral looks at the bits of [Y] up to the search position
    only; a position at or past the operand width changes nothing. *)
Definition search_y (open pos : Z) (k : nat) (Y : Z) : Z :=
  if (open =? 1) && (pos + 1 <? 32 * Z.of_nat k)
  then Y mod 2 ^ (pos + 1) else Y.

(** Modelled from the spec: the Montgomery modular multiply mode,
    [Z = X * Y mod M] from [M], [M'], [Rinv = R^2 mod M], [X] and [Y]. *)
Definition hw_mod_mult (k : nat) (M M' Rinv X Y : Z) : Z :=
  mont_mul k M M' (mont_mul k M M' X Y) Rinv.

(** Square and multiply over the bits of the exponent, most significant
    first, on Montgomery residues. *)
Fixpoint mont_pow (k : nat) (M M' Xm : Z) (e : positive) : Z :=
  match e with
  | xH => Xm
  | xO e' => let A := mont_pow k M M' Xm e' in mont_mul k M M' A A
  | xI e' => let A := mont_pow k M M' Xm e' in
             mont_mul k M M' (mont_mul k M M' A A) Xm
  end.

(** Modelled from the spec: the modular exponentiation mode,
    [Z = X ^ Y mod M]: into Montgomery form with [Rinv], exponentiate,
    and back out. *)
Definition hw_mod_exp (k : nat) (M M' Rinv X Y : Z) : Z :=
  match Y with
  | Zpos e => mont_mul k M M' (mont_pow k M M' (mont_mul k M M' X Rinv) e) 1
  | _ => mont_mul k M M' (mont_mul k M M' 1 Rinv) 1
  end.

(** Modelled from the spec: what a start trigger does.  Plain multiply
    takes [X] from the X block and [Y] from the upper half of the Z block
    ("Y stored left-shifted by num_words words into the result block"),
    the length register holding [2 * num_words - 1]; the modular modes
    take [M], [Rinv], [X], [Y] at the width [length register + 1].  The
    result replaces the Z block, the completion flag is raised and the
    operation is recorded. *)
Definition run_op (mode : op_mode) (w : world) : world :=
  let m := rsa_mem w in
  let len := Z.to_nat (rsa_reg w RSA_LENGTH_REG + 1) in
  let M' := rsa_reg w RSA_M_DASH_REG in
  match mode with
  | OpMult =>
      let k := Nat.div len 2 in
      let X := block_val m RSA_MEM_X_BLOCK 0 k in
      let Y := block_val m RSA_MEM_Z_BLOCK k k in
      let r := mk_op OpMult k 0 M' 0 X Y in
      log_event (EvOp r) (set_irq true
        (set_mem (store_block m RSA_MEM_Z_BLOCK (to_limbs (2 * k) (X * Y))) w))
  | OpModMult =>
      let k := len in
      let Mv := block_val m RSA_MEM_M_BLOCK 0 k in
      let Rv := block_val m RSA_MEM_RB_BLOCK 0 k in
      let X := block_val m RSA_MEM_X_BLOCK 0 k in
      let Y := search_y (rsa_reg w RSA_SEARCH_OPEN_REG)
                        (rsa_reg w RSA_SEARCH_POS_REG) k
                        (block_val m RSA_MEM_Y_BLOCK 0 k) in
      let r := mk_op OpModMult k Mv M' Rv X Y in
      log_event (EvOp r) (set_irq true
        (set_mem (store_block m RSA_MEM_Z_BLOCK
                    (to_limbs k (hw_mod_mult k Mv M' Rv X Y))) w))
  | OpModExp =>
      let k := len in
      let Mv := block_val m RSA_MEM_M_BLOCK 0 k in
      let Rv := block_val m RSA_MEM_RB_BLOCK 0 k in
      let X := block_val m RSA_MEM_X_BLOCK 0 k in
      let Y := search_y (rsa_reg w RSA_SEARCH_OPEN_REG)
                        (rsa_reg w RSA_SEARCH_POS_REG) k
                        (block_val m RSA_MEM_Y_BLOCK 0 k) in
      let r := mk_op OpModExp k Mv M' Rv X Y in
      log_event (EvOp r) (set_irq true
        (set_mem (store_block m RSA_MEM_Z_BLOCK
                    (to_limbs k (hw_mod_exp k Mv M' Rv X Y))) w))
  end.

(** ** The computation monad

    State passing over [world]; [None] is a caller that never returns
    (a busy-wait that sees no completion, or a lock that is never
    released). *)
Definition io (A : Type) : Type := world -> option (A * world).

Definition mret {A : Type} (a : A) : io A := fun w => Some (a, w).

Definition mbind {A B : Type} (c : io A) (k : A -> io B) : io B :=
  fun w => match c w with
           | Some (a, w') => k a w'
           | None => None
           end.

Definition hang {A : Type} : io A := fun _ => None.

Definition modify (f : world -> world) : io unit := fun w => Some (tt, f w).

Definition gets {A : Type} (f : world -> A) : io A := fun w => Some (f w, w).

(** A bounded counting loop, [for (i = lo; count-- > 0; i++) body(i)]. *)
Fixpoint for_loop (count : nat) (i : nat) (body : nat -> io unit) : io unit :=
  match count with
  | O => mret tt
  | S c => mbind (body i) (fun _ => for_loop c (S i) body)
  end.

(** ** Bus accesses *)

(** A word store into an operand block ([pbase[i] = v]). *)
Definition mem_write (a : mem_addr) (v : Z) : io unit :=
  modify (fun w => set_mem (store_word (rsa_mem w) a (u32 v)) w).

(** Modelled from the spec: the peripheral's reaction to a register
    write: the clear register drops the completion flag, a start
    register runs its operation. *)
Definition reg_write (r : reg) (v : Z) (w : world) : world :=
  let w1 := set_reg (fun r' => if reg_eqb r r' then u32 v else rsa_reg w r') w in
  match r with
  | RSA_CLEAR_INTERRUPT_REG => set_irq false w1
  | RSA_MULT_START_REG => run_op OpMult w1
  | RSA_MOD_MULT_START_REG => run_op OpModMult w1
  | RSA_MODEXP_START_REG => run_op OpModExp w1
  | _ => w1
  end.

(** Modelled from the spec: [DPORT_REG_WRITE] of [soc/dport_reg.h], a
    store to a scalar register of the peripheral. *)
Definition DPORT_REG_WRITE (r : reg) (v : Z) : io unit := modify (reg_write r v).

(** Modelled from the spec: [esp_dport_access_read_buffer], which reads
    [num_words] words of a block. *)
Definition esp_dport_access_read_buffer (a : mem_addr) (num_words : nat)
  : io (list Z) :=
  gets (fun w => block_words (rsa_mem w) (fst a) (snd a) num_words).

(** Modelled from the spec: [_lock_acquire] and [_lock_release] of the C
    library, "a blocking mutual-exclusion lock"; a single caller blocks
    for ever on a held lock. *)
Definition _lock_acquire : io unit :=
  fun w => if mpi_lock w then None else Some (tt, set_lock true w).

Definition _lock_release : io unit := modify (set_lock false).

(** Modelled from the spec: the clock, reset and power bits of the
    peripheral.  Leaving reset puts the scalar registers at their reset
    value; powering the memory up leaves the blocks zeroed and the
    peripheral reporting "clean". *)
Definition clk_enable : io unit := modify (set_clk_en true).
Definition clk_disable : io unit := modify (set_clk_en false).
Definition rst_clear : io unit :=
  modify (fun w => set_rst false (set_irq false (set_reg (fun _ => 0) w))).
Definition rst_set : io unit := modify (set_rst true).
Definition mem_power_up : io unit :=
  modify (fun w => set_pd false (set_clean true (set_mem (fun _ _ => 0) w))).
Definition mem_power_down : io unit :=
  modify (fun w => set_pd true (set_clean false w)).

End Hw.
Import Hw.

Declare Scope hw_scope.
Delimit Scope hw_scope with hw.
Notation "x <- c ;; k" := (mbind c (fun x => k))
(at level 61, c at next level, right associativity) : hw_scope.
Notation "' pat <- c ;; k" := (mbind c (fun x => match x with pat => k end))
(at level 61, pat pattern, c at next level, right associativity) : hw_scope.
Notation "c ;; k" := (mbind c (fun _ => k))
(at level 61, right associativity) : hw_scope.
Local Open Scope hw_scope.

(* ================================================================== *)
(** * Operations of the integer container used by the driver *)
(* ================================================================== *)

Module MpiLib.

(** Limbs a magnitude needs. *)
Definition limbs_needed (v : Z) : Z := (bitlen_mag v + 31) / 32.

(** Modelled from the spec: [mbedtls_mpi_grow] of the external integer
    container, "grow-to-capacity".  It fails past the limb ceiling or
    when the allocator refuses, and then leaves the integer as it was. *)
Definition mbedtls_mpi_grow (X : mbedtls_mpi) (nblimbs : Z)
  : io (Z * mbedtls_mpi) :=
  if nblimbs >? MBEDTLS_MPI_MAX_LIMBS
  then mret (MBEDTLS_ERR_MPI_ALLOC_FAILED, X)
  else if n X <? nblimbs
  then ok <- gets (fun w => calloc_ok w nblimbs) ;;
       if (ok : bool)
       then mret (0, mk_mpi (s X)
                       (p X ++ repeat 0 (Z.to_nat nblimbs - length (p X))))
       else mret (MBEDTLS_ERR_MPI_ALLOC_FAILED, X)
  else mret (0, X).

(** Store a sign and a magnitude, growing the storage when it is short. *)
Definition mpi_assign (X : mbedtls_mpi) (sg mag : Z) : io (Z * mbedtls_mpi) :=
  ' (ret, X1) <- mbedtls_mpi_grow X (limbs_needed mag) ;;
  if ret =? 0
  then mret (0, mk_mpi sg (to_limbs (length (p X1)) mag))
  else mret (ret, X1).

(** Modelled from the spec: [mbedtls_mpi_free]. *)
Definition mbedtls_mpi_free (X : mbedtls_mpi) : mbedtls_mpi := mbedtls_mpi_init.

(** Modelled from the spec: [mbedtls_mpi_lset], set from a machine
    integer; one limb is needed. *)
Definition mbedtls_mpi_lset (X : mbedtls_mpi) (z : Z) : io (Z * mbedtls_mpi) :=
  ' (ret, X1) <- mbedtls_mpi_grow X 1 ;;
  if ret =? 0
  then mret (0, mk_mpi (if z <? 0 then -1 else 1)
                  (to_limbs (length (p X1)) (Z.abs z)))
  else mret (ret, X1).

(** Modelled from the spec: [mbedtls_mpi_copy]; copying an integer
    without storage frees the destination. *)
Definition mbedtls_mpi_copy (X Y : mbedtls_mpi) : io (Z * mbedtls_mpi) :=
  match p Y with
  | [] => mret (0, mbedtls_mpi_free X)
  | _ => mpi_assign (mk_mpi (s Y) (p X)) (s Y) (mpi_mag Y)
  end.

(** Modelled from the spec: [mbedtls_mpi_add_mpi], signed addition on
    sign and magnitude: [X = A + B]. *)
Definition mbedtls_mpi_add_mpi (X A B : mbedtls_mpi) : io (Z * mbedtls_mpi) :=
  if s A * s B <? 0
  then if mpi_mag A >=? mpi_mag B
       then mpi_assign X (s A) (mpi_mag A - mpi_mag B)
       else mpi_assign X (- s A) (mpi_mag B - mpi_mag A)
  else mpi_assign X (s A) (mpi_mag A + mpi_mag B).

(** Modelled from the spec: [mbedtls_mpi_shift_l], [X <<= count]. *)
Definition mbedtls_mpi_shift_l (X : mbedtls_mpi) (count : Z)
  : io (Z * mbedtls_mpi) :=
  mpi_assign X (s X) (Z.shiftl (mpi_mag X) count).

(** Modelled from the spec: [mbedtls_mpi_set_bit]. *)
Definition mbedtls_mpi_set_bit (X : mbedtls_mpi) (pos val : Z)
  : io (Z * mbedtls_mpi) :=
  if val =? 1 then mpi_assign X (s X) (Z.setbit (mpi_mag X) pos)
  else if val =? 0 then mpi_assign X (s X) (Z.clearbit (mpi_mag X) pos)
  else mret (MBEDTLS_ERR_MPI_BAD_INPUT_DATA, X).

(** Modelled from the spec: [mbedtls_mpi_mod_mpi], "general modular
    reduction": [R = A mod B] in [[0, B)], refused for [B <= 0]. *)
Definition mbedtls_mpi_mod_mpi (R A B : mbedtls_mpi) : io (Z * mbedtls_mpi) :=
  if mbedtls_mpi_cmp_int B 0 <? 0
  then mret (MBEDTLS_ERR_MPI_NEGATIVE_VALUE, R)
  else if mbedtls_mpi_cmp_int B 0 =? 0
  then mret (MBEDTLS_ERR_MPI_DIVISION_BY_ZERO, R)
  else mpi_assign R 1 (mpi_val A mod mpi_val B).

End MpiLib.
Import MpiLib.

(* ================================================================== *)
(** * The driver *)
(* ================================================================== *)

Module Bignum.

(** ** Peripheral access guard *)

Definition esp_mpi_acquire_hardware : io unit :=
  _lock_acquire ;;
  clk_enable ;;
  rst_clear ;;
  mem_power_up ;;
  (* while (DPORT_REG_READ(RSA_QUERY_CLEAN_REG) != 1) { } *)
  clean <- gets rsa_clean ;;
  if (clean : bool) then modify (log_event EvAcquire) else hang.

Definition esp_mpi_release_hardware : io unit :=
  mem_power_down ;;
  rst_set ;;
  clk_disable ;;
  modify (log_event EvRelease) ;;
  _lock_release.

(** ** Word marshaller *)

Definition bits_to_words (bits : Z) : Z := u32 (bits + 31) / 32.

(** The downward scan of [mpi_words]: [i] counts down from [n]. *)
Fixpoint mpi_words_from (l : list Z) (i : nat) : nat :=
  match i with
  | O => O
  | S j => if negb (nth j l 0 =? 0) then i else mpi_words_from l j
  end.

Definition mpi_words (mpi : mbedtls_mpi) : Z :=
  Z.of_nat (mpi_words_from (p mpi) (length (p mpi))).

Definition mpi_to_mem_block (mem_base : mem_addr) (mpi : mbedtls_mpi)
           (num_words : Z) : io unit :=
  let copy_words := if num_words <? n mpi then u32 num_words else u32 (n mpi) in
  (* Copy MPI data to memory block registers *)
  for_loop (Z.to_nat copy_words) 0
    (fun i => mem_write (addr_plus mem_base i) (nth i (p mpi) 0)) ;;
  (* Zero any remaining memory block data *)
  for_loop (Z.to_nat num_words - Z.to_nat copy_words) (Z.to_nat copy_words)
    (fun i => mem_write (addr_plus mem_base i) 0).

(** [x->p[i] = 0] for [i] from [from] up to the allocated length. *)
Definition zero_limbs_from (l : list Z) (from : nat) : list Z :=
  firstn from l ++ repeat 0 (length l - from).

Definition mem_block_to_mpi (x : mbedtls_mpi) (mem_base : mem_addr)
           (num_words : Z) : io (Z * mbedtls_mpi) :=
  ' (ret, x) <- mbedtls_mpi_grow x num_words ;;
  if negb (ret =? 0) then mret (ret, x)
  else
    (* Copy data from memory block registers *)
    ws <- esp_dport_access_read_buffer mem_base (Z.to_nat num_words) ;;
    let x := mk_mpi (s x) (ws ++ skipn (length ws) (p x)) in
    (* Zero any remaining limbs in the bignum *)
    let x := mk_mpi (s x) (zero_limbs_from (p x) (Z.to_nat num_words)) in
    mret (ret, x).

(** ** Montgomery parameter derivation *)

(** The body of the loop of [modular_inverse], [iters] iterations left. *)
Fixpoint modular_inverse_loop (iters : nat) (N t two_2_i_minus_1 two_2_i : Z)
  : Z :=
  match iters with
  | O => t
  | S k =>
      let t := if u64 (u32 N * t) mod two_2_i >=? two_2_i_minus_1
               then u64 (t + two_2_i_minus_1) else t in
      modular_inverse_loop k N t (u64 (Z.shiftl two_2_i_minus_1 1))
                           (u64 (Z.shiftl two_2_i 1))
  end.

Definition modular_inverse (M : mbedtls_mpi) : Z :=
  let N := nth 0 (p M) 0 in
  (* for (i = 2; i <= 32; i++) *)
  let t := modular_inverse_loop 31 N 1 2 4 in
  u32 (u64 (u64 (UINT32_MAX - t) + 1)).

Definition calculate_rinv (Rinv M : mbedtls_mpi) (num_words : Z)
  : io (Z * mbedtls_mpi) :=
  let num_bits := u32 (num_words * 32) in
  let RR := mbedtls_mpi_init in
  ' (ret, RR) <- mbedtls_mpi_set_bit RR (u32 (num_bits * 2)) 1 ;;
  if negb (ret =? 0) then mret (ret, Rinv)
  else
    ' (ret, Rinv) <- mbedtls_mpi_mod_mpi Rinv RR M ;;
    mret (ret, Rinv).

(** ** Operation sequencer *)

Definition start_op (op_reg : reg) : io unit :=
  (* Clear interrupt status *)
  DPORT_REG_WRITE RSA_CLEAR_INTERRUPT_REG 1 ;;
  DPORT_REG_WRITE RSA_INTERRUPT_REG 1 ;;
  DPORT_REG_WRITE op_reg 1.

Definition wait_op_complete (op_reg : reg) : io unit :=
  (* while (DPORT_REG_READ(RSA_QUERY_INTERRUPT_REG) != 1) { } *)
  irq <- gets rsa_irq ;;
  if (irq : bool)
  then DPORT_REG_WRITE RSA_CLEAR_INTERRUPT_REG 1   (* clear the interrupt *)
  else hang.

(** ** Z = (X * Y) mod M *)

Definition esp_mpi_mul_mpi_mod (Zr X Y M : mbedtls_mpi) : io (Z * mbedtls_mpi) :=
  let y_bits := mbedtls_mpi_bitlen Y in
  let x_words := mpi_words X in
  let y_words := mpi_words Y in
  let m_words := mpi_words M in
  let num_words := MAX (MAX m_words x_words) y_words in
  if u32 (num_words * 32) >? 4096
  then mret (MBEDTLS_ERR_MPI_NOT_ACCEPTABLE, Zr)
  else
    (* Calculate and load the first stage montgomery multiplication *)
    let Rinv := mbedtls_mpi_init in
    ' (ret, Rinv) <- calculate_rinv Rinv M num_words ;;
    if negb (ret =? 0) then mret (ret, Zr)
    else
      let Mprime := modular_inverse M in
      esp_mpi_acquire_hardware ;;
      DPORT_REG_WRITE RSA_LENGTH_REG (num_words - 1) ;;
      DPORT_REG_WRITE RSA_M_DASH_REG Mprime ;;
      (* Load M, X, Rinv, Mprime (Mprime is mod 2^32) *)
      mpi_to_mem_block RSA_MEM_M_BLOCK_BASE M num_words ;;
      mpi_to_mem_block RSA_MEM_RB_BLOCK_BASE Rinv num_words ;;
      mpi_to_mem_block RSA_MEM_X_BLOCK_BASE X num_words ;;
      mpi_to_mem_block RSA_MEM_Y_BLOCK_BASE Y num_words ;;
      (* Enable acceleration options *)
      DPORT_REG_WRITE RSA_CONSTANT_TIME_REG 0 ;;
      DPORT_REG_WRITE RSA_SEARCH_OPEN_REG 1 ;;
      DPORT_REG_WRITE RSA_SEARCH_POS_REG (y_bits - 1) ;;
      (* Execute first stage montgomery multiplication *)
      start_op RSA_MOD_MULT_START_REG ;;
      wait_op_complete RSA_MOD_MULT_START_REG ;;
      DPORT_REG_WRITE RSA_SEARCH_OPEN_REG 1 ;;
      (* the result of mem_block_to_mpi is not kept *)
      ' (_, Zr) <- mem_block_to_mpi Zr RSA_MEM_Z_BLOCK_BASE m_words ;;
      esp_mpi_release_hardware ;;
      mret (ret, Zr).

(** ** Z = X ^ Y mod M

    [_Rinv] is the caller's optional cache ([None] for a [NULL] pointer);
    it is handed back as the call leaves it. *)
Definition mbedtls_mpi_exp_mod (Zr X Y M : mbedtls_mpi)
           (_Rinv : option mbedtls_mpi)
  : io (Z * mbedtls_mpi * option mbedtls_mpi) :=
  let ret := 0 in
  let y_bits := mbedtls_mpi_bitlen Y in
  let x_words := mpi_words X in
  let y_words := mpi_words Y in
  let m_words := mpi_words M in
  let num_words := MAX m_words (MAX x_words y_words) in
  if (mbedtls_mpi_cmp_int M 0 <=? 0) || (Z.land (nth 0 (p M) 0) 1 =? 0)
  then mret (MBEDTLS_ERR_MPI_BAD_INPUT_DATA, Zr, _Rinv)
  else if mbedtls_mpi_cmp_int Y 0 <? 0
  then mret (MBEDTLS_ERR_MPI_BAD_INPUT_DATA, Zr, _Rinv)
  else if mbedtls_mpi_cmp_int Y 0 =? 0
  then ' (ret, Zr) <- mbedtls_mpi_lset Zr 1 ;; mret (ret, Zr, _Rinv)
  else if u32 (num_words * 32) >? 4096
  then mret (MBEDTLS_ERR_MPI_NOT_ACCEPTABLE, Zr, _Rinv)
  else
    (* Determine RR pointer, either _RR for cached value or local RR_new *)
    let Rinv := match _Rinv with
                | None => mbedtls_mpi_init
                | Some r => r
                end in
    let cache (r : mbedtls_mpi) := match _Rinv with
                                   | None => None
                                   | Some _ => Some r
                                   end in
    ' (ret, Rinv) <- (match p Rinv with
                      | [] => calculate_rinv Rinv M num_words
                      | _ => mret (ret, Rinv)
                      end) ;;
    if negb (ret =? 0) then mret (ret, Zr, cache Rinv)
    else
      let Mprime := modular_inverse M in
      esp_mpi_acquire_hardware ;;
      DPORT_REG_WRITE RSA_LENGTH_REG (num_words - 1) ;;
      (* Load M, X, Rinv, M-prime (M-prime is mod 2^32) *)
      mpi_to_mem_block RSA_MEM_X_BLOCK_BASE X num_words ;;
      mpi_to_mem_block RSA_MEM_Y_BLOCK_BASE Y num_words ;;
      mpi_to_mem_block RSA_MEM_M_BLOCK_BASE M num_words ;;
      mpi_to_mem_block RSA_MEM_RB_BLOCK_BASE Rinv num_words ;;
      DPORT_REG_WRITE RSA_M_DASH_REG Mprime ;;
      (* Enable acceleration options *)
      DPORT_REG_WRITE RSA_CONSTANT_TIME_REG 0 ;;
      DPORT_REG_WRITE RSA_SEARCH_OPEN_REG 1 ;;
      DPORT_REG_WRITE RSA_SEARCH_POS_REG (y_bits - 1) ;;
      start_op RSA_MODEXP_START_REG ;;
      wait_op_complete RSA_MODEXP_START_REG ;;
      DPORT_REG_WRITE RSA_SEARCH_OPEN_REG 0 ;;
      ' (ret, Zr) <- mem_block_to_mpi Zr RSA_MEM_Z_BLOCK_BASE m_words ;;
      esp_mpi_release_hardware ;;
      (* Compensate for negative X *)
      if (s X =? -1) && negb (Z.land (nth 0 (p Y) 0) 1 =? 0)
      then
        let Zr := mk_mpi (-1) (p Zr) in
        ' (ret, Zr) <- mbedtls_mpi_add_mpi Zr M Zr ;;
        mret (ret, Zr, cache Rinv)
      else
        let Zr := mk_mpi 1 (p Zr) in
        mret (ret, Zr, cache Rinv).

(** ** Z = X * Y *)

Definition mpi_mult_mpi_failover_mod_mult (Zr X Y : mbedtls_mpi) (num_words : Z)
  : io (Z * mbedtls_mpi) :=
  let ret := 0 in
  (* Load coefficients to hardware *)
  esp_mpi_acquire_hardware ;;
  (* M = 2^num_words - 1, so block is entirely FF *)
  for_loop (Z.to_nat num_words) 0
    (fun i => mem_write (addr_plus RSA_MEM_M_BLOCK_BASE i) UINT32_MAX) ;;
  (* Mprime = 1 *)
  DPORT_REG_WRITE RSA_M_DASH_REG 1 ;;
  DPORT_REG_WRITE RSA_LENGTH_REG (num_words - 1) ;;
  (* Load X & Y *)
  mpi_to_mem_block RSA_MEM_X_BLOCK_BASE X num_words ;;
  mpi_to_mem_block RSA_MEM_Y_BLOCK_BASE Y num_words ;;
  (* Rinv = 1 *)
  mem_write RSA_MEM_RB_BLOCK_BASE 1 ;;
  for_loop (Z.to_nat num_words - 1) 1
    (fun i => mem_write (addr_plus RSA_MEM_RB_BLOCK_BASE i) 0) ;;
  start_op RSA_MOD_MULT_START_REG ;;
  wait_op_complete RSA_MOD_MULT_START_REG ;;
  (* the result of mem_block_to_mpi is not kept *)
  ' (_, Zr) <- mem_block_to_mpi Zr RSA_MEM_Z_BLOCK_BASE num_words ;;
  esp_mpi_release_hardware ;;
  mret (ret, Zr).

(** The two views into the limbs of [Y] that [mpi_mult_mpi_overlong]
    declares: [Yp] is [{ .p = Y->p, .n = words_slice, .s = Y->s }] and
    [Ypp] is [{ .p = Y->p + words_slice, .n = y_words - words_slice,
    .s = Y->s }]. *)
Definition Yp_view (Y : mbedtls_mpi) (words_slice : Z) : mbedtls_mpi :=
  mk_mpi (s Y) (firstn (Z.to_nat words_slice) (p Y)).

Definition Ypp_view (Y : mbedtls_mpi) (words_slice y_words : Z) : mbedtls_mpi :=
  mk_mpi (s Y) (firstn (Z.to_nat (u32 (y_words - words_slice)))
                       (skipn (Z.to_nat words_slice) (p Y))).

(** [mpi_mult_mpi_overlong], over the multiplication it calls back into
    ([mul]). *)
Definition mpi_mult_mpi_overlong
           (mul : mbedtls_mpi -> mbedtls_mpi -> mbedtls_mpi -> io (Z * mbedtls_mpi))
           (Zr X Y : mbedtls_mpi) (y_words z_words : Z)
  : io (Z * mbedtls_mpi) :=
  (* Rather than slicing in two on bits we slice on limbs (32 bit words) *)
  let words_slice := y_words / 2 in
  (* Yp holds lower bits of Y *)
  let Yp := Yp_view Y words_slice in
  (* Ypp holds upper bits of Y, right shifted *)
  let Ypp := Ypp_view Y words_slice y_words in
  let Ztemp := mbedtls_mpi_init in
  (* Get result Ztemp = Yp * X (need temporary variable Ztemp) *)
  ' (ret, Ztemp) <- mul Ztemp X Yp ;;
  if negb (ret =? 0) then mret (ret, Zr)
  else
    (* Z = Ypp * Y *)
    ' (ret, Zr) <- mul Zr X Ypp ;;
    if negb (ret =? 0) then mret (ret, Zr)
    else
      (* Z = Z << b *)
      ' (ret, Zr) <- mbedtls_mpi_shift_l Zr (u32 (words_slice * 32)) ;;
      if negb (ret =? 0) then mret (ret, Zr)
      else
        (* Z += Ztemp *)
        ' (ret, Zr) <- mbedtls_mpi_add_mpi Zr Zr Ztemp ;;
        mret (ret, Zr).

(** [mbedtls_mpi_mul_mpi] with a bound on the depth of its recursion
    through [mpi_mult_mpi_overlong]; out of depth there is no result. *)
Fixpoint mbedtls_mpi_mul_mpi_depth (depth : nat) (Zr X Y : mbedtls_mpi)
  : io (Z * mbedtls_mpi) :=
  match depth with
  | O => hang
  | S depth' =>
      let ret := 0 in
      let x_bits := mbedtls_mpi_bitlen X in
      let y_bits := mbedtls_mpi_bitlen Y in
      let x_words := bits_to_words x_bits in
      let y_words := bits_to_words y_bits in
      let num_words := MAX x_words y_words in
      let z_words := u32 (x_words + y_words) in
      (* Short-circuit eval if either argument is 0 or 1. *)
      if (x_bits =? 0) || (y_bits =? 0)
      then ' (_, Zr) <- mbedtls_mpi_lset Zr 0 ;; mret (0, Zr)
      else if x_bits =? 1
      then ' (ret, Zr) <- mbedtls_mpi_copy Zr Y ;;
           mret (ret, mk_mpi (s Zr * s X) (p Zr))
      else if y_bits =? 1
      then ' (ret, Zr) <- mbedtls_mpi_copy Zr X ;;
           mret (ret, mk_mpi (s Zr * s Y) (p Zr))
      else if u32 (num_words * 32) >? 2048
      then
        if u32 (z_words * 32) <=? 4096
        then mpi_mult_mpi_failover_mod_mult Zr X Y z_words
        else
          (* Still too long for the hardware unit... *)
          ' (_, Zr) <- mbedtls_mpi_grow Zr z_words ;;
          if y_words >? x_words
          then mpi_mult_mpi_overlong (mbedtls_mpi_mul_mpi_depth depth')
                                     Zr X Y y_words z_words
          else mpi_mult_mpi_overlong (mbedtls_mpi_mul_mpi_depth depth')
                                     Zr Y X x_words z_words
      else
        (* Otherwise, we can use the (faster) multiply hardware unit *)
        esp_mpi_acquire_hardware ;;
        (* Copy X (right-extended) & Y (left-extended) to memory block *)
        mpi_to_mem_block RSA_MEM_X_BLOCK_BASE X num_words ;;
        mpi_to_mem_block (addr_plus RSA_MEM_Z_BLOCK_BASE (Z.to_nat num_words))
                         Y num_words ;;
        DPORT_REG_WRITE RSA_M_DASH_REG 0 ;;
        DPORT_REG_WRITE RSA_LENGTH_REG (num_words * 2 - 1) ;;
        start_op RSA_MULT_START_REG ;;
        wait_op_complete RSA_MULT_START_REG ;;
        (* Read back the result *)
        ' (ret, Zr) <- mem_block_to_mpi Zr RSA_MEM_Z_BLOCK_BASE z_words ;;
        let Zr := mk_mpi (s X * s Y) (p Zr) in
        esp_mpi_release_hardware ;;
        mret (ret, Zr)
  end.

(** [mbedtls_mpi_mul_mpi]: the depth handed to the recursion is one more
    than the total number of limbs of the operands, which it never
    reaches. *)
Definition mul_depth (X Y : mbedtls_mpi) : nat :=
  S (length (p X) + length (p Y)).

Definition mbedtls_mpi_mul_mpi (Zr X Y : mbedtls_mpi) : io (Z * mbedtls_mpi) :=
  mbedtls_mpi_mul_mpi_depth (mul_depth X Y) Zr X Y.

End Bignum.
Import Bignum.

(* ================================================================== *)
(** * Vocabulary of the proofs *)
(* ================================================================== *)

(** The words a block receives from a limb array: limb [i] for [i] below
    the width, zero past the end. *)
Definition take_words (l : list Z) (k : nat) : list Z :=
  map (fun i => nth i l 0) (seq 0 k).

(** The significant word count of a limb array, as a [nat]. *)
Definition sig_words (l : list Z) : nat := mpi_words_from l (length l).

(** Congruence modulo [m], as equality of remainders. *)
Definition cong (m a b : Z) : Prop := a mod m = b mod m.

(** A change of the operand memory alone. *)
Definition upd_mem (g : (block -> nat -> Z) -> block -> nat -> Z) (w : world) : world :=
  set_mem (g (rsa_mem w)) w.

(** The memory after the words [f i], [i] from [i0] for [count] steps, went
    to the block at [a]. *)
Fixpoint write_seq (m : block -> nat -> Z) (a : mem_addr) (i0 count : nat)
         (f : nat -> Z) : block -> nat -> Z :=
  match count with
  | O => m
  | S c => write_seq (store_word m (addr_plus a i0) (u32 (f i0))) a (S i0) c f
  end.

(** The memory after [mpi_to_mem_block]. *)
Definition marshal (m : block -> nat -> Z) (a : mem_addr) (mpi : mbedtls_mpi)
           (num_words : Z) : block -> nat -> Z :=
  let copy_words := if num_words <? n mpi then u32 num_words else u32 (n mpi) in
  write_seq
    (write_seq m a 0 (Z.to_nat copy_words) (fun i => nth i (p mpi) 0))
    a (Z.to_nat copy_words) (Z.to_nat num_words - Z.to_nat copy_words) (fun _ => 0).

(** The world [esp_mpi_acquire_hardware] leaves when the lock was free. *)
Definition acquired (w : world) : world :=
  log_event EvAcquire
    (set_pd false (set_clean true (set_mem (fun _ _ => 0)
       (set_rst false (set_irq false (set_reg (fun _ => 0)
          (set_clk_en true (set_lock true w)))))))).

(** The world [esp_mpi_release_hardware] leaves. *)
Definition released (w : world) : world :=
  set_lock false (log_event EvRelease
    (set_clk_en false (set_rst true (set_pd true (set_clean false w))))).

(** The world [start_op] leaves. *)
Definition started (op_reg : reg) (w : world) : world :=
  reg_write op_reg 1 (reg_write RSA_INTERRUPT_REG 1 (reg_write RSA_CLEAR_INTERRUPT_REG 1 w)).

(** The integer [mbedtls_mpi_grow] leaves when it succeeds. *)
Definition grown (X : mbedtls_mpi) (nblimbs : Z) : mbedtls_mpi :=
  if n X <? nblimbs
  then mk_mpi (s X) (p X ++ repeat 0 (Z.to_nat nblimbs - length (p X)))
  else X.

(** Every allocation the call needs for [nblimbs] limbs succeeds. *)
Definition can_grow (w : world) (X : mbedtls_mpi) (nblimbs : Z) : Prop :=
  nblimbs <= MBEDTLS_MPI_MAX_LIMBS /\ (n X < nblimbs -> calloc_ok w nblimbs = true).

(** The integer [mem_block_to_mpi] leaves when it could grow. *)
Definition read_back (x : mbedtls_mpi) (ws : list Z) : mbedtls_mpi :=
  mk_mpi (s x) (ws ++ repeat 0 (length (p x) - length ws)).

(** The registers whose write starts an operation. *)
Definition is_start (r : reg) : bool :=
  match r with
  | RSA_MULT_START_REG | RSA_MOD_MULT_START_REG | RSA_MODEXP_START_REG => true
  | _ => false
  end.

(** The operands the modular modes see. *)
Definition mod_operands (w : world) : op_mode -> op_record :=
  let k := Z.to_nat (rsa_reg w RSA_LENGTH_REG + 1) in
  let m := rsa_mem w in
  fun mode =>
    mk_op mode k (block_val m RSA_MEM_M_BLOCK 0 k) (rsa_reg w RSA_M_DASH_REG)
          (block_val m RSA_MEM_RB_BLOCK 0 k) (block_val m RSA_MEM_X_BLOCK 0 k)
          (search_y (rsa_reg w RSA_SEARCH_OPEN_REG) (rsa_reg w RSA_SEARCH_POS_REG) k
                    (block_val m RSA_MEM_Y_BLOCK 0 k)).

(** The operands the plain multiply mode sees. *)
Definition mult_operands (w : world) : op_record :=
  let h := Nat.div (Z.to_nat (rsa_reg w RSA_LENGTH_REG + 1)) 2 in
  let m := rsa_mem w in
  mk_op OpMult h 0 (rsa_reg w RSA_M_DASH_REG) 0
        (block_val m RSA_MEM_X_BLOCK 0 h) (block_val m RSA_MEM_Z_BLOCK h h).

(** An allocator that never refuses. *)
Definition alloc_ok (w : world) : Prop := forall k, calloc_ok w k = true.

(** The common width of a modular operation and what it covers. *)
Definition mod_width (X Y M : mbedtls_mpi) : Z :=
  MAX (MAX (mpi_words M) (mpi_words X)) (mpi_words Y).

(** A cache the caller may hand to [mbedtls_mpi_exp_mod]: none, an empty
    one, or the residue constant of this modulus at this width. *)
Definition rinv_cache_ok (M : mbedtls_mpi) (nw : Z) (c : option mbedtls_mpi) : Prop :=
  match c with
  | None => True
  | Some r => p r = []
              \/ (Forall is_word (p r) /\ n r < 2 ^ 32
                  /\ mpi_mag r = (wB ^ nw * wB ^ nw) mod mpi_val M)
  end.

(** What the hardware answers and what the sign rule makes of it. *)
Definition exp_mod_raw (X Y M : mbedtls_mpi) : Z := (mpi_mag X ^ mpi_mag Y) mod mpi_mag M.

(** The value [mbedtls_mpi_exp_mod] leaves in the result. *)
Definition exp_mod_result (X Y M : mbedtls_mpi) : Z :=
  if (s X =? -1) && Z.odd (mpi_mag Y)
  then mpi_mag M - exp_mod_raw X Y M
  else exp_mod_raw X Y M.

(** The tail of [mbedtls_mpi_mul_mpi] that drives the plain multiply mode. *)
Definition mul_hw_direct (Zr X Y : mbedtls_mpi) (num_words z_words : Z)
  : io (Z * mbedtls_mpi) :=
  esp_mpi_acquire_hardware ;;
  mpi_to_mem_block RSA_MEM_X_BLOCK_BASE X num_words ;;
  mpi_to_mem_block (addr_plus RSA_MEM_Z_BLOCK_BASE (Z.to_nat num_words)) Y num_words ;;
  DPORT_REG_WRITE RSA_M_DASH_REG 0 ;;
  DPORT_REG_WRITE RSA_LENGTH_REG (num_words * 2 - 1) ;;
  start_op RSA_MULT_START_REG ;;
  wait_op_complete RSA_MULT_START_REG ;;
  ' (ret, Zr) <- mem_block_to_mpi Zr RSA_MEM_Z_BLOCK_BASE z_words ;;
  let Zr := mk_mpi (s X * s Y) (p Zr) in
  esp_mpi_release_hardware ;;
  mret (ret, Zr).

(** Operand widths of a call that reaches the hardware. *)
Record mul_widths (X Y : mbedtls_mpi) : Prop := {
  mw_x : bits_to_words (mbedtls_mpi_bitlen X) = mpi_words X;
  mw_y : bits_to_words (mbedtls_mpi_bitlen Y) = mpi_words Y;
  mw_xr : 0 <= mpi_words X <= MBEDTLS_MPI_MAX_LIMBS;
  mw_yr : 0 <= mpi_words Y <= MBEDTLS_MPI_MAX_LIMBS
}.

(** The call returns, with the lock free and the allocator as it was. *)
Definition mul_returns (w : world) (res : option ((Z * mbedtls_mpi) * world)) : Prop :=
  exists r Z' w',
    res = Some ((r, Z'), w') /\ mpi_lock w' = false /\ calloc_ok w' = calloc_ok w.

(** With an allocator that never refuses, operands of one sign, a result
    that comes in with a plus sign and a product that fits the container,
    the call returns 0 and the product. *)
Definition mul_product (Zr X Y : mbedtls_mpi) (w : world)
           (res : option ((Z * mbedtls_mpi) * world)) : Prop :=
  alloc_ok w -> s X * s Y = 1 -> s Zr = 1 ->
  mpi_words X + mpi_words Y <= MBEDTLS_MPI_MAX_LIMBS ->
  exists Z' w',
    res = Some ((0, Z'), w')
    /\ s Z' = 1 /\ mpi_mag Z' = mpi_mag X * mpi_mag Y
    /\ mpi_lock w' = false /\ calloc_ok w' = calloc_ok w.

(** Both together: what the induction over the depth carries. *)
Definition mul_post (Zr X Y : mbedtls_mpi) (w : world)
           (res : option ((Z * mbedtls_mpi) * world)) : Prop :=
  mul_returns w res /\ mul_product Zr X Y w res.

(** The guards of [mbedtls_mpi_mul_mpi] as the widths settle them. *)
Definition long_operand (X Y : mbedtls_mpi) : Prop :=
  2 <= mbedtls_mpi_bitlen X /\ 2 <= mbedtls_mpi_bitlen Y
  /\ Z.max (mpi_words X) (mpi_words Y) * 32 > 2048.

(** What a caller sees of a call: the return code and the value left in
    the result integer. *)
Definition ret_val (r : option ((Z * mbedtls_mpi) * world)) : option (Z * Z) :=
  match r with
  | Some ((ret, Zr), _) => Some (ret, mpi_val Zr)
  | None => None
  end.

(** The same for [mbedtls_mpi_exp_mod], which also hands the cache back. *)
Definition exp_ret_val (r : option ((Z * mbedtls_mpi * option mbedtls_mpi) * world))
  : option (Z * Z) :=
  match r with
  | Some ((ret, Zr, _), _) => Some (ret, mpi_val Zr)
  | None => None
  end.

(** Allocators: one that never refuses, one that always does, and one
    that refuses a single size. *)
Definition alloc_always : Z -> bool := fun _ => true.

Definition alloc_never : Z -> bool := fun _ => false.

Definition alloc_except (k : Z) : Z -> bool := fun j => negb (j =? k).

(** The modulus of the failover as the specification words it, over
    [num_words = max(x_words, y_words)]. *)
Definition spec_failover_modulus (X Y : mbedtls_mpi) : Z :=
  2 ^ (MAX (mpi_words X) (mpi_words Y) * 32) - 1.

(* ================================================================== *)
(** * Properties *)
(* ================================================================== *)

(** * Machine arithmetic *)

Lemma wB_eq : wB = 4294967296.
Proof. reflexivity. Qed.

Lemma wB_pos : 0 < wB.
Proof. rewrite wB_eq; lia. Qed.

Lemma u32_small x : 0 <= x < 2 ^ 32 -> u32 x = x.
Proof. intros H; unfold u32; apply Z.mod_small; exact H. Qed.

Lemma u64_small x : 0 <= x < 2 ^ 64 -> u64 x = x.
Proof. intros H; unfold u64; apply Z.mod_small; exact H. Qed.

Lemma u32_range x : 0 <= u32 x < 2 ^ 32.
Proof. unfold u32; apply Z.mod_pos_bound; lia. Qed.

Lemma wB_pow (k : nat) : wB ^ Z.of_nat k = 2 ^ (32 * Z.of_nat k).
Proof. unfold wB. rewrite <- Z.pow_mul_r by lia. reflexivity. Qed.

Lemma wB_pow_pos (k : nat) : 0 < wB ^ Z.of_nat k.
Proof. apply Z.pow_pos_nonneg; [apply wB_pos | lia]. Qed.

Lemma wB_pow_succ (k : nat) : wB ^ Z.of_nat (S k) = wB * wB ^ Z.of_nat k.
Proof. rewrite Nat2Z.inj_succ, Z.pow_succ_r by lia. reflexivity. Qed.

(** * Limb arrays *)

Lemma limbs_val_app l1 l2 :
  limbs_val (l1 ++ l2) = limbs_val l1 + wB ^ Z.of_nat (length l1) * limbs_val l2.
Proof.
  induction l1 as [|a l1 IH]; cbn [app limbs_val length].
  - rewrite Z.pow_0_r; lia.
  - rewrite IH, wB_pow_succ. ring.
Qed.

Lemma limbs_val_repeat0 k : limbs_val (repeat 0 k) = 0.
Proof. induction k as [|k IH]; cbn [repeat limbs_val]; [reflexivity | rewrite IH; lia]. Qed.

Lemma limbs_val_bound l :
  Forall is_word l -> 0 <= limbs_val l < wB ^ Z.of_nat (length l).
Proof.
  induction 1 as [|a l Ha _ IH]; cbn [limbs_val length].
  - rewrite Z.pow_0_r; lia.
  - rewrite wB_pow_succ. unfold is_word in Ha. pose proof wB_pos. nia.
Qed.

Lemma to_limbs_length k v : length (to_limbs k v) = k.
Proof. revert v; induction k as [|k IH]; intros v; cbn [to_limbs length]; [|rewrite IH]; reflexivity. Qed.

Lemma to_limbs_words k v : Forall is_word (to_limbs k v).
Proof.
  revert v; induction k as [|k IH]; intros v; cbn [to_limbs]; constructor.
  - unfold is_word. apply Z.mod_pos_bound, wB_pos.
  - apply IH.
Qed.

Lemma limbs_val_to_limbs k v : limbs_val (to_limbs k v) = v mod wB ^ Z.of_nat k.
Proof.
  revert v; induction k as [|k IH]; intros v; cbn [to_limbs limbs_val].
  - rewrite Z.pow_0_r, Z.mod_1_r; reflexivity.
  - rewrite IH, wB_pow_succ.
    pose proof wB_pos. pose proof (wB_pow_pos k).
    rewrite Z.rem_mul_r by lia. reflexivity.
Qed.

Lemma limbs_val_to_limbs_small k v :
  0 <= v < wB ^ Z.of_nat k -> limbs_val (to_limbs k v) = v.
Proof. intros H. rewrite limbs_val_to_limbs. apply Z.mod_small, H. Qed.

Lemma to_limbs_limbs_val l :
  Forall is_word l -> to_limbs (length l) (limbs_val l) = l.
Proof.
  induction 1 as [|a l Ha Hl IH]; cbn [length to_limbs limbs_val]; [reflexivity|].
  unfold is_word in Ha. pose proof wB_pos.
  f_equal.
  - rewrite Z.mul_comm, Z.mod_add by lia. apply Z.mod_small; lia.
  - rewrite Z.mul_comm, Z.div_add by lia. rewrite Z.div_small by lia. exact IH.
Qed.

Lemma firstn_to_limbs j k v : (j <= k)%nat -> firstn j (to_limbs k v) = to_limbs j v.
Proof.
  revert k v; induction j as [|j IH]; intros k v H; [reflexivity|].
  destruct k as [|k]; [lia|]. cbn [to_limbs firstn]. f_equal. apply IH; lia.
Qed.

Lemma Forall_firstn {A} (P : A -> Prop) k l : Forall P l -> Forall P (firstn k l).
Proof.
  intros H; revert k; induction H as [|a l Ha _ IH]; intros [|k]; cbn [firstn]; constructor; auto.
Qed.

Lemma Forall_skipn {A} (P : A -> Prop) k l : Forall P l -> Forall P (skipn k l).
Proof.
  intros H; revert k; induction H as [|a l Ha Hl IH]; intros [|k]; cbn [skipn]; auto.
Qed.

Lemma Forall_repeat {A} (P : A -> Prop) a k : P a -> Forall P (repeat a k).
Proof. intros H; induction k; cbn [repeat]; constructor; auto. Qed.

Lemma limbs_val_split k l :
  limbs_val l = limbs_val (firstn k l) + wB ^ Z.of_nat (Nat.min k (length l)) * limbs_val (skipn k l).
Proof.
  rewrite <- (firstn_skipn k l) at 1. rewrite limbs_val_app, length_firstn. reflexivity.
Qed.

Lemma take_words_nil k : take_words [] k = repeat 0 k.
Proof.
  unfold take_words. generalize 0%nat. induction k as [|k IH]; intros a; cbn [seq map repeat].
  - reflexivity.
  - rewrite IH. destruct a; reflexivity.
Qed.

Lemma take_words_cons a l k : take_words (a :: l) (S k) = a :: take_words l k.
Proof.
  unfold take_words. rewrite <- cons_seq, <- seq_shift, map_cons, map_map. reflexivity.
Qed.

Lemma take_words_alt l k : take_words l k = firstn k l ++ repeat 0 (k - length l).
Proof.
  revert l; induction k as [|k IH]; intros l; [reflexivity|].
  destruct l as [|a l].
  - rewrite take_words_nil. reflexivity.
  - rewrite take_words_cons, IH. reflexivity.
Qed.

Lemma take_words_length l k : length (take_words l k) = k.
Proof. unfold take_words. rewrite length_map, length_seq. reflexivity. Qed.

Lemma limbs_val_take_words l k :
  Forall is_word l -> limbs_val (take_words l k) = limbs_val l mod wB ^ Z.of_nat k.
Proof.
  intros Hl. rewrite take_words_alt, limbs_val_app, limbs_val_repeat0, Z.mul_0_r, Z.add_0_r.
  destruct (Nat.le_gt_cases (length l) k) as [Hk|Hk].
  - rewrite firstn_all2 by lia. symmetry; apply Z.mod_small.
    pose proof (limbs_val_bound l Hl) as Hb. split; [lia|].
    apply Z.lt_le_trans with (1 := proj2 Hb).
    apply Z.pow_le_mono_r; [apply wB_pos | lia].
  - rewrite (limbs_val_split k l), Nat.min_l by lia.
    pose proof (limbs_val_bound (firstn k l) (Forall_firstn _ k l Hl)) as Hb.
    rewrite length_firstn, Nat.min_l in Hb by lia.
    rewrite Z.mul_comm, Z.mod_add by (pose proof (wB_pow_pos k); lia).
    symmetry; apply Z.mod_small; lia.
Qed.

(** * Significant words *)

Lemma mpi_words_sig X : mpi_words X = Z.of_nat (sig_words (p X)).
Proof. reflexivity. Qed.

Lemma mpi_words_from_le l i : (mpi_words_from l i <= i)%nat.
Proof.
  induction i as [|i IH]; cbn [mpi_words_from]; [lia|].
  destruct (nth i l 0 =? 0); cbn [negb]; lia.
Qed.

Lemma mpi_words_from_zero l i j :
  (mpi_words_from l i <= j < i)%nat -> nth j l 0 = 0.
Proof.
  induction i as [|i IH]; cbn [mpi_words_from]; [lia|].
  destruct (Z.eqb_spec (nth i l 0) 0) as [E|E]; cbn [negb]; [|lia].
  intros H. destruct (Nat.eq_dec j i) as [->|Hne]; [exact E | apply IH; lia].
Qed.

Lemma mpi_words_from_top l i :
  (0 < mpi_words_from l i)%nat -> nth (mpi_words_from l i - 1) l 0 <> 0.
Proof.
  induction i as [|i IH]; cbn [mpi_words_from]; [lia|].
  destruct (Z.eqb_spec (nth i l 0) 0) as [E|E]; cbn [negb]; [exact IH|].
  intros _. replace (S i - 1)%nat with i by lia. exact E.
Qed.

Lemma sig_words_le l : (sig_words l <= length l)%nat.
Proof. apply mpi_words_from_le. Qed.

Lemma nth_zero_above l j : (sig_words l <= j)%nat -> nth j l 0 = 0.
Proof.
  intros H. destruct (Nat.lt_ge_cases j (length l)) as [Hj|Hj].
  - apply (mpi_words_from_zero l (length l)). unfold sig_words in H. lia.
  - apply nth_overflow; lia.
Qed.

Lemma limbs_val_zero_tail l :
  (forall j, nth j l 0 = 0) -> limbs_val l = 0.
Proof.
  induction l as [|a l IH]; intros H; cbn [limbs_val]; [reflexivity|].
  rewrite (H 0%nat : a = 0), IH; [lia|]. intros j. apply (H (S j)).
Qed.

Lemma limbs_val_firstn_zero_above l k :
  (forall j, (k <= j)%nat -> nth j l 0 = 0) -> limbs_val (firstn k l) = limbs_val l.
Proof.
  intros H. rewrite (limbs_val_split k l).
  rewrite (limbs_val_zero_tail (skipn k l)); [lia|].
  intros j. rewrite nth_skipn. apply H; lia.
Qed.

Lemma limbs_val_firstn_sig l k :
  (sig_words l <= k)%nat -> limbs_val (firstn k l) = limbs_val l.
Proof.
  intros H. apply limbs_val_firstn_zero_above. intros j Hj. apply nth_zero_above; lia.
Qed.

Lemma nth_is_word l j : Forall is_word l -> is_word (nth j l 0).
Proof.
  intros H. destruct (Nat.lt_ge_cases j (length l)) as [Hj|Hj].
  - rewrite Forall_forall in H. apply H, nth_In, Hj.
  - rewrite nth_overflow by lia. unfold is_word. pose proof wB_pos; lia.
Qed.

Lemma limbs_val_sig_upper l :
  Forall is_word l -> 0 <= limbs_val l < wB ^ Z.of_nat (sig_words l).
Proof.
  intros Hl. rewrite <- (limbs_val_firstn_sig l (sig_words l)) by lia.
  pose proof (limbs_val_bound _ (Forall_firstn _ (sig_words l) l Hl)) as Hb.
  rewrite length_firstn, Nat.min_l in Hb by apply sig_words_le. exact Hb.
Qed.

Lemma limbs_val_ge_nth l j :
  Forall is_word l -> wB ^ Z.of_nat j * nth j l 0 <= limbs_val l.
Proof.
  intros Hl; revert j; induction Hl as [|a l Ha Hl IH]; intros j.
  - destruct j; cbn [nth limbs_val]; lia.
  - destruct j as [|j]; cbn [nth limbs_val].
    + pose proof (limbs_val_bound l Hl). unfold is_word in Ha. pose proof wB_pos.
      rewrite Z.pow_0_r. nia.
    + rewrite wB_pow_succ. specialize (IH j). unfold is_word in Ha. pose proof wB_pos. nia.
Qed.

Lemma limbs_val_sig_lower l :
  Forall is_word l -> (0 < sig_words l)%nat ->
  wB ^ Z.of_nat (sig_words l - 1) <= limbs_val l.
Proof.
  intros Hl Hpos.
  pose proof (mpi_words_from_top l (length l) Hpos) as Hne. fold (sig_words l) in Hne.
  pose proof (nth_is_word l (sig_words l - 1) Hl) as Hw. unfold is_word in Hw.
  pose proof (limbs_val_ge_nth l (sig_words l - 1) Hl).
  pose proof (wB_pow_pos (sig_words l - 1)). nia.
Qed.

Lemma sig_words_zero l : Forall is_word l -> (sig_words l = 0%nat <-> limbs_val l = 0).
Proof.
  intros Hl. split; intros H.
  - pose proof (limbs_val_sig_upper l Hl) as Hb. rewrite H, Z.pow_0_r in Hb. lia.
  - destruct (sig_words l) as [|k] eqn:E; [reflexivity|].
    pose proof (limbs_val_sig_lower l Hl) as Hlo. rewrite E in Hlo.
    specialize (Hlo ltac:(lia)). pose proof (wB_pow_pos (S k - 1)). lia.
Qed.

(** * Bit length and word count *)

Lemma bitlen_mag_bounds v (k : nat) :
  wB ^ Z.of_nat k <= v < wB ^ Z.of_nat (S k) ->
  32 * Z.of_nat k < bitlen_mag v <= 32 * Z.of_nat (S k).
Proof.
  intros [Hlo Hhi]. pose proof (wB_pow_pos k).
  unfold bitlen_mag. destruct (Z.eqb_spec v 0) as [E|E]; [lia|].
  rewrite !wB_pow in *.
  assert (32 * Z.of_nat k <= Z.log2 v) by (apply Z.log2_le_pow2; lia).
  assert (Z.log2 v < 32 * Z.of_nat (S k)) by (apply Z.log2_lt_pow2; lia).
  lia.
Qed.

Lemma bitlen_mag_nonneg v : 0 <= bitlen_mag v.
Proof.
  unfold bitlen_mag. destruct (v =? 0); [lia|]. pose proof (Z.log2_nonneg v). lia.
Qed.

Lemma bitlen_mag_zero v : 0 <= v -> (bitlen_mag v = 0 <-> v = 0).
Proof.
  intros Hv. unfold bitlen_mag. destruct (Z.eqb_spec v 0) as [E|E]; [tauto|].
  pose proof (Z.log2_nonneg v). split; lia.
Qed.

Lemma limbs_needed_sig l :
  Forall is_word l -> limbs_needed (limbs_val l) = Z.of_nat (sig_words l).
Proof.
  intros Hl. unfold limbs_needed.
  destruct (sig_words l) as [|k] eqn:E.
  - apply (sig_words_zero l Hl) in E. rewrite E. reflexivity.
  - pose proof (limbs_val_sig_lower l Hl) as Hlo. pose proof (limbs_val_sig_upper l Hl) as Hhi.
    rewrite E in Hlo, Hhi. specialize (Hlo ltac:(lia)).
    replace (S k - 1)%nat with k in Hlo by lia.
    pose proof (bitlen_mag_bounds (limbs_val l) k ltac:(lia)) as Hb.
    symmetry. apply Z.div_unique with (r := bitlen_mag (limbs_val l) + 31 - 32 * Z.of_nat (S k)); lia.
Qed.

Lemma bits_to_words_sig l :
  Forall is_word l -> Z.of_nat (length l) <= MBEDTLS_MPI_MAX_LIMBS ->
  bits_to_words (bitlen_mag (limbs_val l)) = Z.of_nat (sig_words l).
Proof.
  intros Hl Hn. unfold bits_to_words. rewrite u32_small.
  - apply (limbs_needed_sig l Hl).
  - pose proof (sig_words_le l). unfold MBEDTLS_MPI_MAX_LIMBS in Hn.
    pose proof (bitlen_mag_nonneg (limbs_val l)).
    destruct (sig_words l) as [|k] eqn:E.
    + apply (sig_words_zero l Hl) in E. rewrite E. cbn. lia.
    + pose proof (limbs_val_sig_lower l Hl) as Hlo. pose proof (limbs_val_sig_upper l Hl) as Hhi.
      rewrite E in Hlo, Hhi. specialize (Hlo ltac:(lia)).
      replace (S k - 1)%nat with k in Hlo by lia.
      pose proof (bitlen_mag_bounds (limbs_val l) k ltac:(lia)) as Hb. lia.
Qed.

Lemma bits_to_words_mpi X :
  mpi_wf X -> bits_to_words (mbedtls_mpi_bitlen X) = mpi_words X.
Proof.
  intros (_ & Hl & Hn). apply bits_to_words_sig; assumption.
Qed.

(** * The Montgomery constant *)

Lemma mod_eq_1 A B q : 1 < B -> A = B * q + 1 -> A mod B = 1.
Proof.
  intros HB ->. rewrite Z.mul_comm, Z.add_comm, Z.mod_add by lia. apply Z.mod_small; lia.
Qed.

Lemma odd_decompose N : Z.odd N = true -> exists h, N = 2 * h + 1.
Proof.
  intros H. exists (N / 2). rewrite (Z.div_mod N 2) at 1 by lia.
  rewrite Zmod_odd, H. reflexivity.
Qed.

(** One round of the loop keeps [N * t = 1] modulo the next power of two. *)
Lemma modular_inverse_round N t j :
  Z.odd N = true -> 1 <= j ->
  0 < t < 2 ^ j -> (N * t) mod 2 ^ j = 1 ->
  let t' := if (N * t) mod 2 ^ (j + 1) >=? 2 ^ j then t + 2 ^ j else t in
  0 < t' < 2 ^ (j + 1) /\ (N * t') mod 2 ^ (j + 1) = 1.
Proof.
  intros Hodd Hj Ht Hinv.
  assert (Hp : 1 < 2 ^ j) by (apply Z.pow_gt_1; lia).
  assert (Hp1 : 2 ^ (j + 1) = 2 ^ j * 2) by (rewrite Z.pow_add_r by lia; reflexivity).
  pose proof (Z.rem_mul_r (N * t) (2 ^ j) 2 ltac:(lia) ltac:(lia)) as Hsplit.
  rewrite Hinv, <- Hp1 in Hsplit.
  pose proof (Z.mod_pos_bound (N * t / 2 ^ j) 2 ltac:(lia)) as Hr.
  pose proof (Z.div_mod (N * t) (2 ^ (j + 1)) ltac:(lia)) as Hdm.
  cbv zeta. destruct (Z.geb_spec ((N * t) mod 2 ^ (j + 1)) (2 ^ j)) as [Hge|Hlt].
  - assert (Er : (N * t / 2 ^ j) mod 2 = 1) by nia.
    rewrite Er in Hsplit. split; [lia|].
    destruct (odd_decompose N Hodd) as [h Hh].
    apply mod_eq_1 with (q := N * t / 2 ^ (j + 1) + 1 + h); [lia|].
    rewrite Hsplit in Hdm. rewrite Z.mul_add_distr_l, Hdm at 1.
    rewrite Hh at 2. rewrite Hp1. ring.
  - assert (Er : (N * t / 2 ^ j) mod 2 = 0) by nia.
    rewrite Er in Hsplit. split; [lia|]. rewrite Hsplit. lia.
Qed.

Lemma modular_inverse_loop_spec iters : forall N t j,
  is_word N -> Z.odd N = true -> 1 <= j -> j + Z.of_nat iters <= 32 ->
  0 < t < 2 ^ j -> (N * t) mod 2 ^ j = 1 ->
  let r := modular_inverse_loop iters N t (2 ^ j) (2 ^ (j + 1)) in
  0 < r < 2 ^ (j + Z.of_nat iters) /\ (N * r) mod 2 ^ (j + Z.of_nat iters) = 1.
Proof.
  induction iters as [|k IH]; intros N t j HN Hodd Hj Hi Ht Hinv; cbn [modular_inverse_loop].
  - cbv zeta. rewrite Z.add_0_r. auto.
  - cbv zeta.
    assert (Hpj : 2 ^ j <= 2 ^ 31) by (apply Z.pow_le_mono_r; lia).
    assert (Hpj1 : 2 ^ (j + 1) = 2 * 2 ^ j) by (rewrite Z.pow_add_r by lia; lia).
    assert (Hpj2 : 2 ^ (j + 1 + 1) = 2 * 2 ^ (j + 1)) by (rewrite (Z.pow_add_r 2 (j + 1) 1) by lia; lia).
    unfold is_word in HN. rewrite wB_eq in HN.
    rewrite (u32_small N) by (change (2 ^ 32) with 4294967296; lia).
    rewrite (u64_small (N * t)) by (change (2 ^ 64) with (4294967296 * 4294967296); change (2 ^ 31) with 2147483648 in Hpj; nia).
    rewrite (u64_small (t + 2 ^ j)) by (change (2 ^ 64) with (4294967296 * 4294967296); change (2 ^ 31) with 2147483648 in Hpj; nia).
    rewrite !Z.shiftl_mul_pow2, Z.pow_1_r by lia.
    rewrite (u64_small (2 ^ j * 2)) by (change (2 ^ 64) with (4294967296 * 4294967296); change (2 ^ 31) with 2147483648 in Hpj; nia).
    rewrite (u64_small (2 ^ (j + 1) * 2)) by (change (2 ^ 64) with (4294967296 * 4294967296); change (2 ^ 31) with 2147483648 in Hpj; nia).
    replace (2 ^ j * 2) with (2 ^ (j + 1)) by lia.
    replace (2 ^ (j + 1) * 2) with (2 ^ (j + 1 + 1)) by lia.
    destruct (modular_inverse_round N t j Hodd Hj Ht Hinv) as [Ht' Hinv'].
    cbv zeta in Ht', Hinv'.
    replace (j + Z.of_nat (S k)) with (j + 1 + Z.of_nat k) by lia.
    apply IH; try assumption; lia.
Qed.

Lemma modular_inverse_loop_31 N :
  is_word N -> Z.odd N = true ->
  let t := modular_inverse_loop 31 N 1 2 4 in
  0 < t < 2 ^ 32 /\ (N * t) mod 2 ^ 32 = 1.
Proof.
  intros HN Hodd.
  apply (modular_inverse_loop_spec 31 N 1 1 HN Hodd); try lia.
  destruct (odd_decompose N Hodd) as [h ->].
  apply mod_eq_1 with (q := h); lia.
Qed.

Lemma modular_inverse_value M :
  is_word (nth 0 (p M) 0) -> Z.odd (nth 0 (p M) 0) = true ->
  modular_inverse M = 2 ^ 32 - modular_inverse_loop 31 (nth 0 (p M) 0) 1 2 4.
Proof.
  intros HN Hodd. unfold modular_inverse.
  destruct (modular_inverse_loop_31 _ HN Hodd) as [Ht _]. cbv zeta in Ht.
  set (t := modular_inverse_loop 31 (nth 0 (p M) 0) 1 2 4) in *.
  unfold UINT32_MAX. change (2 ^ 32) with 4294967296 in *.
  rewrite (u64_small (4294967296 - 1 - t)) by (change (2 ^ 64) with 18446744073709551616; lia).
  rewrite u64_small by (change (2 ^ 64) with 18446744073709551616; lia).
  rewrite u32_small by (change (2 ^ 32) with 4294967296; lia). lia.
Qed.

Lemma modular_inverse_low_word M :
  is_word (nth 0 (p M) 0) -> Z.odd (nth 0 (p M) 0) = true ->
  0 < modular_inverse M < 2 ^ 32 /\
  (nth 0 (p M) 0 * modular_inverse M) mod 2 ^ 32 = 2 ^ 32 - 1.
Proof.
  intros HN Hodd. rewrite (modular_inverse_value M HN Hodd).
  destruct (modular_inverse_loop_31 _ HN Hodd) as [Ht Hinv]. cbv zeta in Ht, Hinv.
  set (N := nth 0 (p M) 0) in *. set (t := modular_inverse_loop 31 N 1 2 4) in *.
  split; [lia|].
  pose proof (Z.div_mod (N * t) (2 ^ 32) ltac:(lia)) as Hdm. rewrite Hinv in Hdm.
  set (q := N * t / 2 ^ 32) in *.
  replace (N * (2 ^ 32 - t)) with (2 ^ 32 - 1 + (N - q - 1) * 2 ^ 32) by lia.
  rewrite Z.mod_add by lia. apply Z.mod_small. lia.
Qed.

(** The low limb of a magnitude. *)
Lemma limbs_val_low l :
  Forall is_word l -> limbs_val l mod wB = nth 0 l 0.
Proof.
  intros Hl. destruct Hl as [|a l Ha Hl]; cbn [limbs_val nth]; [reflexivity|].
  unfold is_word in Ha. pose proof wB_pos.
  rewrite Z.mul_comm, Z.mod_add by lia. apply Z.mod_small; lia.
Qed.

Lemma limbs_val_odd l :
  Forall is_word l -> Z.odd (limbs_val l) = Z.odd (nth 0 l 0).
Proof.
  intros Hl. destruct Hl as [|a l Ha Hl]; cbn [limbs_val nth]; [reflexivity|].
  rewrite wB_eq. replace (a + 4294967296 * limbs_val l) with (a + 2 * (2147483648 * limbs_val l)) by ring.
  rewrite Z.odd_add_mul_2. reflexivity.
Qed.

Lemma modular_inverse_correct M :
  Forall is_word (p M) -> Z.odd (mpi_mag M) = true ->
  0 < modular_inverse M < 2 ^ 32 /\
  (mpi_mag M * modular_inverse M) mod 2 ^ 32 = 2 ^ 32 - 1.
Proof.
  intros Hl Hodd. unfold mpi_mag in *. rewrite (limbs_val_odd _ Hl) in Hodd.
  destruct (modular_inverse_low_word M (nth_is_word _ 0 Hl) Hodd) as [Hr Hinv].
  split; [exact Hr|].
  rewrite <- Zmult_mod_idemp_l. change (2 ^ 32) with wB at 1.
  rewrite (limbs_val_low _ Hl). exact Hinv.
Qed.

(** * The Montgomery engine *)

Lemma cong_refl m a : cong m a a.
Proof. reflexivity. Qed.

Lemma cong_sym m a b : cong m a b -> cong m b a.
Proof. unfold cong; congruence. Qed.

Lemma cong_trans m a b c : cong m a b -> cong m b c -> cong m a c.
Proof. unfold cong; congruence. Qed.

Lemma cong_mod m a : cong m (a mod m) a.
Proof.
  unfold cong. destruct (Z.eq_dec m 0) as [->|H];
    [rewrite !Z.mod_0_r; reflexivity | apply Z.mod_mod, H].
Qed.

Lemma cong_mul m a a' b b' : cong m a a' -> cong m b b' -> cong m (a * b) (a' * b').
Proof. unfold cong; intros Ha Hb. rewrite (Zmult_mod a), (Zmult_mod a'), Ha, Hb. reflexivity. Qed.

Lemma cong_add m a a' b b' : cong m a a' -> cong m b b' -> cong m (a + b) (a' + b').
Proof. unfold cong; intros Ha Hb. rewrite (Zplus_mod a), (Zplus_mod a'), Ha, Hb. reflexivity. Qed.

Lemma cong_eq m a b : a = b -> cong m a b.
Proof. intros ->; reflexivity. Qed.

Lemma cong_mul_1_r m a b : cong m b 1 -> cong m (a * b) a.
Proof.
  intros H. apply cong_trans with (a * 1); [|apply cong_eq; ring].
  apply cong_mul; [apply cong_refl | exact H].
Qed.

Lemma cong_multiple m a u : cong m (a + u * m) a.
Proof.
  unfold cong. destruct (Z.eq_dec m 0) as [->|H]; [f_equal; lia | apply Z.mod_add, H].
Qed.

Section Montgomery.

Variables (M M' : Z).
Hypothesis M_pos : 0 < M.
Hypothesis M'_ok : (M * M') mod wB = wB - 1.

Lemma mont_step_exact T : mont_step M M' T * wB = T + ((T mod wB) * M' mod wB) * M.
Proof.
  unfold mont_step. pose proof wB_pos as HB.
  set (u := (T mod wB) * M' mod wB).
  assert (E : (T + u * M) mod wB = 0).
  { assert (Hu : cong wB u (T * M')).
    { unfold u. eapply cong_trans; [apply cong_mod|].
      apply cong_mul; [apply cong_mod | apply cong_refl]. }
    assert (Hm : cong wB (M * M') (wB - 1)).
    { unfold cong. rewrite M'_ok. symmetry; apply Z.mod_small; lia. }
    assert (H1 : cong wB (T + u * M) (T + T * M' * M)).
    { apply cong_add; [apply cong_refl|]. apply cong_mul; [exact Hu | apply cong_refl]. }
    assert (H2 : cong wB (T + T * M' * M) (T + T * (wB - 1))).
    { apply cong_add; [apply cong_refl|].
      replace (T * M' * M) with (T * (M * M')) by ring.
      apply cong_mul; [apply cong_refl | exact Hm]. }
    pose proof (cong_trans _ _ _ _ H1 H2) as H3. unfold cong in H3. rewrite H3.
    replace (T + T * (wB - 1)) with (T * wB) by ring. apply Z.mod_mul; lia. }
  pose proof (Z.div_mod (T + u * M) wB ltac:(lia)). lia.
Qed.

Lemma mont_redc_exact k : forall T, exists u, mont_redc k M M' T * wB ^ Z.of_nat k = T + u * M.
Proof.
  induction k as [|k IH]; intros T; cbn [mont_redc].
  - exists 0. rewrite Z.pow_0_r; lia.
  - destruct (IH (mont_step M M' T)) as [u Hu].
    exists ((T mod wB) * M' mod wB + u * wB).
    rewrite wB_pow_succ.
    replace (mont_redc k M M' (mont_step M M' T) * (wB * wB ^ Z.of_nat k))
      with (mont_redc k M M' (mont_step M M' T) * wB ^ Z.of_nat k * wB) by ring.
    rewrite Hu, Z.mul_add_distr_r, mont_step_exact. ring.
Qed.

Variables (k : nat) (Ri : Z).
Hypothesis Ri_ok : cong M (wB ^ Z.of_nat k * Ri) 1.

Lemma mont_mul_cong a b : cong M (mont_mul k M M' a b) (a * b * Ri).
Proof.
  unfold mont_mul. eapply cong_trans; [apply cong_mod|].
  destruct (mont_redc_exact k (a * b)) as [u Hu].
  set (r := mont_redc k M M' (a * b)) in *.
  apply cong_trans with (r * (wB ^ Z.of_nat k * Ri)).
  - apply cong_sym, cong_mul_1_r, Ri_ok.
  - replace (r * (wB ^ Z.of_nat k * Ri)) with (a * b * Ri + (u * Ri) * M) by (rewrite Z.mul_assoc, Hu; ring).
    apply cong_multiple.
Qed.

Lemma mont_mul_range a b : 0 <= mont_mul k M M' a b < M.
Proof. unfold mont_mul. apply Z.mod_pos_bound, M_pos. Qed.

Lemma cong_range_eq a b : 0 <= a < M -> cong M a b -> a = b mod M.
Proof. unfold cong; intros Ha H. rewrite <- H. symmetry; apply Z.mod_small, Ha. Qed.

Variable Rinv : Z.
Hypothesis Rinv_ok : cong M Rinv (wB ^ Z.of_nat k * wB ^ Z.of_nat k).

Lemma Rinv_Ri_Ri : cong M (Rinv * Ri * Ri) 1.
Proof.
  apply cong_trans with ((wB ^ Z.of_nat k * wB ^ Z.of_nat k) * Ri * Ri).
  - repeat apply cong_mul; try apply cong_refl. exact Rinv_ok.
  - replace (wB ^ Z.of_nat k * wB ^ Z.of_nat k * Ri * Ri)
      with ((wB ^ Z.of_nat k * Ri) * (wB ^ Z.of_nat k * Ri)) by ring.
    exact (cong_mul M _ 1 _ 1 Ri_ok Ri_ok).
Qed.

Lemma hw_mod_mult_spec X Y : hw_mod_mult k M M' Rinv X Y = (X * Y) mod M.
Proof.
  unfold hw_mod_mult. apply cong_range_eq; [apply mont_mul_range|].
  eapply cong_trans; [apply mont_mul_cong|].
  apply cong_trans with (X * Y * Ri * Rinv * Ri).
  - repeat apply cong_mul; try apply cong_refl. apply mont_mul_cong.
  - replace (X * Y * Ri * Rinv * Ri) with (X * Y * (Rinv * Ri * Ri)) by ring.
    apply cong_mul_1_r, Rinv_Ri_Ri.
Qed.

(** A residue [A] in Montgomery form stands for [A * Ri]. *)
Lemma mont_pow_cong X e :
  cong M (mont_pow k M M' (mont_mul k M M' X Rinv) e * Ri) (X ^ Zpos e).
Proof.
  assert (HX : cong M (mont_mul k M M' X Rinv * Ri) X).
  { apply cong_trans with (X * Rinv * Ri * Ri).
    - apply cong_mul; [apply mont_mul_cong | apply cong_refl].
    - replace (X * Rinv * Ri * Ri) with (X * (Rinv * Ri * Ri)) by ring.
      apply cong_mul_1_r, Rinv_Ri_Ri. }
  induction e as [e IH|e IH|]; cbn [mont_pow].
  - set (A := mont_pow k M M' (mont_mul k M M' X Rinv) e) in *.
    set (Xm := mont_mul k M M' X Rinv) in *.
    apply cong_trans with ((A * Ri) * (A * Ri) * (Xm * Ri)).
    + apply cong_trans with (mont_mul k M M' A A * Xm * Ri * Ri).
      * apply cong_mul; [apply mont_mul_cong | apply cong_refl].
      * apply cong_trans with (A * A * Ri * Xm * Ri * Ri).
        -- repeat apply cong_mul; try apply cong_refl. apply mont_mul_cong.
        -- apply cong_eq; ring.
    + rewrite Pos2Z.inj_xI.
      replace (X ^ (2 * Z.pos e + 1)) with (X ^ Z.pos e * X ^ Z.pos e * X)
        by (rewrite Z.pow_add_r, Z.pow_1_r, Z.pow_twice_r by lia; ring).
      repeat apply cong_mul; assumption.
  - set (A := mont_pow k M M' (mont_mul k M M' X Rinv) e) in *.
    apply cong_trans with ((A * Ri) * (A * Ri)).
    + apply cong_trans with (A * A * Ri * Ri).
      * apply cong_mul; [apply mont_mul_cong | apply cong_refl].
      * apply cong_eq; ring.
    + rewrite Pos2Z.inj_xO, Z.pow_twice_r. apply cong_mul; assumption.
  - rewrite Z.pow_1_r. exact HX.
Qed.

Lemma hw_mod_exp_spec X Y : 0 <= Y -> hw_mod_exp k M M' Rinv X Y = (X ^ Y) mod M.
Proof.
  intros HY. unfold hw_mod_exp. destruct Y as [|e|e]; [| |lia].
  - apply cong_range_eq; [apply mont_mul_range|].
    eapply cong_trans; [apply mont_mul_cong|].
    apply cong_trans with (1 * Rinv * Ri * 1 * Ri).
    + repeat apply cong_mul; try apply cong_refl. apply mont_mul_cong.
    + rewrite Z.pow_0_r. replace (1 * Rinv * Ri * 1 * Ri) with (Rinv * Ri * Ri) by ring.
      apply Rinv_Ri_Ri.
  - apply cong_range_eq; [apply mont_mul_range|].
    eapply cong_trans; [apply mont_mul_cong|].
    rewrite Z.mul_1_r. apply mont_pow_cong.
Qed.

End Montgomery.

Lemma cong_pow m a b (e : nat) : cong m a b -> cong m (a ^ Z.of_nat e) (b ^ Z.of_nat e).
Proof.
  intros H. induction e as [|e IH].
  - apply cong_refl.
  - rewrite Nat2Z.inj_succ, !Z.pow_succ_r by lia. apply cong_mul; assumption.
Qed.

(** An odd modulus has an inverse of every power of the limb base. *)
Lemma pow_wB_inverse M (k : nat) :
  0 < M -> Z.odd M = true -> exists Ri, cong M (wB ^ Z.of_nat k * Ri) 1.
Proof.
  intros HM Hodd. destruct (odd_decompose M Hodd) as [h Hh].
  exists ((h + 1) ^ Z.of_nat (32 * k)).
  rewrite wB_pow. replace (32 * Z.of_nat k) with (Z.of_nat (32 * k)) by lia.
  rewrite <- Z.pow_mul_l.
  replace 1 with (1 ^ Z.of_nat (32 * k)) at 2 by apply Z.pow_1_l, Nat2Z.is_nonneg.
  apply cong_pow. replace (2 * (h + 1)) with (1 + 1 * M) by lia. apply cong_multiple.
Qed.

(** The all-ones modulus of the failover path. *)
Lemma all_ones_Mprime (k : nat) :
  (0 < k)%nat -> ((wB ^ Z.of_nat k - 1) * 1) mod wB = wB - 1.
Proof.
  intros Hk. destruct k as [|k]; [lia|]. rewrite wB_pow_succ. pose proof wB_pos.
  replace ((wB * wB ^ Z.of_nat k - 1) * 1) with ((wB - 1) + (wB ^ Z.of_nat k - 1) * wB) by ring.
  rewrite Z.mod_add by lia. apply Z.mod_small; lia.
Qed.

Lemma all_ones_Ri (k : nat) : cong (wB ^ Z.of_nat k - 1) (wB ^ Z.of_nat k * 1) 1.
Proof.
  unfold cong. replace (wB ^ Z.of_nat k * 1) with (1 + 1 * (wB ^ Z.of_nat k - 1)) by ring.
  destruct (Z.eq_dec (wB ^ Z.of_nat k - 1) 0) as [E|E].
  - rewrite E, !Z.mod_0_r. lia.
  - apply Z.mod_add, E.
Qed.

Lemma hw_mod_mult_all_ones (k : nat) X Y :
  (0 < k)%nat -> 0 <= X * Y < wB ^ Z.of_nat k - 1 ->
  hw_mod_mult k (wB ^ Z.of_nat k - 1) 1 1 X Y = X * Y.
Proof.
  intros Hk Hxy.
  rewrite (hw_mod_mult_spec (wB ^ Z.of_nat k - 1) 1 ltac:(lia) (all_ones_Mprime k Hk) k 1 (all_ones_Ri k)).
  - apply Z.mod_small, Hxy.
  - apply cong_sym.
    replace (wB ^ Z.of_nat k * wB ^ Z.of_nat k)
      with (wB ^ Z.of_nat k * 1 * (wB ^ Z.of_nat k * 1)) by ring.
    exact (cong_mul _ _ 1 _ 1 (all_ones_Ri k) (all_ones_Ri k)).
Qed.

(** * Stepping through the monad *)

Lemma mbind_step {A B} (c : io A) (k : A -> io B) w a w1 :
  c w = Some (a, w1) -> mbind c k w = k a w1.
Proof. intros H. unfold mbind. rewrite H. reflexivity. Qed.

Lemma modify_run f w : modify f w = Some (tt, f w).
Proof. reflexivity. Qed.

Lemma gets_run {A} (f : world -> A) w : gets f w = Some (f w, w).
Proof. reflexivity. Qed.

Lemma block_eqb_refl b : block_eqb b b = true.
Proof. destruct b; reflexivity. Qed.

Lemma block_eqb_eq a b : block_eqb a b = true -> a = b.
Proof. destruct a, b; cbn; congruence. Qed.

(** * Writes to an operand block *)

Lemma for_loop_mem_write count : forall i0 a f w,
  for_loop count i0 (fun i => mem_write (addr_plus a i) (f i)) w
  = Some (tt, upd_mem (fun m => write_seq m a i0 count f) w).
Proof.
  induction count as [|c IH]; intros i0 a f w; cbn [for_loop write_seq].
  - destruct w; reflexivity.
  - unfold mbind, mem_write at 1, modify. rewrite IH. reflexivity.
Qed.

Lemma write_seq_read count : forall m a i0 f b j,
  write_seq m a i0 count f b j
  = if block_eqb (fst a) b && (Nat.leb (snd a + i0) j && Nat.ltb j (snd a + i0 + count))
    then u32 (f (j - snd a)%nat) else m b j.
Proof.
  induction count as [|c IH]; intros m a i0 f b j; cbn [write_seq].
  - replace (Nat.leb (snd a + i0) j && Nat.ltb j (snd a + i0 + 0)) with false.
    + rewrite andb_false_r. reflexivity.
    + symmetry. apply andb_false_iff.
      destruct (Nat.leb_spec (snd a + i0) j); [right; apply Nat.ltb_ge; lia | left; reflexivity].
  - rewrite IH. unfold store_word, addr_plus; cbn [fst snd].
    destruct (block_eqb (fst a) b); cbn [andb]; [|reflexivity].
    destruct (Nat.eqb_spec (snd a + i0) j) as [E|E].
    + subst j. replace (Nat.leb (snd a + S i0) (snd a + i0)) with false
        by (symmetry; apply Nat.leb_gt; lia).
      replace (Nat.leb (snd a + i0) (snd a + i0)) with true by (symmetry; apply Nat.leb_le; lia).
      replace (Nat.ltb (snd a + i0) (snd a + i0 + S c)) with true by (symmetry; apply Nat.ltb_lt; lia).
      cbn [andb]. f_equal. f_equal. lia.
    + destruct (Nat.leb_spec (snd a + S i0) j), (Nat.leb_spec (snd a + i0) j); try lia; cbn [andb];
        try reflexivity.
      destruct (Nat.ltb_spec j (snd a + S i0 + c)), (Nat.ltb_spec j (snd a + i0 + S c)); try lia;
        reflexivity.
Qed.

Lemma mpi_to_mem_block_run a mpi num_words w :
  mpi_to_mem_block a mpi num_words w
  = Some (tt, upd_mem (fun m => marshal m a mpi num_words) w).
Proof.
  unfold mpi_to_mem_block, marshal.
  rewrite (mbind_step _ _ _ _ _ (for_loop_mem_write _ _ _ _ _)).
  rewrite for_loop_mem_write. reflexivity.
Qed.

Lemma marshal_read m a mpi num_words b j :
  Forall is_word (p mpi) -> 0 <= num_words < 2 ^ 32 -> n mpi < 2 ^ 32 ->
  marshal m a mpi num_words b j
  = if block_eqb (fst a) b && (Nat.leb (snd a) j && Nat.ltb j (snd a + Z.to_nat num_words))
    then nth (j - snd a) (p mpi) 0 else m b j.
Proof.
  intros Hl Hn Hlen. unfold marshal.
  set (copy := Z.to_nat (if num_words <? n mpi then u32 num_words else u32 (n mpi))).
  assert (Hcopy : copy = Nat.min (Z.to_nat num_words) (length (p mpi))).
  { unfold copy, n in *. destruct (Z.ltb_spec num_words (Z.of_nat (length (p mpi)))).
    - rewrite u32_small by lia. lia.
    - rewrite u32_small by lia. lia. }
  rewrite !write_seq_read. rewrite !Nat.add_0_r.
  destruct (block_eqb (fst a) b); cbn [andb]; [|reflexivity].
  destruct (Nat.leb_spec (snd a) j) as [H1|H1]; cbn [andb].
  - destruct (Nat.ltb_spec j (snd a + Z.to_nat num_words)) as [H2|H2].
    + destruct (Nat.leb_spec (snd a + copy) j) as [H3|H3]; cbn [andb].
      * replace (Nat.ltb j (snd a + copy + (Z.to_nat num_words - copy))) with true
          by (symmetry; apply Nat.ltb_lt; lia).
        rewrite nth_overflow by lia. reflexivity.
      * replace (Nat.ltb j (snd a + copy)) with true by (symmetry; apply Nat.ltb_lt; lia).
        apply u32_small. pose proof (nth_is_word (p mpi) (j - snd a) Hl) as Hw.
        unfold is_word in Hw. rewrite wB_eq in Hw. change (2 ^ 32) with 4294967296. lia.
    + replace (Nat.leb (snd a + copy) j && Nat.ltb j (snd a + copy + (Z.to_nat num_words - copy))) with false.
      * replace (Nat.ltb j (snd a + copy)) with false by (symmetry; apply Nat.ltb_ge; lia).
        reflexivity.
      * symmetry. apply andb_false_iff. right. apply Nat.ltb_ge; lia.
  - replace (Nat.leb (snd a + copy) j) with false by (symmetry; apply Nat.leb_gt; lia).
    reflexivity.
Qed.

Lemma block_words_ext m1 m2 b off k :
  (forall i, (i < k)%nat -> m1 b (off + i)%nat = m2 b (off + i)%nat) ->
  block_words m1 b off k = block_words m2 b off k.
Proof.
  intros H. unfold block_words. apply map_ext_in. intros i Hi. apply in_seq in Hi. apply H; lia.
Qed.

Lemma block_words_marshal_same m b off mpi num_words :
  Forall is_word (p mpi) -> 0 <= num_words < 2 ^ 32 -> n mpi < 2 ^ 32 ->
  block_words (marshal m (b, off) mpi num_words) b off (Z.to_nat num_words)
  = take_words (p mpi) (Z.to_nat num_words).
Proof.
  intros Hl Hn Hlen. unfold block_words, take_words. apply map_ext_in. intros i Hi.
  apply in_seq in Hi. rewrite marshal_read by assumption. cbn [fst snd].
  rewrite block_eqb_refl. cbn [andb].
  replace (Nat.leb off (off + i)) with true by (symmetry; apply Nat.leb_le; lia).
  replace (Nat.ltb (off + i) (off + Z.to_nat num_words)) with true by (symmetry; apply Nat.ltb_lt; lia).
  cbn [andb]. f_equal. lia.
Qed.

Lemma block_words_marshal_other m a mpi num_words b off k :
  Forall is_word (p mpi) -> 0 <= num_words < 2 ^ 32 -> n mpi < 2 ^ 32 ->
  block_eqb (fst a) b = false ->
  block_words (marshal m a mpi num_words) b off k = block_words m b off k.
Proof.
  intros Hl Hn Hlen Hb. apply block_words_ext. intros i _.
  rewrite marshal_read by assumption. rewrite Hb. reflexivity.
Qed.

Lemma block_words_store_block m b l k :
  (k <= length l)%nat -> block_words (store_block m b l) b 0 k = firstn k l.
Proof.
  intros Hk. unfold block_words, store_block.
  rewrite (map_ext_in _ (fun i => nth i l 0)).
  - change (map (fun i => nth i l 0) (seq 0 k)) with (take_words l k).
    rewrite take_words_alt. replace (k - length l)%nat with 0%nat by lia. apply app_nil_r.
  - intros i Hi. apply in_seq in Hi. rewrite block_eqb_refl. cbn [andb Nat.add].
    replace (Nat.ltb i (length l)) with true by (symmetry; apply Nat.ltb_lt; lia). reflexivity.
Qed.

(** * The access guard and the sequencer *)

Lemma acquire_run w :
  mpi_lock w = false -> esp_mpi_acquire_hardware w = Some (tt, acquired w).
Proof.
  intros H. unfold esp_mpi_acquire_hardware, mbind, _lock_acquire. rewrite H. reflexivity.
Qed.

Lemma acquire_held w : mpi_lock w = true -> esp_mpi_acquire_hardware w = None.
Proof.
  intros H. unfold esp_mpi_acquire_hardware, mbind, _lock_acquire. rewrite H. reflexivity.
Qed.

Lemma release_run w : esp_mpi_release_hardware w = Some (tt, released w).
Proof. reflexivity. Qed.

Lemma start_op_run op_reg w : start_op op_reg w = Some (tt, started op_reg w).
Proof. reflexivity. Qed.

Lemma wait_op_complete_run op_reg w :
  rsa_irq w = true ->
  wait_op_complete op_reg w = Some (tt, reg_write RSA_CLEAR_INTERRUPT_REG 1 w).
Proof. intros H. unfold wait_op_complete, mbind, gets. rewrite H. reflexivity. Qed.

Lemma DPORT_REG_WRITE_run r v w : DPORT_REG_WRITE r v w = Some (tt, reg_write r v w).
Proof. reflexivity. Qed.

Lemma mem_write_run a v w :
  mem_write a v w = Some (tt, upd_mem (fun m => store_word m a (u32 v)) w).
Proof. reflexivity. Qed.

(** * Growing and reading back *)

Lemma grow_ok X nblimbs w :
  can_grow w X nblimbs -> mbedtls_mpi_grow X nblimbs w = Some ((0, grown X nblimbs), w).
Proof.
  intros [Hmax Hal]. unfold mbedtls_mpi_grow, grown.
  destruct (Z.gtb_spec nblimbs MBEDTLS_MPI_MAX_LIMBS); [lia|].
  destruct (Z.ltb_spec (n X) nblimbs) as [Hlt|Hge]; [|reflexivity].
  unfold mbind, gets. rewrite (Hal Hlt). reflexivity.
Qed.

Lemma grow_total X nblimbs w :
  exists r X', mbedtls_mpi_grow X nblimbs w = Some ((r, X'), w)
               /\ (r <> 0 -> X' = X) /\ (r = 0 -> X' = grown X nblimbs).
Proof.
  unfold mbedtls_mpi_grow, grown.
  destruct (nblimbs >? MBEDTLS_MPI_MAX_LIMBS).
  { eexists _, _; split; [reflexivity|]. split; [reflexivity|discriminate]. }
  destruct (n X <? nblimbs).
  - unfold mbind, gets. destruct (calloc_ok w nblimbs).
    + eexists _, _; split; [reflexivity|]. split; [congruence|reflexivity].
    + eexists _, _; split; [reflexivity|]. split; [reflexivity|discriminate].
  - eexists _, _; split; [reflexivity|]. split; [congruence|reflexivity].
Qed.

Lemma grown_length X nblimbs :
  length (p (grown X nblimbs)) = Nat.max (length (p X)) (Z.to_nat nblimbs).
Proof.
  unfold grown, n. destruct (Z.ltb_spec (Z.of_nat (length (p X))) nblimbs); cbn [p].
  - rewrite length_app, repeat_length. lia.
  - lia.
Qed.

Lemma grown_sign X nblimbs : s (grown X nblimbs) = s X.
Proof. unfold grown. destruct (n X <? nblimbs); reflexivity. Qed.

Lemma grown_mag X nblimbs : mpi_mag (grown X nblimbs) = mpi_mag X.
Proof.
  unfold grown, mpi_mag. destruct (n X <? nblimbs); cbn [p]; [|reflexivity].
  rewrite limbs_val_app, limbs_val_repeat0. lia.
Qed.

Lemma grown_words X nblimbs : Forall is_word (p X) -> Forall is_word (p (grown X nblimbs)).
Proof.
  intros H. unfold grown. destruct (n X <? nblimbs); cbn [p]; [|exact H].
  apply Forall_app; split; [exact H|]. apply Forall_repeat. unfold is_word. pose proof wB_pos; lia.
Qed.

Lemma mem_block_to_mpi_ok x a num_words w :
  can_grow w x num_words ->
  mem_block_to_mpi x a num_words w
  = Some ((0, read_back x (block_words (rsa_mem w) (fst a) (snd a) (Z.to_nat num_words))), w).
Proof.
  intros Hg. unfold mem_block_to_mpi.
  rewrite (mbind_step _ _ _ _ _ (grow_ok _ _ _ Hg)). cbn [Z.eqb negb].
  unfold esp_dport_access_read_buffer, mbind, gets, mret, read_back.
  set (ws := block_words (rsa_mem w) (fst a) (snd a) (Z.to_nat num_words)).
  assert (Hws : length ws = Z.to_nat num_words)
    by (unfold ws, block_words; rewrite length_map, length_seq; reflexivity).
  cbn [s p]. rewrite grown_sign. do 3 f_equal. f_equal.
  unfold zero_limbs_from. rewrite <- Hws.
  rewrite firstn_app, firstn_all, Nat.sub_diag, firstn_O, app_nil_r.
  f_equal. f_equal. rewrite length_app, length_skipn, grown_length. lia.
Qed.

Lemma mem_block_to_mpi_total x a num_words w :
  exists r x', mem_block_to_mpi x a num_words w = Some ((r, x'), w).
Proof.
  unfold mem_block_to_mpi.
  destruct (grow_total x num_words w) as (r & x' & Hg & _).
  rewrite (mbind_step _ _ _ _ _ Hg).
  destruct (r =? 0); cbn [negb]; eexists _, _; reflexivity.
Qed.

Lemma mem_block_to_mpi_fail x a num_words w :
  num_words <= MBEDTLS_MPI_MAX_LIMBS -> n x < num_words -> calloc_ok w num_words = false ->
  mem_block_to_mpi x a num_words w = Some ((MBEDTLS_ERR_MPI_ALLOC_FAILED, x), w).
Proof.
  intros Hmax Hn Hal. unfold mem_block_to_mpi, mbedtls_mpi_grow.
  destruct (Z.gtb_spec num_words MBEDTLS_MPI_MAX_LIMBS); [lia|].
  destruct (Z.ltb_spec (n x) num_words); [|lia].
  unfold mbind, gets. rewrite Hal. reflexivity.
Qed.

Lemma read_back_mag x ws : mpi_mag (read_back x ws) = limbs_val ws.
Proof.
  unfold read_back, mpi_mag; cbn [p]. rewrite limbs_val_app, limbs_val_repeat0. lia.
Qed.

Lemma read_back_sign x ws : s (read_back x ws) = s x.
Proof. reflexivity. Qed.

Lemma mem_block_to_mpi_cases x a num_words w :
  exists r x', mem_block_to_mpi x a num_words w = Some ((r, x'), w)
    /\ (can_grow w x num_words ->
        r = 0 /\ x' = read_back x (block_words (rsa_mem w) (fst a) (snd a) (Z.to_nat num_words))).
Proof.
  destruct (mem_block_to_mpi_total x a num_words w) as (r & x' & Hrun).
  exists r, x'. split; [exact Hrun|]. intros Hg.
  rewrite (mem_block_to_mpi_ok _ _ _ _ Hg) in Hrun. inversion Hrun. split; reflexivity.
Qed.

(** * What each step leaves of the world *)

Lemma reg_write_trace r v w : is_start r = false -> trace (reg_write r v w) = trace w.
Proof. destruct r; cbn; intros H; try discriminate; reflexivity. Qed.

Lemma reg_write_mem r v w : is_start r = false -> rsa_mem (reg_write r v w) = rsa_mem w.
Proof. destruct r; cbn; intros H; try discriminate; reflexivity. Qed.

Lemma reg_write_lock r v w : mpi_lock (reg_write r v w) = mpi_lock w.
Proof. destruct r; reflexivity. Qed.

Lemma reg_write_calloc r v w : calloc_ok (reg_write r v w) = calloc_ok w.
Proof. destruct r; reflexivity. Qed.

Lemma reg_write_reg r v w r' :
  rsa_reg (reg_write r v w) r' = if reg_eqb r r' then u32 v else rsa_reg w r'.
Proof. destruct r; reflexivity. Qed.

Lemma upd_mem_trace g w : trace (upd_mem g w) = trace w.
Proof. reflexivity. Qed.

Lemma upd_mem_mem g w : rsa_mem (upd_mem g w) = g (rsa_mem w).
Proof. reflexivity. Qed.

Lemma upd_mem_lock g w : mpi_lock (upd_mem g w) = mpi_lock w.
Proof. reflexivity. Qed.

Lemma upd_mem_calloc g w : calloc_ok (upd_mem g w) = calloc_ok w.
Proof. reflexivity. Qed.

Lemma upd_mem_reg g w : rsa_reg (upd_mem g w) = rsa_reg w.
Proof. reflexivity. Qed.

Lemma acquired_trace w : trace (acquired w) = EvAcquire :: trace w.
Proof. reflexivity. Qed.

Lemma acquired_mem w : rsa_mem (acquired w) = fun _ _ => 0.
Proof. reflexivity. Qed.

Lemma acquired_reg w : rsa_reg (acquired w) = fun _ => 0.
Proof. reflexivity. Qed.

Lemma acquired_lock w : mpi_lock (acquired w) = true.
Proof. reflexivity. Qed.

Lemma acquired_calloc w : calloc_ok (acquired w) = calloc_ok w.
Proof. reflexivity. Qed.

Lemma released_trace w : trace (released w) = EvRelease :: trace w.
Proof. reflexivity. Qed.

Lemma released_mem w : rsa_mem (released w) = rsa_mem w.
Proof. reflexivity. Qed.

Lemma released_reg w : rsa_reg (released w) = rsa_reg w.
Proof. reflexivity. Qed.

Lemma released_lock w : mpi_lock (released w) = false.
Proof. reflexivity. Qed.

Lemma released_calloc w : calloc_ok (released w) = calloc_ok w.
Proof. reflexivity. Qed.

(** ** A started operation *)

Lemma started_irq op w : is_start op = true -> rsa_irq (started op w) = true.
Proof. destruct op; cbn; intros H; try discriminate; reflexivity. Qed.

Lemma started_lock op w : mpi_lock (started op w) = mpi_lock w.
Proof. destruct op; reflexivity. Qed.

Lemma started_calloc op w : calloc_ok (started op w) = calloc_ok w.
Proof. destruct op; reflexivity. Qed.

Lemma started_reg op w r :
  reg_eqb op r = false -> reg_eqb RSA_INTERRUPT_REG r = false ->
  reg_eqb RSA_CLEAR_INTERRUPT_REG r = false ->
  rsa_reg (started op w) r = rsa_reg w r.
Proof.
  intros H1 H2 H3. unfold started. rewrite !reg_write_reg, H1, H2, H3. reflexivity.
Qed.

Lemma started_mod_mult_trace w :
  trace (started RSA_MOD_MULT_START_REG w) = EvOp (mod_operands w OpModMult) :: trace w.
Proof. reflexivity. Qed.

Lemma started_mod_mult_mem w :
  rsa_mem (started RSA_MOD_MULT_START_REG w)
  = let r := mod_operands w OpModMult in
    store_block (rsa_mem w) RSA_MEM_Z_BLOCK
      (to_limbs (op_words r)
         (hw_mod_mult (op_words r) (op_M r) (op_Mprime r) (op_Rinv r) (op_X r) (op_Y r))).
Proof. reflexivity. Qed.

Lemma started_mod_exp_trace w :
  trace (started RSA_MODEXP_START_REG w) = EvOp (mod_operands w OpModExp) :: trace w.
Proof. reflexivity. Qed.

Lemma started_mod_exp_mem w :
  rsa_mem (started RSA_MODEXP_START_REG w)
  = let r := mod_operands w OpModExp in
    store_block (rsa_mem w) RSA_MEM_Z_BLOCK
      (to_limbs (op_words r)
         (hw_mod_exp (op_words r) (op_M r) (op_Mprime r) (op_Rinv r) (op_X r) (op_Y r))).
Proof. reflexivity. Qed.

Lemma started_mult_trace w :
  trace (started RSA_MULT_START_REG w) = EvOp (mult_operands w) :: trace w.
Proof. reflexivity. Qed.

Lemma started_mult_mem w :
  rsa_mem (started RSA_MULT_START_REG w)
  = let r := mult_operands w in
    store_block (rsa_mem w) RSA_MEM_Z_BLOCK
      (to_limbs (2 * op_words r) (op_X r * op_Y r)).
Proof. reflexivity. Qed.

Create Rewrite HintDb world.

#[export] Hint Rewrite reg_write_trace reg_write_mem using reflexivity : world.
#[export] Hint Rewrite started_irq using reflexivity : world.
#[export] Hint Rewrite reg_write_lock reg_write_calloc reg_write_reg
  upd_mem_trace upd_mem_mem upd_mem_lock upd_mem_calloc upd_mem_reg
  acquired_trace acquired_mem acquired_reg acquired_lock acquired_calloc
  released_trace released_mem released_reg released_lock released_calloc
  started_lock started_calloc
  started_mod_mult_trace started_mod_mult_mem
  started_mod_exp_trace started_mod_exp_mem
  started_mult_trace started_mult_mem : world.

(** * Block contents after the driver's loops *)

Lemma block_words_write_seq_other m a i0 count f b off k :
  block_eqb (fst a) b = false ->
  block_words (write_seq m a i0 count f) b off k = block_words m b off k.
Proof.
  intros Hb. apply block_words_ext. intros i _. rewrite write_seq_read, Hb. reflexivity.
Qed.

Lemma block_words_store_word_other m a v b off k :
  block_eqb (fst a) b = false ->
  block_words (store_word m a v) b off k = block_words m b off k.
Proof.
  intros Hb. apply block_words_ext. intros i _. unfold store_word. rewrite Hb. reflexivity.
Qed.

Lemma block_words_store_block_other m b l b' off k :
  block_eqb b b' = false ->
  block_words (store_block m b l) b' off k = block_words m b' off k.
Proof.
  intros Hb. apply block_words_ext. intros i _. unfold store_block. rewrite Hb. reflexivity.
Qed.

Lemma map_const_seq {A} (c : A) a k : map (fun _ => c) (seq a k) = repeat c k.
Proof. revert a; induction k as [|k IH]; intros a; cbn [seq map repeat]; [|rewrite IH]; reflexivity. Qed.

Lemma block_words_all_ones m b k :
  block_words (write_seq m (b, 0%nat) 0 k (fun _ => UINT32_MAX)) b 0 k = repeat (wB - 1) k.
Proof.
  unfold block_words. rewrite <- (map_const_seq (wB - 1) 0 k).
  apply map_ext_in. intros i Hi. apply in_seq in Hi.
  rewrite write_seq_read. cbn [fst snd]. rewrite block_eqb_refl.
  replace (Nat.leb (0 + 0) (0 + i)) with true by (symmetry; apply Nat.leb_le; lia).
  replace (Nat.ltb (0 + i) (0 + 0 + k)) with true by (symmetry; apply Nat.ltb_lt; lia).
  reflexivity.
Qed.

Lemma limbs_val_all_ones k : limbs_val (repeat (wB - 1) k) = wB ^ Z.of_nat k - 1.
Proof.
  induction k as [|k IH]; cbn [repeat limbs_val]; [reflexivity|].
  rewrite IH, wB_pow_succ. ring.
Qed.

Lemma block_words_one m b k :
  (0 < k)%nat ->
  block_words (write_seq (store_word m (b, 0%nat) (u32 1)) (b, 0%nat) 1 (k - 1) (fun _ => 0))
              b 0 k = 1 :: repeat 0 (k - 1).
Proof.
  intros Hk. destruct k as [|k]; [lia|]. replace (S k - 1)%nat with k by lia.
  unfold block_words. rewrite <- cons_seq. cbn [map]. f_equal.
  - rewrite write_seq_read. cbn [fst snd Nat.add Nat.leb andb].
    rewrite andb_false_r. unfold store_word. cbn [fst snd]. rewrite block_eqb_refl. reflexivity.
  - rewrite <- (map_const_seq 0 1 k). apply map_ext_in. intros i Hi. apply in_seq in Hi.
    rewrite write_seq_read. cbn [fst snd]. rewrite block_eqb_refl.
    replace (Nat.leb (0 + 1) (0 + i)) with true by (symmetry; apply Nat.leb_le; lia).
    replace (Nat.ltb (0 + i) (0 + 1 + k)) with true by (symmetry; apply Nat.ltb_lt; lia).
    reflexivity.
Qed.

Lemma limbs_val_one k : limbs_val (1 :: repeat 0 k) = 1.
Proof. cbn [limbs_val]. rewrite limbs_val_repeat0. lia. Qed.

(** The magnitude a block holds after an integer was marshalled into it
    at a width that covers its significant words. *)
Lemma block_val_marshal m b mpi num_words :
  Forall is_word (p mpi) -> 0 <= num_words < 2 ^ 32 -> n mpi < 2 ^ 32 ->
  mpi_words mpi <= num_words ->
  block_val (marshal m (b, 0%nat) mpi num_words) b 0 (Z.to_nat num_words) = mpi_mag mpi.
Proof.
  intros Hl Hn Hlen Hw. unfold block_val.
  rewrite block_words_marshal_same by assumption.
  rewrite take_words_alt, limbs_val_app, limbs_val_repeat0, Z.mul_0_r, Z.add_0_r.
  apply limbs_val_firstn_sig. rewrite mpi_words_sig in Hw. lia.
Qed.

(** * The failover disguise *)

Lemma failover_run Zr X Y z_words w :
  Forall is_word (p X) -> Forall is_word (p Y) -> n X < 2 ^ 32 -> n Y < 2 ^ 32 ->
  mpi_words X <= z_words -> mpi_words Y <= z_words ->
  1 <= z_words < 2 ^ 32 ->
  mpi_lock w = false ->
  exists Zr' w',
    mpi_mult_mpi_failover_mod_mult Zr X Y z_words w = Some ((0, Zr'), w')
    /\ s Zr' = s Zr
    /\ trace w' = EvRelease
                  :: EvOp (mk_op OpModMult (Z.to_nat z_words) (wB ^ z_words - 1) 1 1
                                 (mpi_mag X) (mpi_mag Y))
                  :: EvAcquire :: trace w
    /\ mpi_lock w' = false /\ calloc_ok w' = calloc_ok w
    /\ (z_words <= MBEDTLS_MPI_MAX_LIMBS -> n Zr < z_words ->
        calloc_ok w z_words = false -> Zr' = Zr)
    /\ (can_grow w Zr z_words ->
        mpi_mag Zr' = hw_mod_mult (Z.to_nat z_words) (wB ^ z_words - 1) 1 1
                                  (mpi_mag X) (mpi_mag Y)).
Proof.
  intros HX HY HnX HnY HwX HwY Hz32 Hlock.
  unfold mpi_mult_mpi_failover_mod_mult.
  rewrite (mbind_step _ _ _ _ _ (acquire_run _ Hlock)).
  rewrite (mbind_step _ _ _ _ _ (for_loop_mem_write _ _ _ _ _)).
  rewrite (mbind_step _ _ _ _ _ (DPORT_REG_WRITE_run _ _ _)).
  rewrite (mbind_step _ _ _ _ _ (DPORT_REG_WRITE_run _ _ _)).
  rewrite (mbind_step _ _ _ _ _ (mpi_to_mem_block_run _ _ _ _)).
  rewrite (mbind_step _ _ _ _ _ (mpi_to_mem_block_run _ _ _ _)).
  rewrite (mbind_step _ _ _ _ _ (mem_write_run _ _ _)).
  rewrite (mbind_step _ _ _ _ _ (for_loop_mem_write _ _ _ _ _)).
  rewrite (mbind_step _ _ _ _ _ (start_op_run _ _)).
  match goal with |- context [started _ ?W] => set (W0 := W) end.
  set (k := Z.to_nat z_words) in *.
  assert (Hk : Z.of_nat k = z_words) by (unfold k; lia).
  assert (HmW0 : rsa_mem W0 =
                 write_seq
                   (store_word
                      (marshal
                         (marshal
                            (write_seq (fun _ _ => 0) RSA_MEM_M_BLOCK_BASE 0 k
                                       (fun _ => UINT32_MAX))
                            RSA_MEM_X_BLOCK_BASE X z_words)
                         RSA_MEM_Y_BLOCK_BASE Y z_words)
                      RSA_MEM_RB_BLOCK_BASE (u32 1))
                   RSA_MEM_RB_BLOCK_BASE 1 (k - 1) (fun _ => 0))
    by (unfold W0; autorewrite with world; reflexivity).
  assert (Hz32' : 0 <= z_words < 2 ^ 32) by lia.
  assert (Hops : mod_operands W0 OpModMult
                 = mk_op OpModMult k (wB ^ z_words - 1) 1 1 (mpi_mag X) (mpi_mag Y)).
  { unfold mod_operands. rewrite HmW0.
    assert (Hlen : rsa_reg W0 RSA_LENGTH_REG + 1 = z_words).
    { unfold W0. autorewrite with world. cbn [reg_eqb].
      rewrite u32_small by lia. lia. }
    rewrite Hlen. fold k.
    replace (rsa_reg W0 RSA_M_DASH_REG) with 1
      by (unfold W0; autorewrite with world; reflexivity).
    replace (rsa_reg W0 RSA_SEARCH_OPEN_REG) with 0
      by (unfold W0; autorewrite with world; reflexivity).
    unfold search_y. cbn [Z.eqb andb]. unfold block_val. f_equal.
    - rewrite block_words_write_seq_other, block_words_store_word_other by reflexivity.
      rewrite !block_words_marshal_other by (try reflexivity; assumption).
      rewrite (block_words_all_ones _ RSA_MEM_M_BLOCK k), limbs_val_all_ones, Hk. reflexivity.
    - rewrite (block_words_one _ RSA_MEM_RB_BLOCK k) by lia. apply limbs_val_one.
    - rewrite block_words_write_seq_other, block_words_store_word_other by reflexivity.
      rewrite block_words_marshal_other by (try reflexivity; assumption).
      apply (block_val_marshal _ RSA_MEM_X_BLOCK); assumption.
    - rewrite block_words_write_seq_other, block_words_store_word_other by reflexivity.
      apply (block_val_marshal _ RSA_MEM_Y_BLOCK); assumption. }
  assert (HtrW0 : trace W0 = EvAcquire :: trace w)
    by (unfold W0; autorewrite with world; reflexivity).
  assert (HalW0 : calloc_ok W0 = calloc_ok w)
    by (unfold W0; autorewrite with world; reflexivity).
  clearbody W0.
  rewrite (mbind_step _ _ _ _ _
             (wait_op_complete_run _ _ (started_irq RSA_MOD_MULT_START_REG W0 eq_refl))).
  match goal with |- context [mbind (mem_block_to_mpi _ _ _) _ ?W] => set (W2 := W) end.
  assert (HalW2 : calloc_ok W2 = calloc_ok w)
    by (unfold W2; autorewrite with world; exact HalW0).
  destruct (mem_block_to_mpi_cases Zr RSA_MEM_Z_BLOCK_BASE z_words W2)
    as (r & Zr' & Hrun & Hok).
  rewrite (mbind_step _ _ _ _ _ Hrun).
  rewrite (mbind_step _ _ _ _ _ (release_run _)).
  exists Zr', (released W2). split; [reflexivity|].
  assert (HsZ : s Zr' = s Zr).
  { clear - Hrun. unfold mem_block_to_mpi in Hrun.
    destruct (grow_total Zr z_words W2) as (r0 & x0 & Hg & Hne & He).
    rewrite (mbind_step _ _ _ _ _ Hg) in Hrun.
    destruct (Z.eqb_spec r0 0) as [E0|E0]; cbn [negb] in Hrun.
    - unfold mbind, esp_dport_access_read_buffer, gets, mret in Hrun.
      inversion Hrun; subst. cbn [s]. rewrite (He eq_refl), grown_sign. reflexivity.
    - inversion Hrun; subst. rewrite (Hne E0). reflexivity. }
  split; [exact HsZ|].
  split; [unfold W2; autorewrite with world; rewrite Hops, HtrW0; reflexivity|].
  split; [apply released_lock|].
  split; [rewrite released_calloc; exact HalW2|].
  split.
  { intros Hmax Hn Hc. rewrite <- HalW2 in Hc.
    rewrite (mem_block_to_mpi_fail _ _ _ _ Hmax Hn Hc) in Hrun. inversion Hrun. reflexivity. }
  intros Hgrow.
  assert (Hg2 : can_grow W2 Zr z_words).
  { destruct Hgrow as [Hmax Hal]. split; [exact Hmax|]. intros Hn.
    rewrite HalW2. exact (Hal Hn). }
  destruct (Hok Hg2) as [_ ->].
  rewrite read_back_mag. unfold W2. autorewrite with world. rewrite Hops.
  cbn [op_words op_M op_Mprime op_Rinv op_X op_Y fst snd RSA_MEM_Z_BLOCK_BASE].
  fold k.
  rewrite block_words_store_block by (rewrite to_limbs_length; lia).
  rewrite firstn_all2 by (rewrite to_limbs_length; lia).
  rewrite limbs_val_to_limbs, Hk.
  apply Z.mod_small.
  assert (HMpos : 0 < wB ^ z_words - 1).
  { assert (wB ^ 1 <= wB ^ z_words) by (apply Z.pow_le_mono_r; [apply wB_pos | lia]).
    rewrite Z.pow_1_r in H. pose proof wB_eq. lia. }
  pose proof (mont_mul_range (wB ^ z_words - 1) 1 HMpos k
                (mont_mul k (wB ^ z_words - 1) 1 (mpi_mag X) (mpi_mag Y)) 1) as Hr.
  unfold hw_mod_mult. lia.
Qed.

(** On the failover path the product is below the all-ones modulus. *)
Lemma product_below_all_ones X Y :
  Forall is_word (p X) -> Forall is_word (p Y) ->
  1 <= mpi_words X -> 1 <= mpi_words Y ->
  0 <= mpi_mag X * mpi_mag Y < wB ^ (mpi_words X + mpi_words Y) - 1.
Proof.
  intros HX HY H1 H2. rewrite !mpi_words_sig in *.
  pose proof (limbs_val_sig_upper _ HX) as Hx. pose proof (limbs_val_sig_upper _ HY) as Hy.
  fold (mpi_mag X) in Hx. fold (mpi_mag Y) in Hy.
  rewrite Z.pow_add_r by lia.
  assert (wB <= wB ^ Z.of_nat (sig_words (p X))).
  { replace wB with (wB ^ 1) at 1 by apply Z.pow_1_r.
    apply Z.pow_le_mono_r; [apply wB_pos | lia]. }
  assert (wB <= wB ^ Z.of_nat (sig_words (p Y))).
  { replace wB with (wB ^ 1) at 1 by apply Z.pow_1_r.
    apply Z.pow_le_mono_r; [apply wB_pos | lia]. }
  rewrite wB_eq in *. nia.
Qed.

(** * The container operations *)

Lemma alloc_ok_can_grow w X k : alloc_ok w -> k <= MBEDTLS_MPI_MAX_LIMBS -> can_grow w X k.
Proof. intros H Hk. split; [exact Hk | intros _; apply H]. Qed.

Lemma bitlen_mag_upper v : 0 <= v -> v < 2 ^ bitlen_mag v.
Proof.
  intros Hv. unfold bitlen_mag. destruct (Z.eqb_spec v 0) as [->|Hne]; [reflexivity|].
  replace (Z.log2 v + 1) with (Z.succ (Z.log2 v)) by lia. apply Z.log2_spec. lia.
Qed.

Lemma limbs_needed_nonneg v : 0 <= limbs_needed v.
Proof. unfold limbs_needed. pose proof (bitlen_mag_nonneg v). apply Z.div_pos; lia. Qed.

Lemma limbs_needed_fits v : 0 <= v -> v < wB ^ limbs_needed v.
Proof.
  intros Hv. pose proof (bitlen_mag_upper v Hv) as Hb. pose proof (bitlen_mag_nonneg v).
  unfold limbs_needed, wB. rewrite <- Z.pow_mul_r by (try apply Z.div_pos; lia).
  apply Z.lt_le_trans with (1 := Hb). apply Z.pow_le_mono_r; [lia|].
  pose proof (Z.div_mod (bitlen_mag v + 31) 32 ltac:(lia)).
  pose proof (Z.mod_pos_bound (bitlen_mag v + 31) 32 ltac:(lia)). lia.
Qed.

Lemma limbs_needed_le v (k : nat) : 0 <= v < wB ^ Z.of_nat k -> limbs_needed v <= Z.of_nat k.
Proof.
  intros [Hv Hk]. unfold limbs_needed, bitlen_mag.
  destruct (Z.eqb_spec v 0) as [->|Hne]; [cbn; lia|].
  rewrite wB_pow in Hk.
  assert (Z.log2 v < 32 * Z.of_nat k) by (apply Z.log2_lt_pow2; lia).
  apply Z.lt_succ_r. apply Z.div_lt_upper_bound; lia.
Qed.

Lemma mpi_assign_total X sg mag w :
  exists r X', mpi_assign X sg mag w = Some ((r, X'), w).
Proof.
  unfold mpi_assign.
  destruct (grow_total X (limbs_needed mag) w) as (r & X' & Hg & _).
  rewrite (mbind_step _ _ _ _ _ Hg).
  destruct (r =? 0); eexists _, _; reflexivity.
Qed.

Lemma mpi_assign_ok X sg mag w :
  alloc_ok w -> 0 <= mag -> limbs_needed mag <= MBEDTLS_MPI_MAX_LIMBS ->
  exists X', mpi_assign X sg mag w = Some ((0, X'), w)
             /\ s X' = sg /\ mpi_mag X' = mag /\ Forall is_word (p X')
             /\ length (p X') = Nat.max (length (p X)) (Z.to_nat (limbs_needed mag)).
Proof.
  intros Hal Hmag Hmax. unfold mpi_assign.
  rewrite (mbind_step _ _ _ _ _ (grow_ok _ _ _ (alloc_ok_can_grow w X _ Hal Hmax))).
  cbn [Z.eqb]. eexists. split; [reflexivity|]. cbn [s p mpi_mag].
  split; [reflexivity|]. unfold mpi_mag; cbn [p].
  rewrite to_limbs_length, grown_length.
  split; [|split; [apply to_limbs_words | reflexivity]].
  apply limbs_val_to_limbs_small. split; [exact Hmag|].
  apply Z.lt_le_trans with (1 := limbs_needed_fits mag Hmag).
  apply Z.pow_le_mono_r; [apply wB_pos|]. pose proof (limbs_needed_nonneg mag). lia.
Qed.

Lemma lset_total X z w : exists r X', mbedtls_mpi_lset X z w = Some ((r, X'), w).
Proof.
  unfold mbedtls_mpi_lset.
  destruct (grow_total X 1 w) as (r & X' & Hg & _).
  rewrite (mbind_step _ _ _ _ _ Hg).
  destruct (r =? 0); eexists _, _; reflexivity.
Qed.

Lemma lset_ok X z w :
  can_grow w X 1 -> Z.abs z < wB ->
  exists X', mbedtls_mpi_lset X z w = Some ((0, X'), w)
             /\ mpi_val X' = z /\ s X' = (if z <? 0 then -1 else 1)
             /\ Forall is_word (p X').
Proof.
  intros Hg Hz. unfold mbedtls_mpi_lset.
  rewrite (mbind_step _ _ _ _ _ (grow_ok _ _ _ Hg)). cbn [Z.eqb].
  eexists. split; [reflexivity|]. unfold mpi_val, mpi_mag. cbn [s p].
  split; [|split; [reflexivity | apply to_limbs_words]].
  rewrite limbs_val_to_limbs_small.
  - destruct (Z.ltb_spec z 0); lia.
  - rewrite grown_length. split; [lia|].
    apply Z.lt_le_trans with (1 := Hz).
    replace wB with (wB ^ 1) at 1 by apply Z.pow_1_r.
    apply Z.pow_le_mono_r; [apply wB_pos | lia].
Qed.

Lemma copy_total X Y w : exists r X', mbedtls_mpi_copy X Y w = Some ((r, X'), w).
Proof.
  unfold mbedtls_mpi_copy. destruct (p Y); [eexists _, _; reflexivity | apply mpi_assign_total].
Qed.

Lemma add_mpi_total X A B w : exists r X', mbedtls_mpi_add_mpi X A B w = Some ((r, X'), w).
Proof.
  unfold mbedtls_mpi_add_mpi.
  destruct (s A * s B <? 0); [destruct (mpi_mag A >=? mpi_mag B)|]; apply mpi_assign_total.
Qed.

Lemma shift_l_total X c w : exists r X', mbedtls_mpi_shift_l X c w = Some ((r, X'), w).
Proof. apply mpi_assign_total. Qed.

(** * The Montgomery residue constant *)

Lemma calculate_rinv_ok Rinv M (num_words : nat) w :
  alloc_ok w -> 0 < mpi_val M -> (num_words <= 128)%nat ->
  exists Rinv',
    calculate_rinv Rinv M (Z.of_nat num_words) w = Some ((0, Rinv'), w)
    /\ s Rinv' = 1
    /\ mpi_mag Rinv' = (wB ^ Z.of_nat num_words * wB ^ Z.of_nat num_words) mod mpi_val M
    /\ Forall is_word (p Rinv')
    /\ n Rinv' <= Z.max (n Rinv) 257.
Proof.
  intros Hal HM Hnw. unfold calculate_rinv.
  assert (Hpos : u32 (u32 (Z.of_nat num_words * 32) * 2) = 64 * Z.of_nat num_words).
  { rewrite (u32_small (Z.of_nat num_words * 32)) by (change (2 ^ 32) with 4294967296; lia).
    rewrite u32_small by (change (2 ^ 32) with 4294967296; lia). lia. }
  rewrite Hpos. unfold mbedtls_mpi_set_bit. cbn [Z.eqb].
  assert (Hbit : Z.setbit (mpi_mag mbedtls_mpi_init) (64 * Z.of_nat num_words)
                 = wB ^ Z.of_nat num_words * wB ^ Z.of_nat num_words).
  { change (mpi_mag mbedtls_mpi_init) with 0.
    rewrite Z.setbit_spec', Z.lor_0_l, !wB_pow, <- Z.pow_add_r by lia. f_equal. lia. }
  rewrite Hbit. set (RRv := wB ^ Z.of_nat num_words * wB ^ Z.of_nat num_words).
  assert (HRR : 0 < RRv) by (unfold RRv; pose proof (wB_pow_pos num_words); nia).
  assert (HRRn : limbs_needed RRv <= MBEDTLS_MPI_MAX_LIMBS).
  { apply Z.le_trans with (Z.of_nat (2 * num_words + 1)).
    - apply limbs_needed_le. split; [lia|]. unfold RRv.
      rewrite <- Z.pow_add_r by lia. apply Z.pow_lt_mono_r; [rewrite wB_eq; lia | lia | lia].
    - unfold MBEDTLS_MPI_MAX_LIMBS. lia. }
  destruct (mpi_assign_ok mbedtls_mpi_init (s mbedtls_mpi_init) RRv w Hal ltac:(lia) HRRn)
    as (RR & HRRrun & HsRR & HmRR & _).
  rewrite (mbind_step _ _ _ _ _ HRRrun). cbn [Z.eqb negb].
  unfold mbedtls_mpi_mod_mpi, mbedtls_mpi_cmp_int.
  destruct (Z.compare_spec (mpi_val M) 0) as [E|E|E]; try lia. cbn [Z.ltb Z.eqb Z.compare].
  assert (HRRval : mpi_val RR = RRv) by (unfold mpi_val; rewrite HsRR, HmRR; change (s mbedtls_mpi_init) with 1; lia).
  rewrite HRRval.
  pose proof (Z.mod_pos_bound RRv (mpi_val M) HM) as Hr.
  assert (Hrn : limbs_needed (RRv mod mpi_val M) <= MBEDTLS_MPI_MAX_LIMBS).
  { apply Z.le_trans with (Z.of_nat (2 * num_words + 1)); [|unfold MBEDTLS_MPI_MAX_LIMBS; lia].
    apply limbs_needed_le. split; [lia|].
    apply Z.le_lt_trans with RRv; [apply Z.mod_le; lia|].
    unfold RRv. rewrite <- Z.pow_add_r by lia.
    apply Z.pow_lt_mono_r; [rewrite wB_eq; lia | lia | lia]. }
  assert (Hrn' : limbs_needed (RRv mod mpi_val M) <= Z.of_nat (2 * num_words + 1)).
  { apply limbs_needed_le. split; [lia|].
    apply Z.le_lt_trans with RRv; [apply Z.mod_le; lia|].
    unfold RRv. rewrite <- Z.pow_add_r by lia.
    apply Z.pow_lt_mono_r; [rewrite wB_eq; lia | lia | lia]. }
  destruct (mpi_assign_ok Rinv 1 (RRv mod mpi_val M) w Hal ltac:(lia) Hrn)
    as (R' & HRrun & HsR & HmR & HwR & HlR).
  rewrite (mbind_step _ _ _ _ _ HRrun).
  exists R'. repeat split; try assumption.
  unfold n. rewrite HlR. pose proof (limbs_needed_nonneg (RRv mod mpi_val M)). lia.
Qed.

(** * Widths *)

Lemma sig_words_bound l (k : nat) :
  Forall is_word l -> limbs_val l < wB ^ Z.of_nat k -> (sig_words l <= k)%nat.
Proof.
  intros Hl Hk. destruct (Nat.le_gt_cases (sig_words l) k) as [H|H]; [exact H|].
  pose proof (limbs_val_sig_lower l Hl ltac:(lia)) as Hlo.
  assert (wB ^ Z.of_nat k <= wB ^ Z.of_nat (sig_words l - 1))
    by (apply Z.pow_le_mono_r; [apply wB_pos | lia]).
  lia.
Qed.

Lemma mpi_words_range X : mpi_wf X -> 0 <= mpi_words X <= MBEDTLS_MPI_MAX_LIMBS.
Proof.
  intros (_ & _ & Hn). rewrite mpi_words_sig. pose proof (sig_words_le (p X)). unfold n in Hn. lia.
Qed.

Lemma MAX_spec a b : MAX a b = Z.max a b.
Proof. unfold MAX. destruct (Z.gtb_spec a b); lia. Qed.

Lemma mpi_mag_nonneg X : Forall is_word (p X) -> 0 <= mpi_mag X.
Proof. intros H. apply (limbs_val_bound _ H). Qed.

Lemma mpi_mag_lt_words X : Forall is_word (p X) -> mpi_mag X < wB ^ mpi_words X.
Proof. intros H. rewrite mpi_words_sig. apply (limbs_val_sig_upper _ H). Qed.

Lemma mpi_val_pos_mag M : mpi_wf M -> 0 < mpi_val M -> mpi_val M = mpi_mag M /\ 0 < mpi_mag M.
Proof.
  intros ([Hs|Hs] & Hl & _) Hpos; unfold mpi_val in *; rewrite Hs in *;
    pose proof (mpi_mag_nonneg M Hl); lia.
Qed.

Lemma bitlen_mag_le v (k : nat) : 0 <= v < wB ^ Z.of_nat k -> bitlen_mag v <= 32 * Z.of_nat k.
Proof.
  intros [Hv Hk]. unfold bitlen_mag. destruct (Z.eqb_spec v 0) as [->|Hne]; [lia|].
  rewrite wB_pow in Hk.
  assert (Z.log2 v < 32 * Z.of_nat k) by (apply Z.log2_lt_pow2; lia). lia.
Qed.

(** The search position the driver writes never hides a bit of [Y]. *)
Lemma search_y_bitlen (k : nat) Y :
  0 <= Y < wB ^ Z.of_nat k -> 32 * Z.of_nat k < 2 ^ 32 ->
  search_y 1 (u32 (bitlen_mag Y - 1)) k Y = Y.
Proof.
  intros HY Hk. unfold search_y. cbn [Z.eqb andb].
  pose proof (bitlen_mag_le Y k HY) as Hle. pose proof (bitlen_mag_nonneg Y) as Hge.
  destruct (Z.eq_dec (bitlen_mag Y) 0) as [E|E].
  - rewrite E. change (u32 (0 - 1)) with (2 ^ 32 - 1).
    destruct (Z.ltb_spec (2 ^ 32 - 1 + 1) (32 * Z.of_nat k)); [lia | reflexivity].
  - rewrite u32_small by lia.
    destruct (Z.ltb_spec (bitlen_mag Y - 1 + 1) (32 * Z.of_nat k)); [|reflexivity].
    apply Z.mod_small. split; [lia|].
    replace (bitlen_mag Y - 1 + 1) with (bitlen_mag Y) by lia.
    apply bitlen_mag_upper; lia.
Qed.

(** * Modular multiplication *)

Lemma mod_width_covers X Y M :
  mpi_words M <= mod_width X Y M /\ mpi_words X <= mod_width X Y M
  /\ mpi_words Y <= mod_width X Y M.
Proof. unfold mod_width. rewrite !MAX_spec. lia. Qed.

Lemma u32_u32 x : u32 (u32 x) = u32 x.
Proof. unfold u32. apply Z.mod_mod. lia. Qed.

Lemma modular_inverse_u32 M : u32 (modular_inverse M) = modular_inverse M.
Proof. unfold modular_inverse. apply u32_u32. Qed.

(** The run of [esp_mpi_mul_mpi_mod] once the width is accepted: the
    operation the peripheral sees, the register left at the search
    position, and the integer read back. *)
Lemma mul_mod_run Zr X Y M w :
  mpi_wf X -> mpi_wf Y -> mpi_wf M ->
  0 < mpi_val M ->
  mod_width X Y M * 32 <= 4096 ->
  alloc_ok w -> mpi_lock w = false ->
  exists Rinv Zr' w',
    esp_mpi_mul_mpi_mod Zr X Y M w = Some ((0, Zr'), w')
    /\ mpi_mag Rinv = (wB ^ mod_width X Y M * wB ^ mod_width X Y M) mod mpi_mag M
    /\ s Zr' = s Zr
    /\ mpi_mag Zr'
       = hw_mod_mult (Z.to_nat (mod_width X Y M)) (mpi_mag M) (modular_inverse M)
                     (mpi_mag Rinv) (mpi_mag X) (mpi_mag Y) mod wB ^ mpi_words M
    /\ trace w' = EvRelease
                  :: EvOp (mk_op OpModMult (Z.to_nat (mod_width X Y M)) (mpi_mag M)
                                 (modular_inverse M) (mpi_mag Rinv) (mpi_mag X) (mpi_mag Y))
                  :: EvAcquire :: trace w
    /\ rsa_reg w' RSA_SEARCH_POS_REG = u32 (mbedtls_mpi_bitlen Y - 1)
    /\ mpi_lock w' = false /\ calloc_ok w' = calloc_ok w.
Proof.
  intros HX HY HM HMpos Hwidth Hal Hlock.
  destruct (mod_width_covers X Y M) as (HcM & HcX & HcY).
  pose proof (mpi_words_range X HX) as HrX. pose proof (mpi_words_range Y HY) as HrY.
  pose proof (mpi_words_range M HM) as HrM.
  destruct (mpi_val_pos_mag M HM HMpos) as [HMval HMmag].
  destruct HX as (_ & HlX & HnX). destruct HY as (_ & HlY & HnY). destruct HM as (_ & HlM & HnM).
  unfold MBEDTLS_MPI_MAX_LIMBS in *.
  set (nw := mod_width X Y M) in *.
  assert (Hnw1 : 1 <= nw).
  { assert (0 < mpi_words M); [|lia]. rewrite mpi_words_sig.
    destruct (sig_words (p M)) eqn:E; [|lia].
    apply (sig_words_zero _ HlM) in E. unfold mpi_mag in HMmag. lia. }
  set (k := Z.to_nat nw). assert (Hk : Z.of_nat k = nw) by (unfold k; lia).
  unfold esp_mpi_mul_mpi_mod. fold (mod_width X Y M). fold nw.
  rewrite u32_small by (change (2 ^ 32) with 4294967296; lia).
  destruct (Z.gtb_spec (nw * 32) 4096) as [Hgt|_]; [lia|].
  destruct (calculate_rinv_ok mbedtls_mpi_init M k w Hal HMpos ltac:(lia))
    as (Rinv & HRrun & HsR & HmR & HlR & HnR).
  rewrite Hk in HRrun, HmR. rewrite HMval in HmR.
  rewrite (mbind_step _ _ _ _ _ HRrun). cbn [Z.eqb negb].
  rewrite (mbind_step _ _ _ _ _ (acquire_run _ Hlock)).
  rewrite (mbind_step _ _ _ _ _ (DPORT_REG_WRITE_run _ _ _)).
  rewrite (mbind_step _ _ _ _ _ (DPORT_REG_WRITE_run _ _ _)).
  rewrite (mbind_step _ _ _ _ _ (mpi_to_mem_block_run _ _ _ _)).
  rewrite (mbind_step _ _ _ _ _ (mpi_to_mem_block_run _ _ _ _)).
  rewrite (mbind_step _ _ _ _ _ (mpi_to_mem_block_run _ _ _ _)).
  rewrite (mbind_step _ _ _ _ _ (mpi_to_mem_block_run _ _ _ _)).
  rewrite (mbind_step _ _ _ _ _ (DPORT_REG_WRITE_run _ _ _)).
  rewrite (mbind_step _ _ _ _ _ (DPORT_REG_WRITE_run _ _ _)).
  rewrite (mbind_step _ _ _ _ _ (DPORT_REG_WRITE_run _ _ _)).
  rewrite (mbind_step _ _ _ _ _ (start_op_run _ _)).
  match goal with |- context [started _ ?W] => set (W0 := W) end.
  assert (Hnw32 : 0 <= nw < 2 ^ 32) by (change (2 ^ 32) with 4294967296; lia).
  assert (HnR32 : n Rinv < 2 ^ 32)
    by (change (n mbedtls_mpi_init) with 0 in HnR; change (2 ^ 32) with 4294967296; lia).
  assert (HnX32 : n X < 2 ^ 32) by (change (2 ^ 32) with 4294967296; lia).
  assert (HnY32 : n Y < 2 ^ 32) by (change (2 ^ 32) with 4294967296; lia).
  assert (HnM32 : n M < 2 ^ 32) by (change (2 ^ 32) with 4294967296; lia).
  assert (HRw : mpi_words Rinv <= nw).
  { rewrite mpi_words_sig, <- Hk. apply inj_le. apply sig_words_bound; [exact HlR|].
    fold (mpi_mag Rinv). rewrite HmR, Hk.
    pose proof (Z.mod_pos_bound (wB ^ nw * wB ^ nw) (mpi_mag M) HMmag).
    pose proof (mpi_mag_lt_words M HlM).
    assert (wB ^ mpi_words M <= wB ^ nw) by (apply Z.pow_le_mono_r; [apply wB_pos | lia]).
    lia. }
  assert (HYk : 0 <= mpi_mag Y < wB ^ Z.of_nat k).
  { split; [apply mpi_mag_nonneg, HlY|]. rewrite Hk.
    apply Z.lt_le_trans with (1 := mpi_mag_lt_words Y HlY).
    apply Z.pow_le_mono_r; [apply wB_pos | lia]. }
  assert (HregP : rsa_reg W0 RSA_SEARCH_POS_REG = u32 (mbedtls_mpi_bitlen Y - 1))
    by (unfold W0; autorewrite with world; reflexivity).
  assert (Hops : mod_operands W0 OpModMult
                 = mk_op OpModMult k (mpi_mag M) (modular_inverse M) (mpi_mag Rinv)
                         (mpi_mag X) (mpi_mag Y)).
  { unfold mod_operands. rewrite HregP.
    assert (Hlen : rsa_reg W0 RSA_LENGTH_REG + 1 = nw).
    { unfold W0. autorewrite with world. cbn [reg_eqb].
      rewrite u32_small by lia. lia. }
    rewrite Hlen. fold k.
    replace (rsa_reg W0 RSA_M_DASH_REG) with (modular_inverse M)
      by (unfold W0; autorewrite with world; cbn [reg_eqb]; symmetry; apply modular_inverse_u32).
    replace (rsa_reg W0 RSA_SEARCH_OPEN_REG) with 1
      by (unfold W0; autorewrite with world; reflexivity).
    replace (rsa_mem W0) with
      (marshal
         (marshal
            (marshal
               (marshal (fun _ _ => 0) RSA_MEM_M_BLOCK_BASE M nw)
               RSA_MEM_RB_BLOCK_BASE Rinv nw)
            RSA_MEM_X_BLOCK_BASE X nw)
         RSA_MEM_Y_BLOCK_BASE Y nw)
      by (unfold W0; autorewrite with world; reflexivity).
    unfold block_val. f_equal.
    - rewrite !block_words_marshal_other by (try reflexivity; assumption).
      apply (block_val_marshal _ RSA_MEM_M_BLOCK); assumption.
    - rewrite !block_words_marshal_other by (try reflexivity; assumption).
      apply (block_val_marshal _ RSA_MEM_RB_BLOCK); assumption.
    - rewrite !block_words_marshal_other by (try reflexivity; assumption).
      apply (block_val_marshal _ RSA_MEM_X_BLOCK); assumption.
    - fold (block_val (marshal
         (marshal
            (marshal
               (marshal (fun _ _ => 0) RSA_MEM_M_BLOCK_BASE M nw)
               RSA_MEM_RB_BLOCK_BASE Rinv nw)
            RSA_MEM_X_BLOCK_BASE X nw)
         RSA_MEM_Y_BLOCK_BASE Y nw) RSA_MEM_Y_BLOCK 0 k).
      rewrite (block_val_marshal _ RSA_MEM_Y_BLOCK) by assumption.
      unfold mbedtls_mpi_bitlen. apply search_y_bitlen; [exact HYk | lia]. }
  assert (HtrW0 : trace W0 = EvAcquire :: trace w)
    by (unfold W0; autorewrite with world; reflexivity).
  assert (HalW0 : calloc_ok W0 = calloc_ok w)
    by (unfold W0; autorewrite with world; reflexivity).
  clearbody W0.
  rewrite (mbind_step _ _ _ _ _
             (wait_op_complete_run _ _ (started_irq RSA_MOD_MULT_START_REG W0 eq_refl))).
  rewrite (mbind_step _ _ _ _ _ (DPORT_REG_WRITE_run _ _ _)).
  match goal with |- context [mbind (mem_block_to_mpi _ _ _) _ ?W] => set (W2 := W) end.
  assert (Hg2 : can_grow W2 Zr (mpi_words M)).
  { apply alloc_ok_can_grow; [|unfold MBEDTLS_MPI_MAX_LIMBS; lia].
    intros j. unfold W2. autorewrite with world. rewrite HalW0. apply Hal. }
  rewrite (mbind_step _ _ _ _ _ (mem_block_to_mpi_ok _ _ _ _ Hg2)).
  rewrite (mbind_step _ _ _ _ _ (release_run _)).
  exists Rinv. eexists _, _. split; [reflexivity|].
  split; [exact HmR|].
  split; [reflexivity|].
  split.
  { rewrite read_back_mag. unfold W2. autorewrite with world. rewrite Hops.
    cbn [op_words op_M op_Mprime op_Rinv op_X op_Y fst snd RSA_MEM_Z_BLOCK_BASE].
    rewrite block_words_store_block by (rewrite to_limbs_length; lia).
    rewrite firstn_to_limbs by lia. rewrite limbs_val_to_limbs.
    rewrite Z2Nat.id by lia. reflexivity. }
  split.
  { unfold W2. autorewrite with world. rewrite Hops, HtrW0. reflexivity. }
  split.
  { unfold W2. autorewrite with world. cbn [reg_eqb].
    rewrite started_reg by reflexivity. exact HregP. }
  split; [apply released_lock|].
  unfold W2. autorewrite with world. exact HalW0.
Qed.

(** * Modular multiplication: the value *)

Lemma land_1_odd a : (Z.land a 1 =? 0) = negb (Z.odd a).
Proof.
  change 1 with (Z.ones 1). rewrite Z.land_ones by lia. change (2 ^ 1) with 2.
  rewrite Zmod_odd. destruct (Z.odd a); reflexivity.
Qed.

Lemma low_limb_odd X : Forall is_word (p X) ->
  (Z.land (nth 0 (p X) 0) 1 =? 0) = negb (Z.odd (mpi_mag X)).
Proof. intros H. rewrite land_1_odd. unfold mpi_mag. rewrite (limbs_val_odd _ H). reflexivity. Qed.

Lemma mul_mod_magnitude Zr X Y M w :
  mpi_wf X -> mpi_wf Y -> mpi_wf M ->
  0 < mpi_val M -> Z.odd (mpi_val M) = true ->
  mod_width X Y M * 32 <= 4096 ->
  alloc_ok w -> mpi_lock w = false ->
  exists Zr' w',
    esp_mpi_mul_mpi_mod Zr X Y M w = Some ((0, Zr'), w')
    /\ s Zr' = s Zr
    /\ mpi_mag Zr' = (mpi_mag X * mpi_mag Y) mod mpi_val M
    /\ mpi_lock w' = false.
Proof.
  intros HX HY HM HMpos HModd Hwidth Hal Hlock.
  destruct (mul_mod_run Zr X Y M w HX HY HM HMpos Hwidth Hal Hlock)
    as (Rinv & Zr' & w' & Hrun & HmR & HsZ & HmZ & _ & _ & Hlk & _).
  destruct (mpi_val_pos_mag M HM HMpos) as [HMval HMmag].
  destruct HM as (_ & HlM & _).
  exists Zr', w'. repeat split; try assumption.
  rewrite HmZ, HMval. rewrite HMval in HModd.
  assert (Hnw : 0 <= mod_width X Y M).
  { pose proof (mod_width_covers X Y M). rewrite mpi_words_sig in *. lia. }
  set (k := Z.to_nat (mod_width X Y M)) in *.
  assert (Hk : Z.of_nat k = mod_width X Y M) by (unfold k; lia).
  destruct (pow_wB_inverse (mpi_mag M) k HMmag HModd) as [Ri HRi].
  destruct (modular_inverse_correct M HlM HModd) as [_ HMp].
  rewrite (hw_mod_mult_spec (mpi_mag M) (modular_inverse M) HMmag HMp k Ri HRi (mpi_mag Rinv)).
  - apply Z.mod_small. pose proof (Z.mod_pos_bound (mpi_mag X * mpi_mag Y) (mpi_mag M) HMmag).
    pose proof (mpi_mag_lt_words M HlM). lia.
  - rewrite HmR, Hk. apply cong_mod.
Qed.

(** * Modular exponentiation *)

Lemma exp_width_eq X Y M :
  MAX (mpi_words M) (MAX (mpi_words X) (mpi_words Y)) = mod_width X Y M.
Proof. unfold mod_width. rewrite !MAX_spec. lia. Qed.

Lemma cmp_int_pos X : 0 < mpi_val X -> mbedtls_mpi_cmp_int X 0 = 1.
Proof. intros H. unfold mbedtls_mpi_cmp_int. destruct (Z.compare_spec (mpi_val X) 0); lia. Qed.

Lemma cmp_int_zero X : mpi_val X = 0 -> mbedtls_mpi_cmp_int X 0 = 0.
Proof. intros H. unfold mbedtls_mpi_cmp_int. rewrite H. reflexivity. Qed.

Lemma cmp_int_neg X : mpi_val X < 0 -> mbedtls_mpi_cmp_int X 0 = -1.
Proof. intros H. unfold mbedtls_mpi_cmp_int. destruct (Z.compare_spec (mpi_val X) 0); lia. Qed.

Lemma exp_mod_run Zr X Y M _Rinv w :
  mpi_wf X -> mpi_wf Y -> mpi_wf M ->
  0 < mpi_val M -> Z.odd (mpi_val M) = true -> 0 < mpi_val Y ->
  mod_width X Y M * 32 <= 4096 ->
  rinv_cache_ok M (mod_width X Y M) _Rinv ->
  alloc_ok w -> mpi_lock w = false ->
  exists Zr' cache' w',
    mbedtls_mpi_exp_mod Zr X Y M _Rinv w = Some ((0, Zr', cache'), w')
    /\ mpi_val Zr' = exp_mod_result X Y M
    /\ rinv_cache_ok M (mod_width X Y M) cache'
    /\ (_Rinv = None -> cache' = None)
    /\ trace w' = EvRelease
                  :: EvOp (mk_op OpModExp (Z.to_nat (mod_width X Y M)) (mpi_mag M)
                                 (modular_inverse M)
                                 ((wB ^ mod_width X Y M * wB ^ mod_width X Y M) mod mpi_mag M)
                                 (mpi_mag X) (mpi_mag Y))
                  :: EvAcquire :: trace w
    /\ mpi_lock w' = false /\ calloc_ok w' = calloc_ok w.
Proof.
  intros HX HY HM HMpos HModd HYpos Hwidth Hcache Hal Hlock.
  destruct (mod_width_covers X Y M) as (HcM & HcX & HcY).
  pose proof (mpi_words_range X HX) as HrX. pose proof (mpi_words_range Y HY) as HrY.
  pose proof (mpi_words_range M HM) as HrM.
  destruct (mpi_val_pos_mag M HM HMpos) as [HMval HMmag].
  destruct (mpi_val_pos_mag Y HY HYpos) as [HYval HYmag].
  assert (HsM : s M = 1).
  { destruct HM as ([Hs|Hs] & HlM' & _); [exact Hs|].
    pose proof (mpi_mag_nonneg M HlM'). unfold mpi_val in HMpos. rewrite Hs in HMpos. lia. }
  destruct HX as (_ & HlX & HnX). destruct HY as (_ & HlY & HnY). destruct HM as (_ & HlM & HnM).
  unfold MBEDTLS_MPI_MAX_LIMBS in *.
  set (nw := mod_width X Y M) in *.
  assert (Hnw1 : 1 <= nw).
  { assert (0 < mpi_words M); [|lia]. rewrite mpi_words_sig.
    destruct (sig_words (p M)) eqn:E; [|lia].
    apply (sig_words_zero _ HlM) in E. unfold mpi_mag in HMmag. lia. }
  set (k := Z.to_nat nw). assert (Hk : Z.of_nat k = nw) by (unfold k; lia).
  assert (Hnw32 : 0 <= nw < 2 ^ 32) by (change (2 ^ 32) with 4294967296; lia).
  assert (HnX32 : n X < 2 ^ 32) by (change (2 ^ 32) with 4294967296; lia).
  assert (HnY32 : n Y < 2 ^ 32) by (change (2 ^ 32) with 4294967296; lia).
  assert (HnM32 : n M < 2 ^ 32) by (change (2 ^ 32) with 4294967296; lia).
  unfold mbedtls_mpi_exp_mod. rewrite exp_width_eq. fold nw.
  rewrite (cmp_int_pos M HMpos), (cmp_int_pos Y HYpos).
  rewrite (low_limb_odd M HlM). rewrite HMval in HModd. rewrite HModd.
  cbn [Z.leb Z.ltb Z.eqb Z.compare negb orb].
  rewrite u32_small by lia.
  destruct (Z.gtb_spec (nw * 32) 4096) as [Hgt|_]; [lia|].
  (* the residue constant, derived or cached *)
  set (Rinv0 := match _Rinv with None => mbedtls_mpi_init | Some r => r end).
  assert (HR : exists Rinv,
             (match p Rinv0 with
              | [] => calculate_rinv Rinv0 M nw
              | _ :: _ => mret (0, Rinv0)
              end) w = Some ((0, Rinv), w)
             /\ Forall is_word (p Rinv) /\ n Rinv < 2 ^ 32
             /\ mpi_mag Rinv = (wB ^ nw * wB ^ nw) mod mpi_val M).
  { destruct (p Rinv0) eqn:Ep.
    - destruct (calculate_rinv_ok Rinv0 M k w Hal HMpos ltac:(lia))
        as (R & HRrun & _ & HmR & HlR & HnR).
      rewrite Hk in HRrun, HmR. exists R. repeat split; try assumption.
      unfold n in HnR at 2. rewrite Ep in HnR. cbn [length] in HnR.
      change (2 ^ 32) with 4294967296. lia.
    - exists Rinv0. split; [reflexivity|].
      unfold Rinv0 in Ep |- *. destruct _Rinv as [r|]; [|discriminate Ep].
      cbn [rinv_cache_ok] in Hcache. destruct Hcache as [He|Hc]; [congruence | exact Hc]. }
  destruct HR as (Rinv & HRrun & HlR & HnR32 & HmR).
  rewrite (mbind_step _ _ _ _ _ HRrun). cbn [Z.eqb negb].
  rewrite HMval in HmR.
  assert (HRw : mpi_words Rinv <= nw).
  { rewrite mpi_words_sig, <- Hk. apply inj_le. apply sig_words_bound; [exact HlR|].
    fold (mpi_mag Rinv). rewrite HmR, Hk.
    pose proof (Z.mod_pos_bound (wB ^ nw * wB ^ nw) (mpi_mag M) HMmag).
    pose proof (mpi_mag_lt_words M HlM).
    assert (wB ^ mpi_words M <= wB ^ nw) by (apply Z.pow_le_mono_r; [apply wB_pos | lia]).
    lia. }
  rewrite (mbind_step _ _ _ _ _ (acquire_run _ Hlock)).
  rewrite (mbind_step _ _ _ _ _ (DPORT_REG_WRITE_run _ _ _)).
  rewrite (mbind_step _ _ _ _ _ (mpi_to_mem_block_run _ _ _ _)).
  rewrite (mbind_step _ _ _ _ _ (mpi_to_mem_block_run _ _ _ _)).
  rewrite (mbind_step _ _ _ _ _ (mpi_to_mem_block_run _ _ _ _)).
  rewrite (mbind_step _ _ _ _ _ (mpi_to_mem_block_run _ _ _ _)).
  rewrite (mbind_step _ _ _ _ _ (DPORT_REG_WRITE_run _ _ _)).
  rewrite (mbind_step _ _ _ _ _ (DPORT_REG_WRITE_run _ _ _)).
  rewrite (mbind_step _ _ _ _ _ (DPORT_REG_WRITE_run _ _ _)).
  rewrite (mbind_step _ _ _ _ _ (DPORT_REG_WRITE_run _ _ _)).
  rewrite (mbind_step _ _ _ _ _ (start_op_run _ _)).
  match goal with |- context [started _ ?W] => set (W0 := W) end.
  assert (HYk : 0 <= mpi_mag Y < wB ^ Z.of_nat k).
  { split; [apply mpi_mag_nonneg, HlY|]. rewrite Hk.
    apply Z.lt_le_trans with (1 := mpi_mag_lt_words Y HlY).
    apply Z.pow_le_mono_r; [apply wB_pos | lia]. }
  assert (Hops : mod_operands W0 OpModExp
                 = mk_op OpModExp k (mpi_mag M) (modular_inverse M) (mpi_mag Rinv)
                         (mpi_mag X) (mpi_mag Y)).
  { unfold mod_operands.
    assert (Hlen : rsa_reg W0 RSA_LENGTH_REG + 1 = nw).
    { unfold W0. autorewrite with world. cbn [reg_eqb].
      rewrite u32_small by lia. lia. }
    rewrite Hlen. fold k.
    replace (rsa_reg W0 RSA_M_DASH_REG) with (modular_inverse M)
      by (unfold W0; autorewrite with world; cbn [reg_eqb]; symmetry; apply modular_inverse_u32).
    replace (rsa_reg W0 RSA_SEARCH_OPEN_REG) with 1
      by (unfold W0; autorewrite with world; reflexivity).
    replace (rsa_reg W0 RSA_SEARCH_POS_REG) with (u32 (mbedtls_mpi_bitlen Y - 1))
      by (unfold W0; autorewrite with world; reflexivity).
    replace (rsa_mem W0) with
      (marshal
         (marshal
            (marshal
               (marshal (fun _ _ => 0) RSA_MEM_X_BLOCK_BASE X nw)
               RSA_MEM_Y_BLOCK_BASE Y nw)
            RSA_MEM_M_BLOCK_BASE M nw)
         RSA_MEM_RB_BLOCK_BASE Rinv nw)
      by (unfold W0; autorewrite with world; reflexivity).
    f_equal.
    - unfold block_val. rewrite !block_words_marshal_other by (try reflexivity; assumption).
      apply (block_val_marshal _ RSA_MEM_M_BLOCK); assumption.
    - apply (block_val_marshal _ RSA_MEM_RB_BLOCK); assumption.
    - unfold block_val. rewrite !block_words_marshal_other by (try reflexivity; assumption).
      apply (block_val_marshal _ RSA_MEM_X_BLOCK); assumption.
    - replace (block_val _ RSA_MEM_Y_BLOCK 0 k) with (mpi_mag Y).
      + unfold mbedtls_mpi_bitlen. apply search_y_bitlen; [exact HYk | lia].
      + symmetry. unfold block_val.
        rewrite !block_words_marshal_other by (try reflexivity; assumption).
        apply (block_val_marshal _ RSA_MEM_Y_BLOCK); assumption. }
  assert (HtrW0 : trace W0 = EvAcquire :: trace w)
    by (unfold W0; autorewrite with world; reflexivity).
  assert (HalW0 : calloc_ok W0 = calloc_ok w)
    by (unfold W0; autorewrite with world; reflexivity).
  clearbody W0.
  rewrite (mbind_step _ _ _ _ _
             (wait_op_complete_run _ _ (started_irq RSA_MODEXP_START_REG W0 eq_refl))).
  rewrite (mbind_step _ _ _ _ _ (DPORT_REG_WRITE_run _ _ _)).
  match goal with |- context [mbind (mem_block_to_mpi _ _ _) _ ?W] => set (W2 := W) end.
  assert (HalW2 : calloc_ok W2 = calloc_ok w)
    by (unfold W2; autorewrite with world; exact HalW0).
  assert (Hal2 : alloc_ok W2) by (intros j; rewrite HalW2; apply Hal).
  assert (Hg2 : can_grow W2 Zr (mpi_words M))
    by (apply alloc_ok_can_grow; [exact Hal2 | unfold MBEDTLS_MPI_MAX_LIMBS; lia]).
  rewrite (mbind_step _ _ _ _ _ (mem_block_to_mpi_ok _ _ _ _ Hg2)).
  rewrite (mbind_step _ _ _ _ _ (release_run _)).
  set (Z1 := read_back Zr (block_words (rsa_mem W2) (fst RSA_MEM_Z_BLOCK_BASE)
                                       (snd RSA_MEM_Z_BLOCK_BASE) (Z.to_nat (mpi_words M)))).
  assert (HZ1 : mpi_mag Z1 = exp_mod_raw X Y M).
  { unfold Z1. rewrite read_back_mag. unfold W2. autorewrite with world. rewrite Hops.
    cbn [op_words op_M op_Mprime op_Rinv op_X op_Y fst snd RSA_MEM_Z_BLOCK_BASE].
    rewrite block_words_store_block by (rewrite to_limbs_length; lia).
    rewrite firstn_to_limbs by lia. rewrite limbs_val_to_limbs.
    rewrite Z2Nat.id by lia.
    destruct (pow_wB_inverse (mpi_mag M) k HMmag HModd) as [Ri HRi].
    destruct (modular_inverse_correct M HlM HModd) as [_ HMp].
    rewrite (hw_mod_exp_spec (mpi_mag M) (modular_inverse M) HMmag HMp k Ri HRi (mpi_mag Rinv)).
    - unfold exp_mod_raw. apply Z.mod_small.
      pose proof (Z.mod_pos_bound (mpi_mag X ^ mpi_mag Y) (mpi_mag M) HMmag).
      pose proof (mpi_mag_lt_words M HlM). lia.
    - rewrite HmR, Hk. apply cong_mod.
    - clear - HYmag. lia. }
  assert (Hraw : 0 <= exp_mod_raw X Y M < mpi_mag M)
    by (apply Z.mod_pos_bound; exact HMmag).
  assert (Hcache' : forall c, c = match _Rinv with None => None | Some _ => Some Rinv end ->
                              rinv_cache_ok M nw c /\ (_Rinv = None -> c = None)).
  { intros c ->. clear - HlR HnR32 HmR HMval. destruct _Rinv as [r|]; cbn [rinv_cache_ok].
    - split; [|discriminate]. right. rewrite HMval. repeat split; assumption.
    - split; [exact I | reflexivity]. }
  assert (Htr : trace (released W2)
                = EvRelease :: EvOp (mk_op OpModExp k (mpi_mag M) (modular_inverse M)
                                           ((wB ^ nw * wB ^ nw) mod mpi_mag M)
                                           (mpi_mag X) (mpi_mag Y)) :: EvAcquire :: trace w).
  { unfold W2. autorewrite with world. rewrite Hops, HtrW0, HmR. reflexivity. }
  assert (Hlk : mpi_lock (released W2) = false) by apply released_lock.
  assert (Hcal : calloc_ok (released W2) = calloc_ok w)
    by (rewrite released_calloc; exact HalW2).
  rewrite (low_limb_odd Y HlY), negb_involutive.
  unfold exp_mod_result.
  destruct ((s X =? -1) && Z.odd (mpi_mag Y)) eqn:Eneg.
  - (* negative base, odd exponent: Z = M - Z *)
    unfold mbedtls_mpi_add_mpi. cbn [s]. rewrite HsM. cbn [Z.mul Z.ltb Z.compare Z.opp].
    change (mpi_mag {| s := -1; p := p Z1 |}) with (mpi_mag Z1). rewrite HZ1.
    destruct (Z.geb_spec (mpi_mag M) (exp_mod_raw X Y M)) as [_|Hlt]; [|clear - Hlt Hraw; lia].
    assert (Hal3 : alloc_ok (released W2)) by (intros j; rewrite Hcal; apply Hal).
    assert (Hneed : limbs_needed (mpi_mag M - exp_mod_raw X Y M) <= MBEDTLS_MPI_MAX_LIMBS).
    { apply Z.le_trans with (Z.of_nat (sig_words (p M))).
      - apply limbs_needed_le. pose proof (limbs_val_sig_upper _ HlM) as Hup.
        unfold mpi_mag in Hraw, Hup |- *. clear - Hraw Hup. lia.
      - rewrite mpi_words_sig in HrM. unfold MBEDTLS_MPI_MAX_LIMBS. clear - HrM. lia. }
    assert (Hnn : 0 <= mpi_mag M - exp_mod_raw X Y M) by (clear - Hraw; lia).
    destruct (mpi_assign_ok {| s := -1; p := p Z1 |} 1 (mpi_mag M - exp_mod_raw X Y M)
                            (released W2) Hal3 Hnn Hneed)
      as (Z2 & Hrun2 & HsZ2 & HmZ2 & _).
    rewrite (mbind_step _ _ _ _ _ Hrun2).
    destruct (Hcache' _ eq_refl) as [Hc1 Hc2].
    eexists _, _, _. split; [reflexivity|].
    split; [unfold mpi_val; rewrite HsZ2, HmZ2; apply Z.mul_1_l|].
    repeat split; assumption.
  - destruct (Hcache' _ eq_refl) as [Hc1 Hc2].
    eexists _, _, _. split; [reflexivity|].
    split; [unfold mpi_val; cbn [s]; change (mpi_mag {| s := 1; p := p Z1 |}) with (mpi_mag Z1); rewrite HZ1; apply Z.mul_1_l|].
    repeat split; assumption.
Qed.

(** * The plain multiplier *)

Lemma block_val_marshal_at m b off mpi num_words :
  Forall is_word (p mpi) -> 0 <= num_words < 2 ^ 32 -> n mpi < 2 ^ 32 ->
  mpi_words mpi <= num_words ->
  block_val (marshal m (b, off) mpi num_words) b off (Z.to_nat num_words) = mpi_mag mpi.
Proof.
  intros Hl Hn Hlen Hw. unfold block_val.
  rewrite block_words_marshal_same by assumption.
  rewrite take_words_alt, limbs_val_app, limbs_val_repeat0, Z.mul_0_r, Z.add_0_r.
  apply limbs_val_firstn_sig. rewrite mpi_words_sig in Hw. lia.
Qed.

Lemma mul_direct_run Zr X Y num_words z_words w :
  Forall is_word (p X) -> Forall is_word (p Y) -> n X < 2 ^ 32 -> n Y < 2 ^ 32 ->
  mpi_words X <= num_words -> mpi_words Y <= num_words ->
  1 <= num_words < 2 ^ 31 ->
  0 <= z_words <= 2 * num_words ->
  mpi_lock w = false ->
  exists r Zr' w',
    mul_hw_direct Zr X Y num_words z_words w = Some ((r, Zr'), w')
    /\ s Zr' = s X * s Y
    /\ trace w' = EvRelease
                  :: EvOp (mk_op OpMult (Z.to_nat num_words) 0 0 0 (mpi_mag X) (mpi_mag Y))
                  :: EvAcquire :: trace w
    /\ mpi_lock w' = false /\ calloc_ok w' = calloc_ok w
    /\ (z_words <= MBEDTLS_MPI_MAX_LIMBS -> n Zr < z_words ->
        calloc_ok w z_words = false -> r = MBEDTLS_ERR_MPI_ALLOC_FAILED /\ p Zr' = p Zr)
    /\ (can_grow w Zr z_words ->
        r = 0 /\ mpi_mag Zr' = (mpi_mag X * mpi_mag Y) mod wB ^ z_words).
Proof.
  intros HX HY HnX HnY HwX HwY Hnw Hzw Hlock.
  change (2 ^ 31) with 2147483648 in Hnw.
  assert (Hnw32 : 0 <= num_words < 2 ^ 32) by (change (2 ^ 32) with 4294967296; lia).
  unfold mul_hw_direct.
  rewrite (mbind_step _ _ _ _ _ (acquire_run _ Hlock)).
  rewrite (mbind_step _ _ _ _ _ (mpi_to_mem_block_run _ _ _ _)).
  rewrite (mbind_step _ _ _ _ _ (mpi_to_mem_block_run _ _ _ _)).
  rewrite (mbind_step _ _ _ _ _ (DPORT_REG_WRITE_run _ _ _)).
  rewrite (mbind_step _ _ _ _ _ (DPORT_REG_WRITE_run _ _ _)).
  rewrite (mbind_step _ _ _ _ _ (start_op_run _ _)).
  match goal with |- context [started _ ?W] => set (W0 := W) end.
  set (k := Z.to_nat num_words) in *.
  assert (Hk : Z.of_nat k = num_words) by (unfold k; lia).
  assert (Hops : mult_operands W0 = mk_op OpMult k 0 0 0 (mpi_mag X) (mpi_mag Y)).
  { unfold mult_operands.
    assert (Hlen : Nat.div (Z.to_nat (rsa_reg W0 RSA_LENGTH_REG + 1)) 2 = k).
    { unfold W0. autorewrite with world. cbn [reg_eqb].
      rewrite u32_small by (change (2 ^ 32) with 4294967296; lia).
      replace (Z.to_nat (num_words * 2 - 1 + 1)) with (k * 2)%nat by lia.
      apply Nat.div_mul. lia. }
    rewrite Hlen.
    replace (rsa_reg W0 RSA_M_DASH_REG) with 0
      by (unfold W0; autorewrite with world; reflexivity).
    replace (rsa_mem W0) with
      (marshal (marshal (fun _ _ => 0) RSA_MEM_X_BLOCK_BASE X num_words)
               (RSA_MEM_Z_BLOCK, k) Y num_words)
      by (unfold W0; autorewrite with world; reflexivity).
    f_equal.
    - unfold block_val. rewrite block_words_marshal_other by (try reflexivity; assumption).
      apply (block_val_marshal _ RSA_MEM_X_BLOCK); assumption.
    - apply block_val_marshal_at; assumption. }
  assert (HtrW0 : trace W0 = EvAcquire :: trace w)
    by (unfold W0; autorewrite with world; reflexivity).
  assert (HalW0 : calloc_ok W0 = calloc_ok w)
    by (unfold W0; autorewrite with world; reflexivity).
  clearbody W0.
  rewrite (mbind_step _ _ _ _ _
             (wait_op_complete_run _ _ (started_irq RSA_MULT_START_REG W0 eq_refl))).
  match goal with |- context [mbind (mem_block_to_mpi _ _ _) _ ?W] => set (W2 := W) end.
  assert (HalW2 : calloc_ok W2 = calloc_ok w)
    by (unfold W2; autorewrite with world; exact HalW0).
  destruct (mem_block_to_mpi_cases Zr RSA_MEM_Z_BLOCK_BASE z_words W2)
    as (r & Zr' & Hrun & Hok).
  rewrite (mbind_step _ _ _ _ _ Hrun).
  rewrite (mbind_step _ _ _ _ _ (release_run _)).
  eexists _, _, _. split; [reflexivity|].
  split; [reflexivity|].
  split; [unfold W2; autorewrite with world; rewrite Hops, HtrW0; reflexivity|].
  split; [apply released_lock|].
  split; [rewrite released_calloc; exact HalW2|].
  split.
  { intros Hmax Hn Hc. rewrite <- HalW2 in Hc.
    rewrite (mem_block_to_mpi_fail _ _ _ _ Hmax Hn Hc) in Hrun. inversion Hrun.
    split; reflexivity. }
  intros Hgrow.
  assert (Hg2 : can_grow W2 Zr z_words).
  { destruct Hgrow as [Hmax Hal]. split; [exact Hmax|]. intros Hn.
    rewrite HalW2. exact (Hal Hn). }
  destruct (Hok Hg2) as [-> ->]. split; [reflexivity|].
  change (mpi_mag {| s := s X * s Y; p := p ?z |}) with (mpi_mag z).
  rewrite read_back_mag. unfold W2. autorewrite with world. rewrite Hops.
  cbn [op_words op_M op_Mprime op_Rinv op_X op_Y fst snd RSA_MEM_Z_BLOCK_BASE].
  rewrite block_words_store_block by (rewrite to_limbs_length; lia).
  rewrite firstn_to_limbs by lia. rewrite limbs_val_to_limbs.
  rewrite Z2Nat.id by lia. reflexivity.
Qed.

(** * Slices of the longer operand *)

Lemma wf_slice_lo Y k : mpi_wf Y -> mpi_wf (mk_mpi (s Y) (firstn k (p Y))).
Proof.
  intros (Hs & Hl & Hn). repeat split; cbn [s p]; [exact Hs | apply Forall_firstn, Hl |].
  unfold n in *. cbn [p]. rewrite length_firstn. lia.
Qed.

Lemma wf_slice_hi Y k j : mpi_wf Y -> mpi_wf (mk_mpi (s Y) (firstn j (skipn k (p Y)))).
Proof.
  intros (Hs & Hl & Hn). repeat split; cbn [s p];
    [exact Hs | apply Forall_firstn, Forall_skipn, Hl |].
  unfold n in *. cbn [p]. rewrite length_firstn, length_skipn. lia.
Qed.

Lemma sig_words_firstn l k : (sig_words (firstn k l) <= k)%nat.
Proof. pose proof (sig_words_le (firstn k l)). rewrite length_firstn in H. lia. Qed.

Lemma slice_value l (yw slice : nat) :
  (sig_words l <= yw)%nat -> (slice <= yw)%nat -> (yw <= length l)%nat ->
  limbs_val l = limbs_val (firstn slice l)
                + wB ^ Z.of_nat slice * limbs_val (firstn (yw - slice) (skipn slice l)).
Proof.
  intros Hsig Hsl Hlen.
  rewrite (limbs_val_split slice l) at 1. rewrite Nat.min_l by lia. f_equal. f_equal.
  symmetry. apply limbs_val_firstn_zero_above. intros j Hj.
  rewrite nth_skipn. apply nth_zero_above. lia.
Qed.

(** * The cases of the plain multiply *)

Lemma bitlen_cases X :
  Forall is_word (p X) ->
  (mbedtls_mpi_bitlen X = 0 /\ mpi_mag X = 0)
  \/ (mbedtls_mpi_bitlen X = 1 /\ mpi_mag X = 1)
  \/ (2 <= mbedtls_mpi_bitlen X /\ 2 <= mpi_mag X /\ 1 <= mpi_words X).
Proof.
  intros Hl. pose proof (mpi_mag_nonneg X Hl) as Hnn.
  unfold mbedtls_mpi_bitlen, bitlen_mag.
  destruct (Z.eqb_spec (mpi_mag X) 0) as [E|E]; [left; auto|].
  destruct (Z.eq_dec (mpi_mag X) 1) as [E1|E1]; [right; left; rewrite E1; auto|].
  right; right. assert (1 <= Z.log2 (mpi_mag X)) by (apply Z.log2_le_pow2; cbn; lia).
  repeat split; try lia.
  rewrite mpi_words_sig. destruct (sig_words (p X)) eqn:Es; [|lia].
  apply (sig_words_zero _ Hl) in Es. unfold mpi_mag in E. lia.
Qed.

Lemma mul_widths_wf X Y : mpi_wf X -> mpi_wf Y -> mul_widths X Y.
Proof.
  intros HX HY. split; auto using bits_to_words_mpi, mpi_words_range.
Qed.

(** * What a call of the plain multiply leaves *)

Lemma mul_post_comm Zr X Y w res : mul_post Zr Y X w res -> mul_post Zr X Y w res.
Proof.
  intros [Ht Hv]. split; [exact Ht|]. intros Ha Hs Hz Hsz.
  destruct (Hv Ha ltac:(lia) Hz ltac:(lia)) as (Z' & w' & H1 & H2 & H3 & H4).
  exists Z', w'. repeat split; try apply H4; try assumption. rewrite H3. ring.
Qed.

Lemma shiftl_limbs v (k : nat) : Z.shiftl v (Z.of_nat k * 32) = v * wB ^ Z.of_nat k.
Proof.
  rewrite Z.shiftl_mul_pow2 by lia. rewrite wB_pow. f_equal. f_equal. lia.
Qed.

Section Overlong.

Variable mul : mbedtls_mpi -> mbedtls_mpi -> mbedtls_mpi -> io (Z * mbedtls_mpi).
Variable d : nat.
Hypothesis IH : forall Zr X Y w,
    mpi_wf X -> mpi_wf Y -> mpi_lock w = false ->
    (sig_words (p X) + sig_words (p Y) < d)%nat ->
    mul_post Zr X Y w (mul Zr X Y w).

Variables (Zr X Y : mbedtls_mpi) (z_words : Z) (w : world).
Hypothesis HX : mpi_wf X.
Hypothesis HY : mpi_wf Y.
Hypothesis Hlock : mpi_lock w = false.
Hypothesis Hy2 : (2 <= sig_words (p Y))%nat.
Hypothesis Hd : (sig_words (p X) + sig_words (p Y) <= d)%nat.

Let yw : nat := sig_words (p Y).
Let slice : nat := Nat.div yw 2.
Let Yp : mbedtls_mpi := {| s := s Y; p := firstn slice (p Y) |}.
Let Ypp : mbedtls_mpi := {| s := s Y; p := firstn (yw - slice) (skipn slice (p Y)) |}.

Lemma overlong_slice : (1 <= slice /\ slice < yw)%nat.
Proof.
  unfold slice, yw. split.
  - apply Nat.div_le_lower_bound; lia.
  - apply Nat.div_lt; lia.
Qed.

Lemma overlong_unfold :
  mpi_mult_mpi_overlong mul Zr X Y (mpi_words Y) z_words w
  = (' (ret, Ztemp) <- mul mbedtls_mpi_init X Yp ;;
     if negb (ret =? 0) then mret (ret, Zr)
     else
       ' (ret, Zr) <- mul Zr X Ypp ;;
       if negb (ret =? 0) then mret (ret, Zr)
       else
         ' (ret, Zr) <- mbedtls_mpi_shift_l Zr (Z.of_nat slice * 32) ;;
         if negb (ret =? 0) then mret (ret, Zr)
         else
           ' (ret, Zr) <- mbedtls_mpi_add_mpi Zr Zr Ztemp ;;
           mret (ret, Zr)) w.
Proof.
  pose proof (mpi_words_range Y HY) as HrY. unfold MBEDTLS_MPI_MAX_LIMBS in HrY.
  pose proof overlong_slice as Hsl.
  rewrite mpi_words_sig in *. fold yw in HrY |- *.
  assert (Hdiv : Z.of_nat yw / 2 = Z.of_nat slice)
    by (unfold slice; rewrite Nat2Z.inj_div; reflexivity).
  unfold mpi_mult_mpi_overlong, Yp_view, Ypp_view. rewrite Hdiv, Nat2Z.id.
  rewrite (u32_small (Z.of_nat yw - Z.of_nat slice)) by (change (2 ^ 32) with 4294967296; lia).
  rewrite (u32_small (Z.of_nat slice * 32)) by (change (2 ^ 32) with 4294967296; lia).
  replace (Z.to_nat (Z.of_nat yw - Z.of_nat slice)) with (yw - slice)%nat by lia.
  reflexivity.
Qed.

Lemma overlong_halves :
  mpi_wf Yp /\ mpi_wf Ypp
  /\ (sig_words (p Yp) < yw)%nat /\ (sig_words (p Ypp) < yw)%nat
  /\ mpi_mag Y = mpi_mag Yp + wB ^ Z.of_nat slice * mpi_mag Ypp.
Proof.
  pose proof overlong_slice as Hsl.
  split; [apply wf_slice_lo, HY|]. split; [apply wf_slice_hi, HY|].
  split; [pose proof (sig_words_firstn (p Y) slice); cbn [p Yp]; lia|].
  split; [pose proof (sig_words_firstn (skipn slice (p Y)) (yw - slice)); cbn [p Ypp]; lia|].
  unfold mpi_mag, Yp, Ypp; cbn [p]. apply slice_value; try (unfold yw; lia).
  apply sig_words_le.
Qed.

Lemma overlong_returns :
  mul_returns w (mpi_mult_mpi_overlong mul Zr X Y (mpi_words Y) z_words w).
Proof.
  rewrite overlong_unfold.
  destruct overlong_halves as (HYp & HYpp & HsYp & HsYpp & _). fold yw in Hd.
  destruct (IH mbedtls_mpi_init X Yp w HX HYp Hlock ltac:(lia))
    as [(r1 & Zt & w1 & Hrun1 & Hlk1 & Hal1) _].
  rewrite (mbind_step _ _ _ _ _ Hrun1).
  destruct (r1 =? 0); cbn [negb]; [|exists r1, Zr, w1; repeat split; assumption].
  destruct (IH Zr X Ypp w1 HX HYpp Hlk1 ltac:(lia))
    as [(r2 & Z2 & w2 & Hrun2 & Hlk2 & Hal2) _].
  rewrite (mbind_step _ _ _ _ _ Hrun2).
  destruct (r2 =? 0); cbn [negb]; [|exists r2, Z2, w2; repeat split; congruence].
  destruct (shift_l_total Z2 (Z.of_nat slice * 32) w2) as (r3 & Z3 & Hrun3).
  rewrite (mbind_step _ _ _ _ _ Hrun3).
  destruct (r3 =? 0); cbn [negb]; [|exists r3, Z3, w2; repeat split; congruence].
  destruct (add_mpi_total Z3 Z3 Zt w2) as (r4 & Z4 & Hrun4).
  rewrite (mbind_step _ _ _ _ _ Hrun4).
  exists r4, Z4, w2; repeat split; congruence.
Qed.

Lemma overlong_product :
  mul_product Zr X Y w (mpi_mult_mpi_overlong mul Zr X Y (mpi_words Y) z_words w).
Proof.
  intros Ha Hs Hz Hsz. rewrite overlong_unfold.
  destruct overlong_halves as (HYp & HYpp & HsYp & HsYpp & Hval). fold yw in Hd.
  pose proof overlong_slice as Hsl.
  rewrite !mpi_words_sig in Hsz. fold yw in Hsz.
  assert (HmX : 0 <= mpi_mag X) by (apply mpi_mag_nonneg, HX).
  assert (HmYp : 0 <= mpi_mag Yp) by (apply mpi_mag_nonneg, HYp).
  assert (HmYpp : 0 <= mpi_mag Ypp) by (apply mpi_mag_nonneg, HYpp).
  assert (Hprod : mpi_mag X * mpi_mag Y < wB ^ Z.of_nat (sig_words (p X) + yw)).
  { destruct HX as (_ & HlX & _). destruct HY as (_ & HlY & _).
    pose proof (limbs_val_sig_upper _ HlX) as Hx. pose proof (limbs_val_sig_upper _ HlY) as Hy.
    fold (mpi_mag X) in Hx. fold (mpi_mag Y) in Hy. fold yw in Hy.
    rewrite Nat2Z.inj_add, Z.pow_add_r by lia. nia. }
  (* Ztemp = X * Yp *)
  destruct (IH mbedtls_mpi_init X Yp w HX HYp Hlock ltac:(lia)) as [_ Hv1].
  destruct (Hv1 Ha Hs eq_refl ltac:(rewrite !mpi_words_sig; lia))
    as (Zt & w1 & Hrun1 & HsZt & HmZt & Hlk1 & Hal1).
  rewrite (mbind_step _ _ _ _ _ Hrun1). cbn [Z.eqb negb].
  assert (Ha1 : alloc_ok w1) by (intros j; rewrite Hal1; apply Ha).
  (* Z = X * Ypp *)
  destruct (IH Zr X Ypp w1 HX HYpp Hlk1 ltac:(lia)) as [_ Hv2].
  destruct (Hv2 Ha1 Hs Hz ltac:(rewrite !mpi_words_sig; lia))
    as (Z2 & w2 & Hrun2 & HsZ2 & HmZ2 & Hlk2 & Hal2).
  rewrite (mbind_step _ _ _ _ _ Hrun2). cbn [Z.eqb negb].
  assert (Ha2 : alloc_ok w2) by (intros j; rewrite Hal2; apply Ha1).
  (* Z = Z << b *)
  unfold mbedtls_mpi_shift_l. rewrite shiftl_limbs, HmZ2, HsZ2.
  assert (Hsh : 0 <= mpi_mag X * mpi_mag Ypp * wB ^ Z.of_nat slice
                     <= mpi_mag X * mpi_mag Y).
  { pose proof (wB_pow_pos slice). rewrite Hval. nia. }
  assert (Hfit : forall v, 0 <= v <= mpi_mag X * mpi_mag Y ->
                           limbs_needed v <= MBEDTLS_MPI_MAX_LIMBS).
  { intros v Hv. apply Z.le_trans with (Z.of_nat (sig_words (p X) + yw)); [|lia].
    apply limbs_needed_le. lia. }
  destruct (mpi_assign_ok Z2 1 _ w2 Ha2 (proj1 Hsh) (Hfit _ Hsh))
    as (Z3 & Hrun3 & HsZ3 & HmZ3 & _).
  rewrite (mbind_step _ _ _ _ _ Hrun3). cbn [Z.eqb negb].
  (* Z += Ztemp *)
  unfold mbedtls_mpi_add_mpi. rewrite HsZ3, HsZt. cbn [Z.mul Z.ltb Z.compare].
  rewrite HmZ3, HmZt.
  assert (Hsum : mpi_mag X * mpi_mag Ypp * wB ^ Z.of_nat slice + mpi_mag X * mpi_mag Yp
                 = mpi_mag X * mpi_mag Y) by (rewrite Hval; ring).
  rewrite Hsum.
  assert (Hnn : 0 <= mpi_mag X * mpi_mag Y <= mpi_mag X * mpi_mag Y) by lia.
  destruct (mpi_assign_ok Z3 1 _ w2 Ha2 (proj1 Hnn) (Hfit _ Hnn))
    as (Z4 & Hrun4 & HsZ4 & HmZ4 & _).
  rewrite (mbind_step _ _ _ _ _ Hrun4).
  exists Z4, w2. repeat split; try assumption. congruence.
Qed.

End Overlong.

(** * The plain multiply, by induction on the depth *)

Lemma mul_fits X Y :
  Forall is_word (p X) -> Forall is_word (p Y) ->
  0 <= mpi_mag X * mpi_mag Y < wB ^ (mpi_words X + mpi_words Y).
Proof.
  intros HX HY. rewrite !mpi_words_sig.
  pose proof (limbs_val_sig_upper _ HX) as Hx. pose proof (limbs_val_sig_upper _ HY) as Hy.
  fold (mpi_mag X) in Hx. fold (mpi_mag Y) in Hy.
  rewrite Z.pow_add_r by lia. nia.
Qed.

Lemma copy_ok X Y w :
  alloc_ok w -> Forall is_word (p Y) -> mpi_words Y <= MBEDTLS_MPI_MAX_LIMBS ->
  mpi_mag Y <> 0 ->
  exists X', mbedtls_mpi_copy X Y w = Some ((0, X'), w)
             /\ s X' = s Y /\ mpi_mag X' = mpi_mag Y.
Proof.
  intros Ha HlY Hw Hnz.
  assert (Hneed : limbs_needed (mpi_mag Y) <= MBEDTLS_MPI_MAX_LIMBS).
  { unfold mpi_mag. rewrite (limbs_needed_sig _ HlY), <- mpi_words_sig. exact Hw. }
  destruct (mpi_assign_ok {| s := s Y; p := p X |} (s Y) (mpi_mag Y) w Ha
                          (mpi_mag_nonneg Y HlY) Hneed)
    as (Z' & Hrun & HsZ & HmZ & _).
  exists Z'. split; [|split; assumption].
  unfold mbedtls_mpi_copy. unfold mpi_mag in Hnz.
  destruct (p Y) as [|y0 ly]; [exfalso; apply Hnz; reflexivity | exact Hrun].
Qed.

Lemma mul_spec d : forall Zr X Y w,
  mpi_wf X -> mpi_wf Y -> mpi_lock w = false ->
  (sig_words (p X) + sig_words (p Y) < d)%nat ->
  mul_post Zr X Y w (mbedtls_mpi_mul_mpi_depth d Zr X Y w).
Proof.
  induction d as [|d IH]; intros Zr X Y w HX HY Hlock Hd; [lia|].
  destruct (mul_widths_wf X Y HX HY) as [Hbx Hby HrX HrY].
  pose proof HX as (HsX & HlX & HnX). pose proof HY as (HsY & HlY & HnY).
  unfold MBEDTLS_MPI_MAX_LIMBS in *.
  cbn [mbedtls_mpi_mul_mpi_depth]. rewrite Hbx, Hby.
  set (xw := mpi_words X) in *. set (yw := mpi_words Y) in *.
  rewrite (u32_small (xw + yw)) by (change (2 ^ 32) with 4294967296; lia).
  rewrite MAX_spec.
  rewrite (u32_small (Z.max xw yw * 32)) by (change (2 ^ 32) with 4294967296; lia).
  rewrite (u32_small ((xw + yw) * 32)) by (change (2 ^ 32) with 4294967296; lia).
  assert (HnX32 : n X < 2 ^ 32) by (change (2 ^ 32) with 4294967296; lia).
  assert (HnY32 : n Y < 2 ^ 32) by (change (2 ^ 32) with 4294967296; lia).
  destruct (bitlen_cases X HlX) as [[Ebx Emx]|[[Ebx Emx]|(Ebx & Emx & Ewx)]];
    [rewrite Ebx; cbn [Z.eqb Pos.eqb orb]| |].
  { (* X = 0 *)
    split.
    - destruct (lset_total Zr 0 w) as (r & Z' & Hrun).
      rewrite (mbind_step _ _ _ _ _ Hrun). exists 0, Z', w. repeat split; assumption.
    - intros Ha Hs Hz Hsz.
      destruct (lset_ok Zr 0 w (alloc_ok_can_grow w Zr 1 Ha ltac:(unfold MBEDTLS_MPI_MAX_LIMBS; lia)) ltac:(rewrite wB_eq; cbn; lia))
        as (Z' & Hrun & Hval & HsZ & _).
      rewrite (mbind_step _ _ _ _ _ Hrun). exists Z', w. cbn [Z.ltb Z.compare] in HsZ.
      repeat split; try assumption.
      unfold mpi_val in Hval. rewrite HsZ in Hval. rewrite Emx. lia. }
  { (* X = 1 or Y = 0 *)
    destruct (bitlen_cases Y HlY) as [[Eby Emy]|HYnz].
    { rewrite Eby, Ebx. cbn [Z.eqb Pos.eqb orb].
      split.
      - destruct (lset_total Zr 0 w) as (r & Z' & Hrun).
        rewrite (mbind_step _ _ _ _ _ Hrun). exists 0, Z', w. repeat split; assumption.
      - intros Ha Hs Hz Hsz.
        destruct (lset_ok Zr 0 w (alloc_ok_can_grow w Zr 1 Ha ltac:(unfold MBEDTLS_MPI_MAX_LIMBS; lia)) ltac:(rewrite wB_eq; cbn; lia))
          as (Z' & Hrun & Hval & HsZ & _).
        rewrite (mbind_step _ _ _ _ _ Hrun). exists Z', w. cbn [Z.ltb Z.compare] in HsZ.
        repeat split; try assumption.
        unfold mpi_val in Hval. rewrite HsZ in Hval. rewrite Emy. lia. }
    assert (Hby0 : (mbedtls_mpi_bitlen Y =? 0) = false)
      by (apply Z.eqb_neq; destruct HYnz as [[? ?]|(? & ? & ?)]; lia).
    assert (HmY : mpi_mag Y <> 0) by (destruct HYnz as [[? ?]|(? & ? & ?)]; lia).
    rewrite Ebx, Hby0. cbn [Z.eqb Pos.eqb orb].
    split.
    - destruct (copy_total Zr Y w) as (r & Z' & Hrun).
      rewrite (mbind_step _ _ _ _ _ Hrun). eexists _, _, w. repeat split; assumption.
    - intros Ha Hs Hz Hsz.
      destruct (copy_ok Zr Y w Ha HlY ltac:(unfold MBEDTLS_MPI_MAX_LIMBS; fold yw; lia) HmY)
        as (Z' & Hrun & HsZ & HmZ).
      rewrite (mbind_step _ _ _ _ _ Hrun). eexists _, w. split; [reflexivity|].
      cbn [s]. rewrite HsZ. repeat split; try assumption; [lia|].
      change (mpi_mag {| s := s Y * s X; p := p Z' |}) with (mpi_mag Z').
      rewrite HmZ, Emx. lia. }
  (* X has two bits or more *)
  assert (Hbx0 : (mbedtls_mpi_bitlen X =? 0) = false) by (apply Z.eqb_neq; lia).
  assert (Hbx1 : (mbedtls_mpi_bitlen X =? 1) = false) by (apply Z.eqb_neq; lia).
  rewrite Hbx0, Hbx1. cbn [orb].
  destruct (bitlen_cases Y HlY) as [[Eby Emy]|[[Eby Emy]|(Eby & Emy & Ewy)]].
  { rewrite Eby. cbn [Z.eqb Pos.eqb orb].
    split.
    - destruct (lset_total Zr 0 w) as (r & Z' & Hrun).
      rewrite (mbind_step _ _ _ _ _ Hrun). exists 0, Z', w. repeat split; assumption.
    - intros Ha Hs Hz Hsz.
      destruct (lset_ok Zr 0 w (alloc_ok_can_grow w Zr 1 Ha ltac:(unfold MBEDTLS_MPI_MAX_LIMBS; lia)) ltac:(rewrite wB_eq; cbn; lia))
        as (Z' & Hrun & Hval & HsZ & _).
      rewrite (mbind_step _ _ _ _ _ Hrun). exists Z', w. cbn [Z.ltb Z.compare] in HsZ.
      repeat split; try assumption.
      unfold mpi_val in Hval. rewrite HsZ in Hval. rewrite Emy. lia. }
  { rewrite Eby. cbn [Z.eqb Pos.eqb orb].
    split.
    - destruct (copy_total Zr X w) as (r & Z' & Hrun).
      rewrite (mbind_step _ _ _ _ _ Hrun). eexists _, _, w. repeat split; assumption.
    - intros Ha Hs Hz Hsz.
      destruct (copy_ok Zr X w Ha HlX ltac:(unfold MBEDTLS_MPI_MAX_LIMBS; fold xw; lia) ltac:(lia))
        as (Z' & Hrun & HsZ & HmZ).
      rewrite (mbind_step _ _ _ _ _ Hrun). eexists _, w. split; [reflexivity|].
      cbn [s]. rewrite HsZ. repeat split; try assumption.
      change (mpi_mag {| s := s X * s Y; p := p Z' |}) with (mpi_mag Z').
      rewrite HmZ, Emy. lia. }
  (* both operands have two bits or more *)
  assert (Hby0 : (mbedtls_mpi_bitlen Y =? 0) = false) by (apply Z.eqb_neq; lia).
  assert (Hby1 : (mbedtls_mpi_bitlen Y =? 1) = false) by (apply Z.eqb_neq; lia).
  rewrite Hby0, Hby1.
  fold xw in Ewx. fold yw in Ewy.
  pose proof (mul_fits X Y HlX HlY) as Hfits. fold xw yw in Hfits.
  destruct (Z.gtb_spec (Z.max xw yw * 32) 2048) as [Hlong|Hshort].
  - destruct (Z.leb_spec ((xw + yw) * 32) 4096) as [Hfail|Hover].
    + (* the failover disguise *)
      destruct (failover_run Zr X Y (xw + yw) w HlX HlY HnX32 HnY32
                             ltac:(fold xw; lia) ltac:(fold yw; lia)
                             ltac:(change (2 ^ 32) with 4294967296; lia) Hlock)
        as (Z' & w' & Hrun & HsZ & _ & Hlk & Hal & _ & Hval).
      split; [exists 0, Z', w'; repeat split; assumption|].
      intros Ha Hs Hz Hsz. exists Z', w'.
      repeat split; try assumption; [congruence|].
      rewrite (Hval (alloc_ok_can_grow w Zr (xw + yw) Ha ltac:(unfold MBEDTLS_MPI_MAX_LIMBS; lia))).
      replace (xw + yw) with (Z.of_nat (Z.to_nat (xw + yw))) at 2 by lia.
      apply hw_mod_mult_all_ones; [lia|].
      rewrite Z2Nat.id by lia.
      apply product_below_all_ones; assumption.
    + (* still too long: split the longer operand *)
      destruct (grow_total Zr (xw + yw) w) as (r0 & Zr1 & Hg & Hne & He).
      rewrite (mbind_step _ _ _ _ _ Hg).
      assert (HsZr1 : s Zr1 = s Zr).
      { destruct (Z.eq_dec r0 0) as [E|E];
          [rewrite (He E); apply grown_sign | rewrite (Hne E); reflexivity]. }
      unfold xw, yw in *. rewrite !mpi_words_sig in *.
      destruct (Z.gtb_spec (Z.of_nat (sig_words (p Y))) (Z.of_nat (sig_words (p X)))) as [Hyx|Hxy].
      * rewrite <- (mpi_words_sig Y). split.
        -- apply (overlong_returns _ d IH); try assumption; lia.
        -- intros Ha Hs Hz Hsz.
           apply (overlong_product _ d IH); try assumption; try lia; try congruence.
      * rewrite <- (mpi_words_sig X). apply mul_post_comm. split.
        -- apply (overlong_returns _ d IH); try assumption; lia.
        -- intros Ha Hs Hz Hsz.
           apply (overlong_product _ d IH); try assumption; try lia; try congruence.
  - (* the plain multiplier *)
    destruct (mul_direct_run Zr X Y (Z.max xw yw) (xw + yw) w HlX HlY HnX32 HnY32
                             ltac:(fold xw; lia) ltac:(fold yw; lia)
                             ltac:(change (2 ^ 31) with 2147483648; lia) ltac:(lia) Hlock)
      as (r & Z' & w' & Hrun & HsZ & _ & Hlk & Hal & _ & Hval).
    unfold mul_hw_direct in Hrun.
    split; [exists r, Z', w'; repeat split; assumption|].
    intros Ha Hs Hz Hsz.
    destruct (Hval (alloc_ok_can_grow w Zr (xw + yw) Ha ltac:(unfold MBEDTLS_MPI_MAX_LIMBS; lia)))
      as [Er Em].
    exists Z', w'. rewrite Er in Hrun.
    repeat split; try assumption; [congruence|].
    rewrite Em. apply Z.mod_small. exact Hfits.
Qed.

(** * The depth bound is never what ends the recursion *)

Lemma mbind_Some_inv {A B} (c : io A) (k : A -> io B) w res :
  mbind c k w = Some res -> exists a w1, c w = Some (a, w1) /\ k a w1 = Some res.
Proof.
  unfold mbind. destruct (c w) as [[a w1]|]; [|discriminate].
  intros H. exists a, w1. split; [reflexivity | exact H].
Qed.

Lemma overlong_mono mul1 mul2 Zr X Y y_words z_words w res :
  (forall Zr X Y w res, mul1 Zr X Y w = Some res -> mul2 Zr X Y w = Some res) ->
  mpi_mult_mpi_overlong mul1 Zr X Y y_words z_words w = Some res ->
  mpi_mult_mpi_overlong mul2 Zr X Y y_words z_words w = Some res.
Proof.
  intros Hm. unfold mpi_mult_mpi_overlong. intros H.
  apply mbind_Some_inv in H. destruct H as ([r1 Zt] & w1 & H1 & H).
  rewrite (mbind_step _ _ _ _ _ (Hm _ _ _ _ _ H1)).
  destruct (negb (r1 =? 0)); [exact H|].
  apply mbind_Some_inv in H. destruct H as ([r2 Z2] & w2 & H2 & H).
  rewrite (mbind_step _ _ _ _ _ (Hm _ _ _ _ _ H2)). exact H.
Qed.

Lemma mul_depth_mono d : forall d' Zr X Y w res,
  (d <= d')%nat ->
  mbedtls_mpi_mul_mpi_depth d Zr X Y w = Some res ->
  mbedtls_mpi_mul_mpi_depth d' Zr X Y w = Some res.
Proof.
  induction d as [|d IH]; intros d' Zr X Y w res Hd H; [discriminate H|].
  destruct d' as [|d']; [lia|].
  cbn [mbedtls_mpi_mul_mpi_depth] in H |- *.
  destruct ((mbedtls_mpi_bitlen X =? 0) || (mbedtls_mpi_bitlen Y =? 0)); [exact H|].
  destruct (mbedtls_mpi_bitlen X =? 1); [exact H|].
  destruct (mbedtls_mpi_bitlen Y =? 1); [exact H|].
  destruct (u32 (MAX (bits_to_words (mbedtls_mpi_bitlen X))
                     (bits_to_words (mbedtls_mpi_bitlen Y)) * 32) >? 2048); [|exact H].
  destruct (u32 (u32 (bits_to_words (mbedtls_mpi_bitlen X)
                      + bits_to_words (mbedtls_mpi_bitlen Y)) * 32) <=? 4096); [exact H|].
  apply mbind_Some_inv in H. destruct H as ([r0 Zr1] & w1 & Hg & H).
  rewrite (mbind_step _ _ _ _ _ Hg).
  destruct (bits_to_words (mbedtls_mpi_bitlen Y) >? bits_to_words (mbedtls_mpi_bitlen X));
    (eapply overlong_mono; [|exact H]);
    intros; apply (IH d'); (lia || assumption).
Qed.

(** * The paths of the plain multiply *)

Lemma mul_depth_bound X Y : (sig_words (p X) + sig_words (p Y) < mul_depth X Y)%nat.
Proof.
  unfold mul_depth. pose proof (sig_words_le (p X)). pose proof (sig_words_le (p Y)). lia.
Qed.

Lemma mul_post_top Zr X Y w :
  mpi_wf X -> mpi_wf Y -> mpi_lock w = false ->
  mul_post Zr X Y w (mbedtls_mpi_mul_mpi Zr X Y w).
Proof. intros HX HY Hl. apply mul_spec; try assumption. apply mul_depth_bound. Qed.

Lemma mul_depth_enough Zr X Y w d :
  mpi_wf X -> mpi_wf Y -> mpi_lock w = false ->
  (sig_words (p X) + sig_words (p Y) < d)%nat ->
  mbedtls_mpi_mul_mpi_depth d Zr X Y w = mbedtls_mpi_mul_mpi Zr X Y w.
Proof.
  intros HX HY Hl Hd.
  destruct (mul_spec d Zr X Y w HX HY Hl Hd) as [(r & Z' & w' & Hrun & _) _].
  rewrite Hrun. symmetry. unfold mbedtls_mpi_mul_mpi.
  destruct (Nat.le_ge_cases d (mul_depth X Y)) as [Hle|Hge].
  - apply (mul_depth_mono d); assumption.
  - destruct (mul_spec (mul_depth X Y) Zr X Y w HX HY Hl (mul_depth_bound X Y))
      as [(r2 & Z2 & w2 & Hrun2 & _) _].
    pose proof (mul_depth_mono _ d Zr X Y w _ Hge Hrun2) as H. congruence.
Qed.

Lemma mul_on_failover Zr X Y w :
  mpi_wf X -> mpi_wf Y -> long_operand X Y ->
  (mpi_words X + mpi_words Y) * 32 <= 4096 ->
  mbedtls_mpi_mul_mpi Zr X Y w
  = mpi_mult_mpi_failover_mod_mult Zr X Y (mpi_words X + mpi_words Y) w.
Proof.
  intros HX HY (Hbx & Hby & Hlong) Hfit.
  destruct (mul_widths_wf X Y HX HY) as [Ex Ey HrX HrY]. unfold MBEDTLS_MPI_MAX_LIMBS in *.
  unfold mbedtls_mpi_mul_mpi, mul_depth. cbn [mbedtls_mpi_mul_mpi_depth].
  rewrite Ex, Ey, MAX_spec.
  rewrite (u32_small (mpi_words X + mpi_words Y)) by (change (2 ^ 32) with 4294967296; lia).
  rewrite !u32_small by (change (2 ^ 32) with 4294967296; lia).
  replace (mbedtls_mpi_bitlen X =? 0) with false by (symmetry; apply Z.eqb_neq; lia).
  replace (mbedtls_mpi_bitlen Y =? 0) with false by (symmetry; apply Z.eqb_neq; lia).
  replace (mbedtls_mpi_bitlen X =? 1) with false by (symmetry; apply Z.eqb_neq; lia).
  replace (mbedtls_mpi_bitlen Y =? 1) with false by (symmetry; apply Z.eqb_neq; lia).
  cbn [orb].
  destruct (Z.gtb_spec (Z.max (mpi_words X) (mpi_words Y) * 32) 2048); [|lia].
  destruct (Z.leb_spec ((mpi_words X + mpi_words Y) * 32) 4096); [reflexivity|lia].
Qed.

Lemma mul_on_direct Zr X Y w :
  mpi_wf X -> mpi_wf Y ->
  2 <= mbedtls_mpi_bitlen X -> 2 <= mbedtls_mpi_bitlen Y ->
  Z.max (mpi_words X) (mpi_words Y) * 32 <= 2048 ->
  mbedtls_mpi_mul_mpi Zr X Y w
  = mul_hw_direct Zr X Y (Z.max (mpi_words X) (mpi_words Y)) (mpi_words X + mpi_words Y) w.
Proof.
  intros HX HY Hbx Hby Hshort.
  destruct (mul_widths_wf X Y HX HY) as [Ex Ey HrX HrY]. unfold MBEDTLS_MPI_MAX_LIMBS in *.
  unfold mbedtls_mpi_mul_mpi, mul_depth. cbn [mbedtls_mpi_mul_mpi_depth].
  rewrite Ex, Ey, MAX_spec.
  rewrite (u32_small (mpi_words X + mpi_words Y)) by (change (2 ^ 32) with 4294967296; lia).
  rewrite !u32_small by (change (2 ^ 32) with 4294967296; lia).
  replace (mbedtls_mpi_bitlen X =? 0) with false by (symmetry; apply Z.eqb_neq; lia).
  replace (mbedtls_mpi_bitlen Y =? 0) with false by (symmetry; apply Z.eqb_neq; lia).
  replace (mbedtls_mpi_bitlen X =? 1) with false by (symmetry; apply Z.eqb_neq; lia).
  replace (mbedtls_mpi_bitlen Y =? 1) with false by (symmetry; apply Z.eqb_neq; lia).
  cbn [orb].
  destruct (Z.gtb_spec (Z.max (mpi_words X) (mpi_words Y) * 32) 2048); [lia|reflexivity].
Qed.

(** * The sign of the result and the outcome of the read-back *)

(** C1, where it fails: [X = -2^2048] and [Y = 2] have 65 and 1
    significant words, so multiply takes the failover path (2080 bits for
    the longer operand, 2112 for the product).  With a fresh result the
    call returns 0 and leaves [+2^2049], where the product is [-2^2049]:
    the failover path never stores the sign. *)
Theorem mul_mpi_failover_loses_sign :
  let X := mpi_of_Z 65 (- 2 ^ 2048) in
  let Y := mpi_of_Z 1 2 in
  mpi_val X * mpi_val Y = - 2 ^ 2049
  /\ Z.max (mpi_words X) (mpi_words Y) * 32 = 2080
  /\ (mpi_words X + mpi_words Y) * 32 = 2112
  /\ ret_val (mbedtls_mpi_mul_mpi mbedtls_mpi_init X Y (idle_world alloc_always))
     = Some (0, 2 ^ 2049).
Proof. vm_compute. repeat split; reflexivity. Qed.

(** C2, where it fails: modular multiply of [X = 2] and [Y = 3] modulo
    [M = 5], into a result that holds [-5] from earlier use, returns 0 and
    leaves [-1], where [(X * Y) mod M] is 1: the sign of the result is
    never stored. *)
Theorem mul_mod_keeps_stale_sign :
  ret_val (esp_mpi_mul_mpi_mod (mpi_of_Z 1 (-5)) (mpi_of_Z 1 2) (mpi_of_Z 1 3)
                               (mpi_of_Z 1 5) (idle_world alloc_always))
  = Some (0, -1)
  /\ (2 * 3) mod 5 = 1.
Proof. vm_compute. split; reflexivity. Qed.

(** C3, where it fails: [X = -3], [Y = 3], [M = 9].  The peripheral
    answers [27 mod 9 = 0], the sign rule for a negative [X] and an odd
    [Y] stores a minus sign and adds [M], and the call returns 0 with
    [Z = 9], which is [M] itself and not in [[0, M)], where [X^Y mod M]
    is 0. *)
Theorem exp_mod_negative_multiple :
  exp_ret_val (mbedtls_mpi_exp_mod mbedtls_mpi_init (mpi_of_Z 1 (-3)) (mpi_of_Z 1 3)
                                   (mpi_of_Z 1 9) None (idle_world alloc_always))
  = Some (0, 9)
  /\ (-3) ^ 3 mod 9 = 0.
Proof. vm_compute. split; reflexivity. Qed.

(** C6, where it fails: with the allocator refusing the limbs of the
    result, modular multiply (2 * 3 modulo 2^32 + 1, into a fresh result)
    and multiply on the failover path (2^2048 * 2) both return 0 and leave
    the result empty; multiply on the direct path (2^40 * 2) returns
    ALLOC_FAILED as the read-back reported it. *)
Theorem read_back_failure_discarded :
  ret_val (esp_mpi_mul_mpi_mod mbedtls_mpi_init (mpi_of_Z 1 2) (mpi_of_Z 1 3)
                               (mpi_of_Z 2 (2 ^ 32 + 1)) (idle_world (alloc_except 2)))
  = Some (0, 0)
  /\ ret_val (mbedtls_mpi_mul_mpi mbedtls_mpi_init (mpi_of_Z 65 (2 ^ 2048)) (mpi_of_Z 1 2)
                                  (idle_world alloc_never))
     = Some (0, 0)
  /\ ret_val (mbedtls_mpi_mul_mpi mbedtls_mpi_init (mpi_of_Z 2 (2 ^ 40)) (mpi_of_Z 1 2)
                                  (idle_world alloc_never))
     = Some (MBEDTLS_ERR_MPI_ALLOC_FAILED, 0).
Proof. vm_compute. repeat split; reflexivity. Qed.

(** * Writing an integer into a block and reading it back *)

Lemma nth_map_seq (f : nat -> Z) k j :
  nth j (map f (seq 0 k)) 0 = if (j <? k)%nat then f j else 0.
Proof.
  destruct (Nat.ltb_spec j k) as [Hlt|Hge].
  - rewrite (nth_indep _ 0 (f 0%nat)) by (rewrite length_map, length_seq; exact Hlt).
    rewrite map_nth, seq_nth by exact Hlt. reflexivity.
  - apply nth_overflow. rewrite length_map, length_seq. exact Hge.
Qed.

Lemma nth_block_words m b off k j :
  nth j (block_words m b off k) 0 = if (j <? k)%nat then m b (off + j)%nat else 0.
Proof. unfold block_words. apply (nth_map_seq (fun i => m b (off + i)%nat)). Qed.

Lemma nth_take_words l k j :
  nth j (take_words l k) 0 = if (j <? k)%nat then nth j l 0 else 0.
Proof. unfold take_words. apply nth_map_seq. Qed.

Lemma block_words_length m b off k : length (block_words m b off k) = k.
Proof. unfold block_words. rewrite length_map, length_seq. reflexivity. Qed.

Lemma nth_app_zeros l k j :
  nth j (l ++ repeat 0 k) 0 = nth j l 0.
Proof.
  destruct (Nat.lt_ge_cases j (length l)) as [Hlt|Hge].
  - apply app_nth1. exact Hlt.
  - rewrite app_nth2 by exact Hge. rewrite nth_repeat.
    symmetry. apply nth_overflow. exact Hge.
Qed.

Lemma limbs_val_ext l1 : forall l2,
  (forall j, nth j l1 0 = nth j l2 0) -> limbs_val l1 = limbs_val l2.
Proof.
  induction l1 as [|a t IH]; intros l2 H.
  - symmetry. apply limbs_val_zero_tail. intros j. rewrite <- H. destruct j; reflexivity.
  - destruct l2 as [|b t2].
    + apply limbs_val_zero_tail. intros j. rewrite H. destruct j; reflexivity.
    + cbn [limbs_val]. rewrite (IH t2) by (intros j; exact (H (S j))).
      pose proof (H 0%nat) as H0. cbn [nth] in H0. rewrite H0. reflexivity.
Qed.

(** A limb array that agrees with the [k] low limbs of [l] and is zero
    above them holds [l] cut to [k] limbs. *)
Lemma limbs_val_low_words l l' (k : nat) :
  Forall is_word l ->
  (forall j, nth j l' 0 = if (j <? k)%nat then nth j l 0 else 0) ->
  limbs_val l' = limbs_val l mod wB ^ Z.of_nat k.
Proof.
  intros Hl Hn.
  rewrite <- (limbs_val_take_words l k Hl).
  apply limbs_val_ext. intros j. rewrite Hn, nth_take_words. reflexivity.
Qed.

(** The limbs a read at width [rd] leaves, after a write at width [wr]
    to the same place. *)
Lemma marshal_then_read mpi x b off wr rd w :
  Forall is_word (p mpi) -> n mpi < 2 ^ 32 ->
  0 <= wr < 2 ^ 32 -> 0 <= rd ->
  can_grow w x rd ->
  exists x',
    (mpi_to_mem_block (b, off) mpi wr ;; mem_block_to_mpi x (b, off) rd) w
    = Some ((0, x'), upd_mem (fun m => marshal m (b, off) mpi wr) w)
    /\ s x' = s x
    /\ length (p x') = Nat.max (length (p x)) (Z.to_nat rd)
    /\ forall j, nth j (p x') 0
                 = if (j <? Z.to_nat rd)%nat
                   then if (j <? Z.to_nat wr)%nat then nth j (p mpi) 0
                        else rsa_mem w b (off + j)%nat
                   else 0.
Proof.
  intros Hl Hn Hwr Hrd Hg.
  rewrite (mbind_step _ _ _ _ _ (mpi_to_mem_block_run _ _ _ _)).
  rewrite mem_block_to_mpi_ok
    by (destruct Hg as [H1 H2]; split; [exact H1 | rewrite upd_mem_calloc; exact H2]).
  eexists. split; [reflexivity|].
  rewrite read_back_sign. split; [reflexivity|].
  unfold read_back; cbn [p fst snd]. rewrite upd_mem_mem. split.
  - rewrite length_app, repeat_length, block_words_length. lia.
  - intros j. rewrite nth_app_zeros, nth_block_words.
    destruct (j <? Z.to_nat rd)%nat; [|reflexivity].
    rewrite (marshal_read _ _ _ _ _ _ Hl Hwr Hn). cbn [fst snd].
    rewrite block_eqb_refl. cbn [andb].
    destruct (Nat.ltb_spec j (Z.to_nat wr)) as [Hlt|Hge].
    + replace (off <=? off + j)%nat with true by (symmetry; apply Nat.leb_le; lia).
      replace (off + j <? off + Z.to_nat wr)%nat with true by (symmetry; apply Nat.ltb_lt; lia).
      cbn [andb]. f_equal. lia.
    + replace (off + j <? off + Z.to_nat wr)%nat with false by (symmetry; apply Nat.ltb_ge; lia).
      rewrite andb_false_r. reflexivity.
Qed.

Lemma pointwise_words l l' (k : nat) :
  Forall is_word l ->
  (forall j, nth j l' 0 = if (j <? k)%nat then nth j l 0 else 0) ->
  Forall is_word l'.
Proof.
  intros Hl Hn. apply Forall_forall. intros v Hv.
  destruct (In_nth _ _ 0 Hv) as (j & _ & Hj). rewrite <- Hj, Hn.
  destruct (j <? k)%nat; [apply nth_is_word, Hl|].
  unfold is_word. rewrite wB_eq. lia.
Qed.

Lemma mpi_of_Z_wf k v :
  Z.of_nat k <= MBEDTLS_MPI_MAX_LIMBS -> mpi_wf (mpi_of_Z k v).
Proof.
  intros Hk. unfold mpi_wf, mpi_of_Z, n; cbn [s p].
  split; [destruct (v <? 0); auto|].
  split; [apply to_limbs_words|]. rewrite to_limbs_length. exact Hk.
Qed.



(** * Validation *)

Lemma mul_mod_too_wide Zr X Y M w :
  mpi_wf X -> mpi_wf Y -> mpi_wf M ->
  mod_width X Y M * 32 > 4096 ->
  esp_mpi_mul_mpi_mod Zr X Y M w = Some ((MBEDTLS_ERR_MPI_NOT_ACCEPTABLE, Zr), w).
Proof.
  intros HX HY HM Hw.
  pose proof (mpi_words_range X HX). pose proof (mpi_words_range Y HY).
  pose proof (mpi_words_range M HM). unfold MBEDTLS_MPI_MAX_LIMBS in *.
  unfold esp_mpi_mul_mpi_mod. fold (mod_width X Y M).
  assert (Hr : 0 <= mod_width X Y M <= 10000) by (unfold mod_width; rewrite !MAX_spec; lia).
  rewrite u32_small by (change (2 ^ 32) with 4294967296; lia).
  destruct (Z.gtb_spec (mod_width X Y M * 32) 4096); [reflexivity|lia].
Qed.

Lemma exp_mod_bad_modulus Zr X Y M c w :
  Forall is_word (p M) ->
  mpi_val M <= 0 \/ Z.even (mpi_mag M) = true ->
  mbedtls_mpi_exp_mod Zr X Y M c w = Some ((MBEDTLS_ERR_MPI_BAD_INPUT_DATA, Zr, c), w).
Proof.
  intros Hl Hbad. unfold mbedtls_mpi_exp_mod.
  rewrite (low_limb_odd M Hl).
  replace ((mbedtls_mpi_cmp_int M 0 <=? 0) || negb (Z.odd (mpi_mag M))) with true; [reflexivity|].
  symmetry. apply orb_true_iff. destruct Hbad as [Hle|Hev].
  - left. apply Z.leb_le. unfold mbedtls_mpi_cmp_int.
    destruct (Z.compare_spec (mpi_val M) 0); lia.
  - right. rewrite <- Z.negb_even, Hev. reflexivity.
Qed.

Lemma exp_mod_good_modulus M :
  Forall is_word (p M) -> 0 < mpi_val M -> Z.odd (mpi_mag M) = true ->
  (mbedtls_mpi_cmp_int M 0 <=? 0) || (Z.land (nth 0 (p M) 0) 1 =? 0) = false.
Proof.
  intros Hl Hpos Hodd. rewrite (low_limb_odd M Hl), Hodd, (cmp_int_pos M Hpos). reflexivity.
Qed.

Lemma exp_mod_negative_exponent Zr X Y M c w :
  Forall is_word (p M) -> 0 < mpi_val M -> Z.odd (mpi_mag M) = true ->
  mpi_val Y < 0 ->
  mbedtls_mpi_exp_mod Zr X Y M c w = Some ((MBEDTLS_ERR_MPI_BAD_INPUT_DATA, Zr, c), w).
Proof.
  intros Hl Hpos Hodd HY. unfold mbedtls_mpi_exp_mod.
  rewrite (exp_mod_good_modulus M Hl Hpos Hodd), (cmp_int_neg Y HY). reflexivity.
Qed.

Lemma exp_mod_zero_exponent Zr X Y M c w :
  Forall is_word (p M) -> 0 < mpi_val M -> Z.odd (mpi_mag M) = true ->
  mpi_val Y = 0 ->
  mbedtls_mpi_exp_mod Zr X Y M c w
  = (' (ret, Zr) <- mbedtls_mpi_lset Zr 1 ;; mret (ret, Zr, c)) w.
Proof.
  intros Hl Hpos Hodd HY. unfold mbedtls_mpi_exp_mod.
  rewrite (exp_mod_good_modulus M Hl Hpos Hodd), (cmp_int_zero Y HY). reflexivity.
Qed.

Lemma exp_mod_zero_exponent_one Zr X Y M c w :
  Forall is_word (p M) -> 0 < mpi_val M -> Z.odd (mpi_mag M) = true ->
  mpi_val Y = 0 -> can_grow w Zr 1 ->
  exists Zr', mbedtls_mpi_exp_mod Zr X Y M c w = Some ((0, Zr', c), w) /\ mpi_val Zr' = 1.
Proof.
  intros Hl Hpos Hodd HY Hg.
  rewrite (exp_mod_zero_exponent Zr X Y M c w Hl Hpos Hodd HY).
  destruct (lset_ok Zr 1 w Hg) as (Zr' & Hrun & Hv & _); [rewrite wB_eq; reflexivity|].
  rewrite (mbind_step _ _ _ _ _ Hrun). exists Zr'. split; [reflexivity|exact Hv].
Qed.

Lemma exp_mod_too_wide Zr X Y M c w :
  mpi_wf X -> mpi_wf Y -> mpi_wf M ->
  0 < mpi_val M -> Z.odd (mpi_mag M) = true -> 0 < mpi_val Y ->
  mod_width X Y M * 32 > 4096 ->
  mbedtls_mpi_exp_mod Zr X Y M c w = Some ((MBEDTLS_ERR_MPI_NOT_ACCEPTABLE, Zr, c), w).
Proof.
  intros HX HY HM Hpos Hodd HYpos Hw.
  pose proof (mpi_words_range X HX). pose proof (mpi_words_range Y HY).
  pose proof (mpi_words_range M HM). unfold MBEDTLS_MPI_MAX_LIMBS in *.
  unfold mbedtls_mpi_exp_mod.
  rewrite (exp_mod_good_modulus M (proj1 (proj2 HM)) Hpos Hodd), (cmp_int_pos Y HYpos).
  rewrite exp_width_eq.
  assert (Hr : 0 <= mod_width X Y M <= 10000) by (unfold mod_width; rewrite !MAX_spec; lia).
  rewrite u32_small by (change (2 ^ 32) with 4294967296; lia).
  cbn [Z.ltb Z.eqb Z.compare].
  destruct (Z.gtb_spec (mod_width X Y M * 32) 4096); [reflexivity|lia].
Qed.

(** C5: a call that fails validation, or the degenerate exponent, leaves
    the world as it found it: no acquire, no register or block write, no
    event.  Modular multiply answers NOT_ACCEPTABLE past 4096 bits;
    modular exponentiation answers BAD_INPUT_DATA for a modulus that is
    not positive or is even and for a negative exponent, stores 1 for a
    zero exponent (the one limb it needs being there or allocated), and
    answers NOT_ACCEPTABLE past 4096 bits. *)
Theorem validation_touches_no_hardware Zr X Y M c w :
  mpi_wf X -> mpi_wf Y -> mpi_wf M ->
  (mod_width X Y M * 32 > 4096 ->
   esp_mpi_mul_mpi_mod Zr X Y M w = Some ((MBEDTLS_ERR_MPI_NOT_ACCEPTABLE, Zr), w))
  /\ (mpi_val M <= 0 \/ Z.even (mpi_mag M) = true ->
      mbedtls_mpi_exp_mod Zr X Y M c w = Some ((MBEDTLS_ERR_MPI_BAD_INPUT_DATA, Zr, c), w))
  /\ (0 < mpi_val M -> Z.odd (mpi_mag M) = true ->
      (mpi_val Y < 0 ->
       mbedtls_mpi_exp_mod Zr X Y M c w = Some ((MBEDTLS_ERR_MPI_BAD_INPUT_DATA, Zr, c), w))
      /\ (mpi_val Y = 0 -> can_grow w Zr 1 ->
          exists Zr', mbedtls_mpi_exp_mod Zr X Y M c w = Some ((0, Zr', c), w)
                      /\ mpi_val Zr' = 1)
      /\ (0 < mpi_val Y -> mod_width X Y M * 32 > 4096 ->
          mbedtls_mpi_exp_mod Zr X Y M c w
          = Some ((MBEDTLS_ERR_MPI_NOT_ACCEPTABLE, Zr, c), w))).
Proof.
  intros HX HY HM.
  pose proof (proj1 (proj2 HM)) as Hl.
  split; [apply mul_mod_too_wide; assumption|].
  split; [apply exp_mod_bad_modulus; assumption|].
  intros Hpos Hodd.
  split; [apply exp_mod_negative_exponent; assumption|].
  split; [apply exp_mod_zero_exponent_one; assumption|].
  apply exp_mod_too_wide; assumption.
Qed.

Lemma validation_touches_no_hardware_witness :
  mbedtls_mpi_exp_mod mbedtls_mpi_init (mpi_of_Z 1 7) (mpi_of_Z 1 3) (mpi_of_Z 1 10) None
                      (idle_world alloc_always)
  = Some ((MBEDTLS_ERR_MPI_BAD_INPUT_DATA, mbedtls_mpi_init, None), idle_world alloc_always).
Proof.
  destruct (validation_touches_no_hardware mbedtls_mpi_init (mpi_of_Z 1 7) (mpi_of_Z 1 3)
              (mpi_of_Z 1 10) None (idle_world alloc_always)) as (_ & Hbad & _).
  - apply mpi_of_Z_wf. vm_compute. discriminate.
  - apply mpi_of_Z_wf. vm_compute. discriminate.
  - apply mpi_of_Z_wf. vm_compute. discriminate.
  - apply Hbad. right. vm_compute. reflexivity.
Defined.

(** * The Montgomery constant *)

(** C7: [modular_inverse] reads the lowest word of the modulus only, so
    two moduli with the same lowest word get the same constant; for an odd
    modulus the constant is a 32-bit word [N'] with
    [M * N' = -1 (mod 2^32)], and it is [2^32 - t] for the [t] the 31
    rounds of the loop leave. *)
Theorem modular_inverse_spec M :
  Forall is_word (p M) -> Z.odd (mpi_mag M) = true ->
  (forall M2, nth 0 (p M2) 0 = nth 0 (p M) 0 -> modular_inverse M2 = modular_inverse M)
  /\ 0 < modular_inverse M < 2 ^ 32
  /\ (mpi_mag M * modular_inverse M) mod 2 ^ 32 = (-1) mod 2 ^ 32
  /\ modular_inverse M = 2 ^ 32 - modular_inverse_loop 31 (nth 0 (p M) 0) 1 2 4.
Proof.
  intros Hl Hodd.
  destruct (modular_inverse_correct M Hl Hodd) as [Hr Hc].
  split; [intros M2 H2; unfold modular_inverse; rewrite H2; reflexivity|].
  split; [exact Hr|]. split; [rewrite Hc; reflexivity|].
  apply modular_inverse_value.
  - apply nth_is_word, Hl.
  - rewrite <- (limbs_val_odd _ Hl). exact Hodd.
Qed.

Lemma modular_inverse_spec_witness :
  modular_inverse (mpi_of_Z 2 (2 ^ 40 + 3)) = 1431655765
  /\ ((2 ^ 40 + 3) * 1431655765) mod 2 ^ 32 = (-1) mod 2 ^ 32.
Proof.
  destruct (modular_inverse_spec (mpi_of_Z 2 (2 ^ 40 + 3))) as (_ & _ & Hc & Hv).
  - apply to_limbs_words.
  - vm_compute. reflexivity.
  - split; [vm_compute; reflexivity|]. vm_compute. reflexivity.
Defined.

(** * The failover path *)

Lemma wB_pow_bits k : 0 <= k -> wB ^ k = 2 ^ (k * 32).
Proof.
  intros Hk. unfold wB. rewrite <- Z.pow_mul_r by lia. f_equal. lia.
Qed.

Lemma mul_failover_run Zr X Y w :
  mpi_wf X -> mpi_wf Y -> long_operand X Y ->
  (mpi_words X + mpi_words Y) * 32 <= 4096 ->
  mpi_lock w = false ->
  exists Zr' w',
    mbedtls_mpi_mul_mpi Zr X Y w = Some ((0, Zr'), w')
    /\ s Zr' = s Zr
    /\ trace w' = EvRelease
                  :: EvOp (mk_op OpModMult (Z.to_nat (mpi_words X + mpi_words Y))
                                 (wB ^ (mpi_words X + mpi_words Y) - 1) 1 1
                                 (mpi_mag X) (mpi_mag Y))
                  :: EvAcquire :: trace w
    /\ mpi_lock w' = false /\ calloc_ok w' = calloc_ok w
    /\ (n Zr < mpi_words X + mpi_words Y ->
        calloc_ok w (mpi_words X + mpi_words Y) = false -> Zr' = Zr)
    /\ (can_grow w Zr (mpi_words X + mpi_words Y) ->
        mpi_mag Zr' = mpi_mag X * mpi_mag Y).
Proof.
  intros HX HY Hlong Hfit Hlock.
  rewrite (mul_on_failover Zr X Y w HX HY Hlong Hfit).
  destruct Hlong as (Hbx & Hby & Hmax).
  pose proof (mpi_words_range X HX) as HrX. pose proof (mpi_words_range Y HY) as HrY.
  destruct HX as (_ & HlX & HnX). destruct HY as (_ & HlY & HnY).
  unfold MBEDTLS_MPI_MAX_LIMBS in *.
  assert (Hx1 : 1 <= mpi_words X).
  { destruct (bitlen_cases X HlX) as [[H _]|[[H _]|(_ & _ & H)]]; lia. }
  assert (Hy1 : 1 <= mpi_words Y).
  { destruct (bitlen_cases Y HlY) as [[H _]|[[H _]|(_ & _ & H)]]; lia. }
  destruct (failover_run Zr X Y (mpi_words X + mpi_words Y) w HlX HlY)
    as (Zr' & w' & Hrun & Hs & Htr & Hlk & Hal & Hfail & Hok);
    try (change (2 ^ 32) with 4294967296; lia); try assumption.
  exists Zr', w'. repeat split; try assumption.
  - intros Hn Hc. apply Hfail; [unfold MBEDTLS_MPI_MAX_LIMBS; lia | assumption | assumption].
  - intros Hg. rewrite (Hok Hg).
    pose proof (product_below_all_ones X Y HlX HlY Hx1 Hy1) as Hp.
    replace (wB ^ (mpi_words X + mpi_words Y))
      with (wB ^ Z.of_nat (Z.to_nat (mpi_words X + mpi_words Y))) in * by (f_equal; lia).
    apply hw_mod_mult_all_ones; [lia | exact Hp].
Qed.

(** C4 (as amended): on the failover path - the longer operand over
    2048 bits, [z_words * 32 <= 4096] with [z_words = x_words + y_words] -
    multiply runs one Montgomery modular multiplication whose modulus is
    [2^(z_words * 32) - 1], with [N' = 1] and [Rinv = 1], on the magnitudes
    of [X] and [Y], and what it reads back is the magnitude of the exact
    product. *)
Theorem failover_modulus_over_z_words Zr X Y w :
  mpi_wf X -> mpi_wf Y ->
  2 <= mbedtls_mpi_bitlen X -> 2 <= mbedtls_mpi_bitlen Y ->
  MAX (mpi_words X) (mpi_words Y) * 32 > 2048 ->
  (mpi_words X + mpi_words Y) * 32 <= 4096 ->
  mpi_lock w = false ->
  can_grow w Zr (mpi_words X + mpi_words Y) ->
  exists Zr' w',
    mbedtls_mpi_mul_mpi Zr X Y w = Some ((0, Zr'), w')
    /\ trace w' = EvRelease
                  :: EvOp (mk_op OpModMult (Z.to_nat (mpi_words X + mpi_words Y))
                                 (2 ^ ((mpi_words X + mpi_words Y) * 32) - 1) 1 1
                                 (mpi_mag X) (mpi_mag Y))
                  :: EvAcquire :: trace w
    /\ mpi_mag Zr' = mpi_mag X * mpi_mag Y.
Proof.
  intros HX HY Hbx Hby Hmax Hfit Hlock Hg. rewrite MAX_spec in Hmax.
  destruct (mul_failover_run Zr X Y w HX HY (conj Hbx (conj Hby Hmax)) Hfit Hlock)
    as (Zr' & w' & Hrun & _ & Htr & _ & _ & _ & Hok).
  exists Zr', w'. split; [exact Hrun|]. split; [|exact (Hok Hg)].
  rewrite Htr, wB_pow_bits; [reflexivity|].
  pose proof (mpi_words_range X HX). pose proof (mpi_words_range Y HY). lia.
Qed.

Lemma failover_modulus_over_z_words_witness :
  exists Zr' w',
    mbedtls_mpi_mul_mpi mbedtls_mpi_init (mpi_of_Z 65 (2 ^ 2048)) (mpi_of_Z 1 2)
                        (idle_world alloc_always) = Some ((0, Zr'), w')
    /\ mpi_mag Zr' = 2 ^ 2049.
Proof.
  destruct (failover_modulus_over_z_words mbedtls_mpi_init (mpi_of_Z 65 (2 ^ 2048))
              (mpi_of_Z 1 2) (idle_world alloc_always))
    as (Zr' & w' & Hrun & _ & Hmag).
  - apply mpi_of_Z_wf. vm_compute. discriminate.
  - apply mpi_of_Z_wf. vm_compute. discriminate.
  - vm_compute. discriminate.
  - vm_compute. discriminate.
  - vm_compute. reflexivity.
  - vm_compute. discriminate.
  - reflexivity.
  - split; [vm_compute; discriminate | reflexivity].
  - exists Zr', w'. split; [exact Hrun|]. rewrite Hmag. vm_compute. reflexivity.
Defined.

(** C4 (as stated) fails at [X = 2^2048], [Y = 2]: the call is on the
    failover path with [num_words = 65] and [z_words = 66], and the one
    operation the peripheral runs has the modulus [2^(66 * 32) - 1], not
    [2^(65 * 32) - 1]. *)
Lemma failover_modulus_not_over_num_words :
  let X := mpi_of_Z 65 (2 ^ 2048) in
  let Y := mpi_of_Z 1 2 in
  MAX (mpi_words X) (mpi_words Y) * 32 > 2048
  /\ (mpi_words X + mpi_words Y) * 32 <= 4096
  /\ exists r Zr' w' o,
       mbedtls_mpi_mul_mpi mbedtls_mpi_init X Y (idle_world alloc_always)
       = Some ((r, Zr'), w')
       /\ trace w' = [EvRelease; EvOp o; EvAcquire]
       /\ op_M o = 2 ^ (66 * 32) - 1
       /\ op_M o <> spec_failover_modulus X Y.
Proof.
  cbv zeta.
  split; [vm_compute; reflexivity|]. split; [vm_compute; discriminate|].
  destruct (mul_failover_run mbedtls_mpi_init (mpi_of_Z 65 (2 ^ 2048)) (mpi_of_Z 1 2)
              (idle_world alloc_always))
    as (Zr' & w' & Hrun & _ & Htr & _).
  - apply mpi_of_Z_wf. vm_compute. discriminate.
  - apply mpi_of_Z_wf. vm_compute. discriminate.
  - repeat split; vm_compute; (reflexivity || discriminate).
  - vm_compute. discriminate.
  - reflexivity.
  - exists 0, Zr', w'. eexists. split; [exact Hrun|]. split; [exact Htr|].
    cbn [op_M]. split; vm_compute; [reflexivity | discriminate].
Qed.

(** * Termination of the decomposition *)

Lemma slices_narrower Y y_words :
  2 <= y_words < 2 ^ 32 ->
  mpi_words (Yp_view Y (y_words / 2)) <= y_words / 2 < y_words
  /\ mpi_words (Ypp_view Y (y_words / 2) y_words) <= y_words - y_words / 2 < y_words.
Proof.
  intros Hy.
  assert (Hs : 1 <= y_words / 2 < y_words).
  { split; [apply Z.div_le_lower_bound; lia | apply Z.div_lt; lia]. }
  rewrite !mpi_words_sig. unfold Yp_view, Ypp_view; cbn [p].
  rewrite (u32_small (y_words - y_words / 2)) by lia.
  pose proof (sig_words_firstn (p Y) (Z.to_nat (y_words / 2))).
  pose proof (sig_words_firstn (skipn (Z.to_nat (y_words / 2)) (p Y))
                               (Z.to_nat (y_words - y_words / 2))).
  lia.
Qed.



(** * The search position of modular multiply *)

(** C10: [esp_mpi_mul_mpi_mod] runs the peripheral whatever [Y] is,
    zero included, and the search position register holds
    [y_bits - 1] in 32-bit unsigned arithmetic: [2^32 - 1] when [Y] is
    zero, and [y_bits - 1] itself exactly when [Y] is not zero. *)
Theorem search_position_wraps Zr X Y M w :
  mpi_wf X -> mpi_wf Y -> mpi_wf M ->
  0 < mpi_val M -> mod_width X Y M * 32 <= 4096 ->
  alloc_ok w -> mpi_lock w = false ->
  exists Zr' w' o,
    esp_mpi_mul_mpi_mod Zr X Y M w = Some ((0, Zr'), w')
    /\ trace w' = EvRelease :: EvOp o :: EvAcquire :: trace w
    /\ rsa_reg w' RSA_SEARCH_POS_REG = u32 (mbedtls_mpi_bitlen Y - 1)
    /\ (mpi_mag Y = 0 -> rsa_reg w' RSA_SEARCH_POS_REG = UINT32_MAX)
    /\ (mpi_mag Y <> 0 -> rsa_reg w' RSA_SEARCH_POS_REG = mbedtls_mpi_bitlen Y - 1)
    /\ (u32 (mbedtls_mpi_bitlen Y - 1) = mbedtls_mpi_bitlen Y - 1 <-> mpi_mag Y <> 0).
Proof.
  intros HX HY HM Hpos Hw Hal Hlock.
  destruct (mul_mod_run Zr X Y M w HX HY HM Hpos Hw Hal Hlock)
    as (Rinv & Zr' & w' & Hrun & _ & _ & _ & Htr & Hreg & _).
  pose proof (mpi_mag_nonneg Y (proj1 (proj2 HY))) as HY0.
  assert (Hbits : 0 <= mbedtls_mpi_bitlen Y <= 320000).
  { unfold mbedtls_mpi_bitlen. split; [apply bitlen_mag_nonneg|].
    destruct HY as (_ & HlY & HnY). unfold MBEDTLS_MPI_MAX_LIMBS, n in HnY.
    pose proof (limbs_val_bound _ HlY) as Hb. fold (mpi_mag Y) in Hb.
    pose proof (bitlen_mag_le (mpi_mag Y) (length (p Y)) Hb). lia. }
  assert (Hz : mpi_mag Y = 0 <-> mbedtls_mpi_bitlen Y = 0).
  { unfold mbedtls_mpi_bitlen. symmetry. apply bitlen_mag_zero. exact HY0. }
  assert (Hnz : mpi_mag Y <> 0 -> u32 (mbedtls_mpi_bitlen Y - 1) = mbedtls_mpi_bitlen Y - 1).
  { intros Hne. apply u32_small. change (2 ^ 32) with 4294967296. lia. }
  eexists Zr', w', _. split; [exact Hrun|]. split; [exact Htr|]. split; [exact Hreg|].
  split; [|split].
  - intros H0. rewrite Hreg. apply Hz in H0. rewrite H0. reflexivity.
  - intros Hne. rewrite Hreg. apply Hnz, Hne.
  - split; [|exact Hnz].
    intros Hu Hzero. apply Hz in Hzero. rewrite Hzero in Hu. vm_compute in Hu. discriminate.
Qed.

Lemma search_position_wraps_witness :
  exists Zr' w',
    esp_mpi_mul_mpi_mod mbedtls_mpi_init (mpi_of_Z 1 2) (mpi_of_Z 1 0) (mpi_of_Z 1 5)
                        (idle_world alloc_always) = Some ((0, Zr'), w')
    /\ rsa_reg w' RSA_SEARCH_POS_REG = 4294967295.
Proof.
  destruct (search_position_wraps mbedtls_mpi_init (mpi_of_Z 1 2) (mpi_of_Z 1 0) (mpi_of_Z 1 5)
              (idle_world alloc_always))
    as (Zr' & w' & o & Hrun & _ & _ & Hmax & _).
  - apply mpi_of_Z_wf. vm_compute. discriminate.
  - apply mpi_of_Z_wf. vm_compute. discriminate.
  - apply mpi_of_Z_wf. vm_compute. discriminate.
  - vm_compute. reflexivity.
  - vm_compute. discriminate.
  - intros k. reflexivity.
  - reflexivity.
  - exists Zr', w'. split; [exact Hrun|]. apply Hmax. vm_compute. reflexivity.
Defined.

(** * Further properties of the driver *)

Lemma nonneg_val_mag X : mpi_wf X -> 0 <= mpi_val X -> mpi_val X = mpi_mag X.
Proof.
  intros (Hs & Hl & _) Hv. pose proof (mpi_mag_nonneg X Hl) as Hm.
  unfold mpi_val in *. destruct Hs as [Hs|Hs]; rewrite Hs in *; lia.
Qed.

(** X1: modular multiply on a positive odd modulus within the width
    ceiling returns 0 and leaves the magnitude [(|X| * |Y|) mod M] in the
    result, under the sign the result came in with; so with a result that
    comes in non-negative and non-negative operands the value is
    [(X * Y) mod M].  The lock is free again afterwards. *)
Theorem mul_mod_value Zr X Y M w :
  mpi_wf X -> mpi_wf Y -> mpi_wf M ->
  0 < mpi_val M -> Z.odd (mpi_val M) = true ->
  mod_width X Y M * 32 <= 4096 ->
  alloc_ok w -> mpi_lock w = false ->
  exists Zr' w',
    esp_mpi_mul_mpi_mod Zr X Y M w = Some ((0, Zr'), w')
    /\ mpi_val Zr' = s Zr * ((mpi_mag X * mpi_mag Y) mod mpi_val M)
    /\ (s Zr = 1 -> 0 <= mpi_val X -> 0 <= mpi_val Y ->
        mpi_val Zr' = (mpi_val X * mpi_val Y) mod mpi_val M)
    /\ mpi_lock w' = false.
Proof.
  intros HX HY HM Hpos Hodd Hw Hal Hlock.
  destruct (mul_mod_magnitude Zr X Y M w HX HY HM Hpos Hodd Hw Hal Hlock)
    as (Zr' & w' & Hrun & Hs & Hmag & Hlk).
  exists Zr', w'. split; [exact Hrun|].
  assert (Hv : mpi_val Zr' = s Zr * ((mpi_mag X * mpi_mag Y) mod mpi_val M))
    by (unfold mpi_val at 1; rewrite Hs, Hmag; reflexivity).
  split; [exact Hv|]. split; [|exact Hlk].
  intros Hz Hx Hy. rewrite Hv, Hz, (nonneg_val_mag X HX Hx), (nonneg_val_mag Y HY Hy). lia.
Qed.

Lemma mul_mod_value_witness :
  exists Zr' w',
    esp_mpi_mul_mpi_mod mbedtls_mpi_init (mpi_of_Z 2 (2 ^ 40)) (mpi_of_Z 1 12345)
                        (mpi_of_Z 1 1000003) (idle_world alloc_always)
    = Some ((0, Zr'), w')
    /\ mpi_val Zr' = (2 ^ 40 * 12345) mod 1000003.
Proof.
  destruct (mul_mod_value mbedtls_mpi_init (mpi_of_Z 2 (2 ^ 40)) (mpi_of_Z 1 12345)
              (mpi_of_Z 1 1000003) (idle_world alloc_always))
    as (Zr' & w' & Hrun & _ & Hv & _).
  - apply mpi_of_Z_wf. vm_compute. discriminate.
  - apply mpi_of_Z_wf. vm_compute. discriminate.
  - apply mpi_of_Z_wf. vm_compute. discriminate.
  - vm_compute. reflexivity.
  - vm_compute. reflexivity.
  - vm_compute. discriminate.
  - intros k. reflexivity.
  - reflexivity.
  - exists Zr', w'. split; [exact Hrun|]. rewrite Hv.
    + vm_compute. reflexivity.
    + reflexivity.
    + vm_compute. discriminate.
    + vm_compute. discriminate.
Defined.

Lemma pow_opp_parity a e :
  0 <= e -> (- a) ^ e = if Z.odd e then - a ^ e else a ^ e.
Proof.
  intros He. destruct (Z.odd e) eqn:E.
  - apply Z.pow_opp_odd. apply Z.odd_spec. exact E.
  - apply Z.pow_opp_even. apply Z.even_spec. rewrite <- Z.negb_odd, E. reflexivity.
Qed.



(** X3: for operands of one sign, a result that comes in with a plus
    sign, an allocator that does not refuse and a product within the limb
    ceiling, multiply returns 0 and the exact product on whichever path it
    takes - fast exit, direct, failover or decomposition - and leaves the
    lock free. *)
Theorem mul_mpi_same_sign_product Zr X Y w :
  mpi_wf X -> mpi_wf Y -> mpi_lock w = false ->
  alloc_ok w -> s X * s Y = 1 -> s Zr = 1 ->
  mpi_words X + mpi_words Y <= MBEDTLS_MPI_MAX_LIMBS ->
  exists Zr' w',
    mbedtls_mpi_mul_mpi Zr X Y w = Some ((0, Zr'), w')
    /\ mpi_val Zr' = mpi_val X * mpi_val Y
    /\ mpi_lock w' = false.
Proof.
  intros HX HY Hlock Hal Hs Hz Hfit.
  destruct (mul_post_top Zr X Y w HX HY Hlock) as [_ Hprod].
  destruct (Hprod Hal Hs Hz Hfit) as (Zr' & w' & Hrun & HsZ & HmZ & Hlk & _).
  exists Zr', w'. split; [exact Hrun|]. split; [|exact Hlk].
  unfold mpi_val. rewrite HsZ, HmZ.
  replace (s X * mpi_mag X * (s Y * mpi_mag Y)) with (s X * s Y * (mpi_mag X * mpi_mag Y)) by ring.
  rewrite Hs. reflexivity.
Qed.

Lemma mul_mpi_same_sign_product_witness :
  exists Zr' w',
    mbedtls_mpi_mul_mpi mbedtls_mpi_init (mpi_of_Z 200 (- (2 ^ 6000 + 1))) (mpi_of_Z 3 (- 2 ^ 70))
                        (idle_world alloc_always) = Some ((0, Zr'), w')
    /\ mpi_val Zr' = (2 ^ 6000 + 1) * 2 ^ 70.
Proof.
  destruct (mul_mpi_same_sign_product mbedtls_mpi_init (mpi_of_Z 200 (- (2 ^ 6000 + 1)))
              (mpi_of_Z 3 (- 2 ^ 70)) (idle_world alloc_always))
    as (Zr' & w' & Hrun & Hv & _).
  - apply mpi_of_Z_wf. vm_compute. discriminate.
  - apply mpi_of_Z_wf. vm_compute. discriminate.
  - reflexivity.
  - intros k. reflexivity.
  - reflexivity.
  - reflexivity.
  - vm_compute. discriminate.
  - exists Zr', w'. split; [exact Hrun|]. rewrite Hv. vm_compute. reflexivity.
Defined.

(** X4: with both operands of two bits or more and the longer one within
    2048 bits, multiply uses the plain multiplier: the result carries the
    sign [X->s * Y->s]; when the result storage can hold [z_words] limbs
    the call returns 0 and the exact signed product; when the allocator
    refuses them it returns ALLOC_FAILED and leaves the limbs alone. *)
Theorem mul_mpi_direct_value Zr X Y w :
  mpi_wf X -> mpi_wf Y ->
  2 <= mbedtls_mpi_bitlen X -> 2 <= mbedtls_mpi_bitlen Y ->
  MAX (mpi_words X) (mpi_words Y) * 32 <= 2048 ->
  mpi_lock w = false ->
  exists r Zr' w',
    mbedtls_mpi_mul_mpi Zr X Y w = Some ((r, Zr'), w')
    /\ s Zr' = s X * s Y
    /\ (can_grow w Zr (mpi_words X + mpi_words Y) ->
        r = 0 /\ mpi_val Zr' = mpi_val X * mpi_val Y)
    /\ (n Zr < mpi_words X + mpi_words Y ->
        calloc_ok w (mpi_words X + mpi_words Y) = false ->
        r = MBEDTLS_ERR_MPI_ALLOC_FAILED /\ p Zr' = p Zr)
    /\ mpi_lock w' = false.
Proof.
  intros HX HY Hbx Hby Hmax Hlock. rewrite MAX_spec in Hmax.
  rewrite (mul_on_direct Zr X Y w HX HY Hbx Hby Hmax).
  pose proof (mpi_words_range X HX) as HrX. pose proof (mpi_words_range Y HY) as HrY.
  pose proof HX as (_ & HlX & HnX). pose proof HY as (_ & HlY & HnY).
  unfold MBEDTLS_MPI_MAX_LIMBS in *.
  assert (Hx1 : 1 <= mpi_words X).
  { destruct (bitlen_cases X HlX) as [[H _]|[[H _]|(_ & _ & H)]]; lia. }
  destruct (mul_direct_run Zr X Y (Z.max (mpi_words X) (mpi_words Y))
              (mpi_words X + mpi_words Y) w HlX HlY)
    as (r & Zr' & w' & Hrun & Hs & _ & Hlk & _ & Hfail & Hok);
    try (change (2 ^ 32) with 4294967296; change (2 ^ 31) with 2147483648; lia);
    try assumption.
  exists r, Zr', w'. split; [exact Hrun|]. split; [exact Hs|].
  split; [|split; [|exact Hlk]].
  - intros Hg. destruct (Hok Hg) as [Hr Hm]. split; [exact Hr|].
    unfold mpi_val. rewrite Hs, Hm.
    rewrite Z.mod_small by (apply mul_fits; assumption). ring.
  - intros Hn Hc. apply Hfail; [unfold MBEDTLS_MPI_MAX_LIMBS; lia | exact Hn | exact Hc].
Qed.

Lemma mul_mpi_direct_value_witness :
  exists r Zr' w',
    mbedtls_mpi_mul_mpi mbedtls_mpi_init (mpi_of_Z 2 12345678901) (mpi_of_Z 1 (-67890))
                        (idle_world alloc_always) = Some ((r, Zr'), w')
    /\ r = 0 /\ mpi_val Zr' = 12345678901 * -67890.
Proof.
  destruct (mul_mpi_direct_value mbedtls_mpi_init (mpi_of_Z 2 12345678901) (mpi_of_Z 1 (-67890))
              (idle_world alloc_always))
    as (r & Zr' & w' & Hrun & _ & Hok & _).
  - apply mpi_of_Z_wf. vm_compute. discriminate.
  - apply mpi_of_Z_wf. vm_compute. discriminate.
  - vm_compute. discriminate.
  - vm_compute. discriminate.
  - vm_compute. discriminate.
  - reflexivity.
  - exists r, Zr', w'. split; [exact Hrun|].
    destruct Hok as [Hr Hv]; [split; [vm_compute; discriminate | reflexivity]|].
    split; [exact Hr|]. rewrite Hv. vm_compute. reflexivity.
Defined.

Lemma lset_zero_value Zr w :
  exists r Zr', mbedtls_mpi_lset Zr 0 w = Some ((r, Zr'), w) /\ mpi_val Zr' = 0.
Proof.
  unfold mbedtls_mpi_lset.
  destruct (grow_total Zr 1 w) as (r & X1 & Hrun & Hfail & Hok).
  rewrite (mbind_step _ _ _ _ _ Hrun).
  destruct (Z.eqb_spec r 0) as [E|E].
  - eexists _, _. split; [reflexivity|].
    unfold mpi_val, mpi_mag; cbn [s p Z.ltb Z.compare Z.abs].
    rewrite limbs_val_to_limbs. rewrite Z.mod_0_l; [lia|].
    pose proof (wB_pow_pos (length (p X1))). lia.
  - exists r, X1. split; [reflexivity|].
    rewrite (Hfail E).
    (* the growth to one limb is refused only when there is no limb yet *)
    unfold mbedtls_mpi_grow in Hrun.
    destruct (1 >? MBEDTLS_MPI_MAX_LIMBS) eqn:E1; [discriminate E1|].
    destruct (Z.ltb_spec (n Zr) 1) as [Hn|Hn].
    + unfold n in Hn. destruct (p Zr) as [|a t] eqn:Ep; [|cbn [length] in Hn; lia].
      unfold mpi_val, mpi_mag. rewrite Ep. cbn [limbs_val]. lia.
    + inversion Hrun. congruence.
Qed.

(** X5: with an operand that is zero, multiply returns 0 with the value 0
    in the result whatever the allocator does, and touches neither the
    lock nor the peripheral. *)
Theorem mul_mpi_zero_operand Zr X Y w :
  mpi_mag X = 0 \/ mpi_mag Y = 0 ->
  exists Zr', mbedtls_mpi_mul_mpi Zr X Y w = Some ((0, Zr'), w) /\ mpi_val Zr' = 0.
Proof.
  intros Hz.
  assert (Hb : (mbedtls_mpi_bitlen X =? 0) || (mbedtls_mpi_bitlen Y =? 0) = true).
  { apply orb_true_iff. unfold mbedtls_mpi_bitlen.
    destruct Hz as [H|H]; [left|right]; apply Z.eqb_eq; rewrite H; reflexivity. }
  unfold mbedtls_mpi_mul_mpi, mul_depth. cbn [mbedtls_mpi_mul_mpi_depth]. rewrite Hb.
  destruct (lset_zero_value Zr w) as (r & Zr' & Hrun & Hv).
  rewrite (mbind_step _ _ _ _ _ Hrun). exists Zr'. split; [reflexivity|exact Hv].
Qed.

Lemma mul_mpi_zero_operand_witness :
  exists Zr',
    mbedtls_mpi_mul_mpi (mpi_of_Z 0 0) (mpi_of_Z 70 (2 ^ 2100)) (mpi_of_Z 2 0)
                        (idle_world alloc_never)
    = Some ((0, Zr'), idle_world alloc_never)
    /\ mpi_val Zr' = 0.
Proof.
  apply (mul_mpi_zero_operand (mpi_of_Z 0 0) (mpi_of_Z 70 (2 ^ 2100)) (mpi_of_Z 2 0)
           (idle_world alloc_never)).
  right. reflexivity.
Defined.



(** X7: [mpi_words] counts the limbs up to the highest one that is not
    zero: it is at most the allocated length, every limb at or above it
    is zero, the limb just below it is not, it is 0 exactly for the value
    zero, and the magnitude fits that many words. *)
Theorem mpi_words_spec X :
  Forall is_word (p X) ->
  0 <= mpi_words X <= n X
  /\ (forall j, mpi_words X <= Z.of_nat j -> nth j (p X) 0 = 0)
  /\ (0 < mpi_words X -> nth (Z.to_nat (mpi_words X - 1)) (p X) 0 <> 0)
  /\ (mpi_words X = 0 <-> mpi_mag X = 0)
  /\ mpi_mag X < wB ^ mpi_words X.
Proof.
  intros Hl. rewrite mpi_words_sig. pose proof (sig_words_le (p X)) as Hle.
  split; [unfold n; lia|].
  split; [intros j Hj; apply nth_zero_above; lia|].
  split.
  - intros Hpos. replace (Z.to_nat (Z.of_nat (sig_words (p X)) - 1))
      with (sig_words (p X) - 1)%nat by lia.
    apply mpi_words_from_top. unfold sig_words in Hpos. lia.
  - split.
    + pose proof (sig_words_zero (p X) Hl) as Hz. unfold mpi_mag. rewrite <- Hz. lia.
    + rewrite <- mpi_words_sig. apply mpi_mag_lt_words, Hl.
Qed.

Lemma mpi_words_spec_witness :
  mpi_words (mpi_of_Z 5 (2 ^ 40)) = 2 /\ mpi_mag (mpi_of_Z 5 (2 ^ 40)) < wB ^ 2.
Proof.
  destruct (mpi_words_spec (mpi_of_Z 5 (2 ^ 40))) as (_ & _ & _ & _ & Hlt).
  - apply to_limbs_words.
  - split; [vm_compute; reflexivity | exact Hlt].
Defined.

(** X8: [bits_to_words] is the number of 32-bit words that hold [bits]
    bits as long as [bits + 31] does not wrap, and 0 for the 31 bit counts
    where it does; on the bit length of a well-formed integer it is
    [mpi_words]. *)
Theorem bits_to_words_spec bits :
  0 <= bits < 2 ^ 32 ->
  (bits <= 2 ^ 32 - 32 ->
   bits <= bits_to_words bits * 32 < bits + 32)
  /\ (2 ^ 32 - 32 < bits -> bits_to_words bits = 0)
  /\ (forall X, mpi_wf X -> mbedtls_mpi_bitlen X = bits -> bits_to_words bits = mpi_words X).
Proof.
  intros Hb. change (2 ^ 32) with 4294967296 in *. unfold bits_to_words.
  split; [|split].
  - intros Hfit. rewrite u32_small by (change (2 ^ 32) with 4294967296; lia).
    pose proof (Z.div_mod (bits + 31) 32 ltac:(lia)) as Hd.
    pose proof (Z.mod_pos_bound (bits + 31) 32 ltac:(lia)) as Hm. lia.
  - intros Hwrap. unfold u32. change (2 ^ 32) with 4294967296.
    replace ((bits + 31) mod 4294967296) with (bits + 31 - 4294967296).
    + apply Z.div_small. lia.
    + apply Z.mod_unique with 1; lia.
  - intros X HX Hbits. rewrite <- Hbits. apply bits_to_words_mpi. exact HX.
Qed.

Lemma bits_to_words_spec_witness :
  33 <= bits_to_words 33 * 32 < 33 + 32.
Proof.
  destruct (bits_to_words_spec 33) as (Hceil & _).
  - lia.
  - apply Hceil. lia.
Defined.



(** X10: on the failover path multiply returns 0 in every case and never
    writes the sign of the result: the result keeps the sign it came in
    with, and when the allocator refuses the limbs for the read-back the
    result is left exactly as it was.  The lock is free afterwards. *)
Theorem failover_never_sets_sign Zr X Y w :
  mpi_wf X -> mpi_wf Y ->
  2 <= mbedtls_mpi_bitlen X -> 2 <= mbedtls_mpi_bitlen Y ->
  MAX (mpi_words X) (mpi_words Y) * 32 > 2048 ->
  (mpi_words X + mpi_words Y) * 32 <= 4096 ->
  mpi_lock w = false ->
  exists Zr' w',
    mbedtls_mpi_mul_mpi Zr X Y w = Some ((0, Zr'), w')
    /\ s Zr' = s Zr
    /\ (n Zr < mpi_words X + mpi_words Y ->
        calloc_ok w (mpi_words X + mpi_words Y) = false -> Zr' = Zr)
    /\ mpi_lock w' = false.
Proof.
  intros HX HY Hbx Hby Hmax Hfit Hlock. rewrite MAX_spec in Hmax.
  destruct (mul_failover_run Zr X Y w HX HY (conj Hbx (conj Hby Hmax)) Hfit Hlock)
    as (Zr' & w' & Hrun & Hs & _ & Hlk & _ & Hfail & _).
  exists Zr', w'. repeat split; assumption.
Qed.

Lemma failover_never_sets_sign_witness :
  exists Zr' w',
    mbedtls_mpi_mul_mpi (mpi_of_Z 0 (-1)) (mpi_of_Z 65 (2 ^ 2048)) (mpi_of_Z 1 2)
                        (idle_world alloc_never) = Some ((0, Zr'), w')
    /\ Zr' = mpi_of_Z 0 (-1).
Proof.
  destruct (failover_never_sets_sign (mpi_of_Z 0 (-1)) (mpi_of_Z 65 (2 ^ 2048)) (mpi_of_Z 1 2)
              (idle_world alloc_never)) as (Zr' & w' & Hrun & _ & Hfail & _).
  - apply mpi_of_Z_wf. vm_compute. discriminate.
  - apply mpi_of_Z_wf. vm_compute. discriminate.
  - vm_compute. discriminate.
  - vm_compute. discriminate.
  - vm_compute. reflexivity.
  - vm_compute. discriminate.
  - reflexivity.
  - exists Zr', w'. split; [exact Hrun|].
    apply Hfail; [vm_compute; reflexivity | reflexivity].
Defined.

(** X11: [mpi_to_mem_block] writes [num_words] words from the base on -
    the limbs of the integer, then zeros once they run out - and nothing
    else: every other word of every block, the registers, the event
    history and the lock are as before. *)
Theorem mpi_to_mem_block_frame a mpi num_words w :
  Forall is_word (p mpi) -> 0 <= num_words < 2 ^ 32 -> n mpi < 2 ^ 32 ->
  exists w',
    mpi_to_mem_block a mpi num_words w = Some (tt, w')
    /\ (forall b j,
          rsa_mem w' b j
          = if block_eqb (fst a) b
               && (Nat.leb (snd a) j && Nat.ltb j (snd a + Z.to_nat num_words))
            then nth (j - snd a) (p mpi) 0
            else rsa_mem w b j)
    /\ rsa_reg w' = rsa_reg w /\ trace w' = trace w
    /\ mpi_lock w' = mpi_lock w /\ calloc_ok w' = calloc_ok w.
Proof.
  intros Hl Hnw Hn. eexists. split; [apply mpi_to_mem_block_run|].
  split.
  - intros b j. rewrite upd_mem_mem. apply marshal_read; assumption.
  - rewrite upd_mem_reg, upd_mem_trace, upd_mem_lock, upd_mem_calloc. repeat split.
Qed.

Lemma mpi_to_mem_block_frame_witness :
  exists w',
    mpi_to_mem_block RSA_MEM_X_BLOCK_BASE (mpi_of_Z 1 77) 3 (idle_world alloc_always)
    = Some (tt, w')
    /\ rsa_mem w' RSA_MEM_X_BLOCK 0%nat = 77
    /\ rsa_mem w' RSA_MEM_X_BLOCK 2%nat = 0.
Proof.
  destruct (mpi_to_mem_block_frame RSA_MEM_X_BLOCK_BASE (mpi_of_Z 1 77) 3
              (idle_world alloc_always)) as (w' & Hrun & Hmem & _).
  - apply to_limbs_words.
  - lia.
  - vm_compute. reflexivity.
  - exists w'. split; [exact Hrun|]. rewrite !Hmem. split; reflexivity.
Defined.

(** X12: [mem_block_to_mpi] only reads the peripheral.  It answers 0 or
    ALLOC_FAILED; on ALLOC_FAILED the integer is untouched; on 0 the sign
    is kept, the storage has grown to [num_words] limbs if it was shorter
    and never shrinks, limb [j] below [num_words] is word [j] of the block
    and every limb from [num_words] up is zero.  It answers 0 whenever the
    storage is long enough or the allocator grants the limbs. *)
Theorem mem_block_to_mpi_outcome x a num_words w :
  0 <= num_words ->
  exists r x',
    mem_block_to_mpi x a num_words w = Some ((r, x'), w)
    /\ (r = 0 \/ (r = MBEDTLS_ERR_MPI_ALLOC_FAILED /\ x' = x))
    /\ (r = 0 ->
        s x' = s x
        /\ length (p x') = Nat.max (length (p x)) (Z.to_nat num_words)
        /\ forall j, nth j (p x') 0
                     = if (j <? Z.to_nat num_words)%nat
                       then rsa_mem w (fst a) (snd a + j)%nat else 0)
    /\ (can_grow w x num_words -> r = 0).
Proof.
  intros Hnw.
  assert (Hgood : can_grow w x num_words ->
          exists x', mem_block_to_mpi x a num_words w = Some ((0, x'), w)
            /\ s x' = s x
            /\ length (p x') = Nat.max (length (p x)) (Z.to_nat num_words)
            /\ forall j, nth j (p x') 0
                         = if (j <? Z.to_nat num_words)%nat
                           then rsa_mem w (fst a) (snd a + j)%nat else 0).
  { intros Hg. rewrite (mem_block_to_mpi_ok x a num_words w Hg).
    eexists. split; [reflexivity|]. rewrite read_back_sign. split; [reflexivity|].
    unfold read_back; cbn [p]. split.
    - rewrite length_app, repeat_length, block_words_length. lia.
    - intros j. rewrite nth_app_zeros. apply nth_block_words. }
  destruct (Z.leb_spec num_words MBEDTLS_MPI_MAX_LIMBS) as [Hmax|Hmax].
  - destruct (Z.ltb_spec (n x) num_words) as [Hshort|Hlong].
    + destruct (calloc_ok w num_words) eqn:Hc.
      * destruct (Hgood (conj Hmax (fun _ => Hc))) as (x' & Hrun & Hrest).
        exists 0, x'. split; [exact Hrun|]. split; [left; reflexivity|].
        split; [intros _; exact Hrest | intros _; reflexivity].
      * exists MBEDTLS_ERR_MPI_ALLOC_FAILED, x.
        split; [apply mem_block_to_mpi_fail; assumption|].
        split; [right; split; reflexivity|].
        split; [intros H; discriminate H|].
        intros [_ Hg]. rewrite (Hg Hshort) in Hc. discriminate Hc.
    + assert (Hg : can_grow w x num_words) by (split; [exact Hmax | intros H; lia]).
      destruct (Hgood Hg) as (x' & Hrun & Hrest).
      exists 0, x'. split; [exact Hrun|]. split; [left; reflexivity|].
      split; [intros _; exact Hrest | intros _; reflexivity].
  - exists MBEDTLS_ERR_MPI_ALLOC_FAILED, x. split.
    + unfold mem_block_to_mpi, mbedtls_mpi_grow.
      destruct (Z.gtb_spec num_words MBEDTLS_MPI_MAX_LIMBS); [reflexivity|lia].
    + split; [right; split; reflexivity|].
      split; [intros H; discriminate H|]. intros [Hg _]. lia.
Qed.

Lemma mem_block_to_mpi_outcome_witness :
  exists r x',
    mem_block_to_mpi (mpi_of_Z 4 (- 2 ^ 100)) RSA_MEM_Z_BLOCK_BASE 2 (idle_world alloc_never)
    = Some ((r, x'), idle_world alloc_never)
    /\ r = 0.
Proof.
  destruct (mem_block_to_mpi_outcome (mpi_of_Z 4 (- 2 ^ 100)) RSA_MEM_Z_BLOCK_BASE 2
              (idle_world alloc_never)) as (r & x' & Hrun & _ & _ & Hok).
  - lia.
  - exists r, x'. split; [exact Hrun|]. apply Hok.
    split; [vm_compute; discriminate|]. intros H. vm_compute in H. discriminate H.
Defined.

(** X13: the two views [mpi_mult_mpi_overlong] takes of the longer operand
    split its magnitude at [words_slice = y_words / 2] words:
    [|Y| = |Yp| + 2^(32 * words_slice) * |Ypp|], for any [y_words] between
    the significant and the allocated length of [Y]; both views are
    well-formed integers with the sign of [Y]. *)
Theorem overlong_views_partition Y y_words :
  mpi_wf Y -> mpi_words Y <= y_words <= n Y ->
  mpi_mag Y = mpi_mag (Yp_view Y (y_words / 2))
              + 2 ^ (32 * (y_words / 2)) * mpi_mag (Ypp_view Y (y_words / 2) y_words)
  /\ mpi_wf (Yp_view Y (y_words / 2)) /\ mpi_wf (Ypp_view Y (y_words / 2) y_words)
  /\ s (Yp_view Y (y_words / 2)) = s Y /\ s (Ypp_view Y (y_words / 2) y_words) = s Y.
Proof.
  intros HY Hy.
  pose proof (mpi_words_range Y HY) as Hr. pose proof HY as (_ & _ & HnY).
  unfold MBEDTLS_MPI_MAX_LIMBS in *.
  assert (Hs : 0 <= y_words / 2 <= y_words).
  { split; [apply Z.div_pos; lia | apply Z.div_le_upper_bound; lia]. }
  unfold Yp_view, Ypp_view.
  rewrite (u32_small (y_words - y_words / 2)) by (change (2 ^ 32) with 4294967296; lia).
  split; [|split; [apply wf_slice_lo, HY | split; [apply wf_slice_hi, HY | split; reflexivity]]].
  unfold mpi_mag; cbn [p].
  rewrite (slice_value (p Y) (Z.to_nat y_words) (Z.to_nat (y_words / 2))).
  - rewrite wB_pow, Z2Nat.id by lia.
    replace (Z.to_nat y_words - Z.to_nat (y_words / 2))%nat
      with (Z.to_nat (y_words - y_words / 2)) by lia.
    reflexivity.
  - rewrite mpi_words_sig in Hy. lia.
  - lia.
  - unfold n in Hy. lia.
Qed.

Lemma overlong_views_partition_witness :
  mpi_mag (mpi_of_Z 5 (2 ^ 150 + 9))
  = mpi_mag (Yp_view (mpi_of_Z 5 (2 ^ 150 + 9)) 2)
    + 2 ^ 64 * mpi_mag (Ypp_view (mpi_of_Z 5 (2 ^ 150 + 9)) 2 5).
Proof.
  destruct (overlong_views_partition (mpi_of_Z 5 (2 ^ 150 + 9)) 5) as (Hv & _).
  - apply mpi_of_Z_wf. vm_compute. discriminate.
  - split; vm_compute; discriminate.
  - exact Hv.
Defined.








